(** * Apte::FastVector: a shallow embedding of src/FastVector.h

    The container is a class template over an element type [T]; it owns one
    raw block obtained from the aligned global [operator new], placement-
    constructs elements into it and destroys them by explicit destructor
    calls.  The embedding keeps that shape:

    - [size_t] values are [Z] with the 64-bit wrap-around written out;
    - the free store is a finite map from block pointers to blocks of slots,
      a slot being either raw memory or a live [T];
    - buffer objects live in a second finite map keyed by their address, so
      that [this != &other] is a comparison of addresses;
    - member functions are programs of a state monad whose runs end in a
      value, in a C++ exception, or in a fault (undefined behaviour or an
      ill-formed expression). *)

From Stdlib Require Import ZArith Lia.
From stdpp Require Import base option list gmap.

Local Open Scope Z_scope.

(** ** size_t *)

Definition size_t_modulus : Z := 18446744073709551616.   (* 2^64 *)

Definition wrap (z : Z) : Z := z mod size_t_modulus.

(** ** The element type and its traits

    [sizeof_T] and [alignof_T] stand for [sizeof(T)] and [alignof(T)],
    [is_nothrow_move_constructible] for
    [std::is_nothrow_move_constructible_v<T>], and [moved_from v] is the
    state in which the move constructor of [T] leaves a source that held
    [v].  Element copy, move and destruction are taken not to throw. *)

Class ElemTraits (T : Type) := {
  sizeof_T : Z;
  alignof_T : Z;
  is_nothrow_move_constructible : bool;
  moved_from : T → T;
  sizeof_T_pos : 0 < sizeof_T;
}.

(** ** Outcomes of a run *)

Inductive exn :=
  | bad_alloc       (* thrown by ::operator new *)
  | out_of_range.   (* thrown by pop_back on an empty vector *)

Inductive fault :=
  | dead_object     (* read or destruction of a slot that holds no live T *)
  | out_of_bounds   (* access past the end of a block *)
  | bad_pointer     (* access or release through a pointer to no block *)
  | no_object       (* member call on an address that holds no vector *)
  | ill_formed.     (* evaluation of an expression that has no type *)

Inductive outcome (S A : Type) :=
  | Ok (a : A) (s : S)
  | Throw (e : exn) (s : S)
  | Fault (f : fault).

Arguments Ok {S A} a s.
Arguments Throw {S A} e s.
Arguments Fault {S A} f.

(** ** The free store and the vector objects *)

Record block (T : Type) := Block {
  blk_bytes : Z;
  blk_align : Z;
  blk_cells : list (option T);
}.

Arguments Block {T} _ _ _.
Arguments blk_bytes {T} _.
Arguments blk_align {T} _.
Arguments blk_cells {T} _.

Inductive event :=
  | EvNew (p bytes align : Z)
  | EvDelete (p bytes align : Z).

Record FastVector := Vec {
  m_Data : Z;
  m_Size : Z;
  m_Capacity : Z;
}.

Definition nullptr : Z := 0.

Definition initialCapacity : Z := 4.

Record world (T : Type) := World {
  objs : gmap Z FastVector;
  blocks : gmap Z (block T);
  avail : Z;
  trace : list event;
}.

Arguments World {T} _ _ _ _.
Arguments objs {T} _.
Arguments blocks {T} _.
Arguments avail {T} _.
Arguments trace {T} _.

Definition M (T A : Type) : Type := world T → outcome (world T) A.

Global Instance M_ret {T} : MRet (M T) := λ A a w, Ok a w.

Global Instance M_bind {T} : MBind (M T) := λ A B f m w,
  match m w with
  | Ok a w' => f a w'
  | Throw e w' => Throw e w'
  | Fault x => Fault x
  end.

Definition throw {T A} (e : exn) : M T A := λ w, Throw e w.

Definition undefined {T A} (f : fault) : M T A := λ _, Fault f.

Fixpoint for_from {T} (n : nat) (i : Z) (body : Z → M T unit) : M T unit :=
  match n with
  | O => mret tt
  | S n' => body i ;; for_from n' (i + 1) body
  end.

(** [for (size_t i = 0; i < bound; i++) body(i)], for a body that does not
    change [bound]; [i] stays below [bound], so [i++] does not wrap. *)
Definition for_upto {T} (bound : Z) (body : Z → M T unit) : M T unit :=
  for_from (Z.to_nat bound) 0 body.

Section FastVector.

Context {T : Type} `{ElemTraits T}.

Local Abbreviation M := (M T).

(** *** The global aligned allocation functions *)

(** [::operator new(bytes, align)]: a block the store does not hold yet,
    never null (also for zero bytes), or [std::bad_alloc] when the request
    exceeds what the store can still hand out. *)
Definition operator_new (bytes align : Z) : M Z := λ w,
  if bytes <=? avail w then
    let p := fresh ({[nullptr]} ∪ dom (blocks w)) in
    let b := Block bytes align (replicate (Z.to_nat (bytes / sizeof_T)) None) in
    Ok p (World (objs w) (<[p := b]> (blocks w)) (avail w - bytes)
                (trace w ++ [EvNew p bytes align]))
  else Throw bad_alloc w.

(** [::operator delete(p, bytes, align)]: nothing for a null pointer;
    otherwise the block at [p] is returned to the store.  C++ leaves a
    release with a size or alignment other than the acquired one undefined,
    and allocators in common use ignore the size; here the block is released
    whatever is passed, and the size and alignment passed are recorded in
    the trace as they are, for [releases_match] below to judge. *)
Definition operator_delete (p bytes align : Z) : M unit := λ w,
  if decide (p = nullptr) then Ok tt w
  else match blocks w !! p with
       | None => Fault bad_pointer
       | Some b =>
           Ok tt (World (objs w) (delete p (blocks w)) (avail w + blk_bytes b)
                        (trace w ++ [EvDelete p bytes align]))
       end.

(** *** Objects in a block *)

Definition with_cell {A} (p i : Z)
    (k : block T → nat → option T → M A) : M A := λ w,
  match blocks w !! p with
  | None => Fault bad_pointer
  | Some b =>
      if decide (0 ≤ i) then
        match blk_cells b !! Z.to_nat i with
        | None => Fault out_of_bounds
        | Some c => k b (Z.to_nat i) c w
        end
      else Fault out_of_bounds
  end.

Definition store_cell (p : Z) (b : block T) (n : nat) (c : option T) : M unit :=
  λ w, Ok tt (World (objs w)
                    (<[p := Block (blk_bytes b) (blk_align b) (<[n := c]> (blk_cells b))]> (blocks w))
                    (avail w) (trace w)).

(** [new (p + i) T(v)] *)
Definition construct_at (p i : Z) (v : T) : M unit :=
  with_cell p i (λ b n _, store_cell p b n (Some v)).

(** the value of the live object [p[i]] *)
Definition load (p i : Z) : M T :=
  with_cell p i (λ b n c,
    match c with
    | Some v => mret v
    | None => undefined dead_object
    end).

(** [std::move(p[i])] consumed by a move constructor: yields the value and
    leaves the source live in its moved-from state *)
Definition move_out (p i : Z) : M T :=
  with_cell p i (λ b n c,
    match c with
    | Some v => store_cell p b n (Some (moved_from v)) ;; mret v
    | None => undefined dead_object
    end).

(** [p[i] = v] through a reference to a live object *)
Definition assign_at (p i : Z) (v : T) : M unit :=
  with_cell p i (λ b n c,
    match c with
    | Some _ => store_cell p b n (Some v)
    | None => undefined dead_object
    end).

(** [p[i].~T()] *)
Definition destroy_at (p i : Z) : M unit :=
  with_cell p i (λ b n c,
    match c with
    | Some _ => store_cell p b n None
    | None => undefined dead_object
    end).

(** *** Access to the members of [*this] *)

Definition self (this : Z) : M FastVector := λ w,
  match objs w !! this with
  | Some v => Ok v w
  | None => Fault no_object
  end.

Definition set_self (this : Z) (v : FastVector) : M unit := λ w,
  match objs w !! this with
  | Some _ => Ok tt (World (<[this := v]> (objs w)) (blocks w) (avail w) (trace w))
  | None => Fault no_object
  end.

(** the constructors run on an address that holds no vector yet *)
Definition begin_lifetime (this : Z) (v : FastVector) : M unit := λ w,
  match objs w !! this with
  | Some _ => Fault no_object
  | None => Ok tt (World (<[this := v]> (objs w)) (blocks w) (avail w) (trace w))
  end.

Definition end_lifetime (this : Z) : M unit := λ w,
  Ok tt (World (delete this (objs w)) (blocks w) (avail w) (trace w)).

(** *** Private members *)

Definition allocate (n : Z) : M Z :=
  operator_new (wrap (n * sizeof_T)) alignof_T.

Definition deallocate (ptr n : Z) : M unit :=
  operator_delete ptr (wrap (n * sizeof_T)) alignof_T.

(** The loop destroys the elements; no statement assigns [m_Size]. *)
Definition nuke (this : Z) : M unit :=
  v ← self this;
  for_upto (m_Size v) (λ i, destroy_at (m_Data v) i).

(** [m_Capacity > 0 ? m_Capacity * 2 : initialCapacity] *)
Definition new_capacity (m_Capacity : Z) : Z :=
  if 0 <? m_Capacity then wrap (m_Capacity * 2) else initialCapacity.

Definition grow (this : Z) : M unit :=
  v ← self this;
  let newCapacity := new_capacity (m_Capacity v) in
  newData ← allocate newCapacity;
  (if is_nothrow_move_constructible
   then for_upto (m_Size v) (λ i, x ← move_out (m_Data v) i; construct_at newData i x)
   else for_upto (m_Size v) (λ i, x ← load (m_Data v) i; construct_at newData i x)) ;;
  nuke this ;;
  deallocate (m_Data v) (m_Capacity v) ;;
  v ← self this;
  set_self this (Vec newData (m_Size v) newCapacity).

(** *** Public members *)

(** [FastVector()] *)
Definition default_ctor (this : Z) : M unit :=
  begin_lifetime this (Vec nullptr 0 0).

(** [~FastVector()] *)
Definition dtor (this : Z) : M unit :=
  nuke this ;;
  v ← self this;
  (if decide (m_Data v ≠ nullptr) then deallocate (m_Data v) (m_Capacity v) else mret tt) ;;
  end_lifetime this.

(** [FastVector(const FastVector& other)] *)
Definition copy_ctor (this other : Z) : M unit :=
  o ← self other;
  data ← allocate (m_Capacity o);
  begin_lifetime this (Vec data (m_Size o) (m_Capacity o)) ;;
  for_upto (m_Size o) (λ i, x ← load (m_Data o) i; construct_at data i x).

(** [FastVector(FastVector&& other)] *)
Definition move_ctor (this other : Z) : M unit :=
  o ← self other;
  begin_lifetime this (Vec (m_Data o) (m_Size o) (m_Capacity o)) ;;
  set_self other (Vec nullptr 0 0).

(** [push_back(const T&)] and [push_back(T&&)]: the two overloads differ
    only in how the argument is consumed. *)
Definition push_back (this : Z) (value : T) : M unit :=
  v ← self this;
  (if decide (m_Size v = m_Capacity v) then grow this else mret tt) ;;
  v ← self this;
  construct_at (m_Data v) (m_Size v) value ;;
  set_self this (Vec (m_Data v) (wrap (m_Size v + 1)) (m_Capacity v)).

Definition pop_back (this : Z) : M unit :=
  v ← self this;
  if decide (m_Size v = 0) then throw out_of_range
  else
    let size' := wrap (m_Size v - 1) in
    set_self this (Vec (m_Data v) size' (m_Capacity v)) ;;
    destroy_at (m_Data v) size'.

Definition clear (this : Z) : M unit := nuke this.

Definition size (this : Z) : M Z := v ← self this; mret (m_Size v).

Definition empty (this : Z) : M bool := v ← self this; mret (bool_decide (m_Size v = 0)).

(** [operator=(FastVector&& other)]; the release passes [m_Size]. *)
Definition move_assign (this other : Z) : M unit :=
  if decide (this ≠ other) then
    nuke this ;;
    v ← self this;
    (if decide (m_Data v ≠ nullptr) then deallocate (m_Data v) (m_Size v) else mret tt) ;;
    o ← self other;
    set_self this (Vec (m_Data o) (m_Size o) (m_Capacity o)) ;;
    set_self other (Vec nullptr 0 0)
  else mret tt.

(** [operator[]]: [assert(index < m_Size)] aborts the checked build and the
    unchecked build reads past the live elements; both are the fault
    [out_of_bounds] here. *)
Definition subscript (this index : Z) : M T :=
  v ← self this;
  if decide (index < m_Size v) then load (m_Data v) index
  else undefined out_of_bounds.

(** [v[index] = x] *)
Definition subscript_assign (this index : Z) (x : T) : M unit :=
  v ← self this;
  if decide (index < m_Size v) then assign_at (m_Data v) index x
  else undefined out_of_bounds.

(** The operand of [std::move] in the loop of [reserve] is [m_Size[i]]: the
    subscript is applied to the [size_t] counter, not to [m_Data].  The
    built-in subscript needs a pointer operand, so the expression has no
    type and no value; a compiler rejects every instantiation of [reserve],
    and in this embedding evaluating the expression is the fault
    [ill_formed]. *)
Definition subscript_of_size_t (counter i : Z) : M T := undefined ill_formed.

Definition reserve (this p_Capacity : Z) : M unit :=
  v ← self this;
  if decide (p_Capacity ≤ m_Capacity v) then mret tt
  else
    newData ← allocate p_Capacity;
    for_upto (m_Size v) (λ i, x ← subscript_of_size_t (m_Size v) i; construct_at newData i x) ;;
    nuke this ;;
    (if decide (m_Data v ≠ nullptr) then deallocate (m_Data v) (m_Capacity v) else mret tt) ;;
    v ← self this;
    set_self this (Vec newData (m_Size v) p_Capacity).

End FastVector.

(** ** The instance used in examples: [FastVector<int>] on a 64-bit target *)

Global Instance int_traits : ElemTraits Z := {|
  sizeof_T := 4;
  alignof_T := 4;
  is_nothrow_move_constructible := true;
  moved_from := λ v, v;
  sizeof_T_pos := eq_refl;
|}.

Definition empty_world {T} (mem : Z) : world T := World ∅ ∅ mem [].

(** the world a program leaves behind, when it completes *)
Definition world_after {T A} (m : M T A) (w : world T) : world T :=
  match m w with
  | Ok _ w' => w'
  | _ => w
  end.

(** ** Programs over the public interface *)

Fixpoint push_all `{ElemTraits T} (this : Z) (xs : list T) : M T unit :=
  match xs with
  | [] => mret tt
  | x :: xs' => push_back this x ;; push_all this xs'
  end.

(** what a caller can do to one vector it holds *)
Inductive mutation (T : Type) :=
  | MPush (x : T)
  | MPop
  | MClear
  | MReserve (n : Z)
  | MAssign (i : Z) (x : T).

Arguments MPush {T} x.
Arguments MPop {T}.
Arguments MClear {T}.
Arguments MReserve {T} n.
Arguments MAssign {T} i x.

Definition mutate `{ElemTraits T} (this : Z) (m : mutation T) : M T unit :=
  match m with
  | MPush x => push_back this x
  | MPop => pop_back this
  | MClear => clear this
  | MReserve n => reserve this n
  | MAssign i x => subscript_assign this i x
  end.

(** the public operations that create, change or end a vector *)
Inductive op (T : Type) :=
  | OpDefault (this : Z)
  | OpCopy (this other : Z)
  | OpMove (this other : Z)
  | OpMoveAssign (this other : Z)
  | OpMutate (this : Z) (m : mutation T)
  | OpDestroy (this : Z).

Arguments OpDefault {T} this.
Arguments OpCopy {T} this other.
Arguments OpMove {T} this other.
Arguments OpMoveAssign {T} this other.
Arguments OpMutate {T} this m.
Arguments OpDestroy {T} this.

Definition run_op `{ElemTraits T} (o : op T) : M T unit :=
  match o with
  | OpDefault this => default_ctor this
  | OpCopy this other => copy_ctor this other
  | OpMove this other => move_ctor this other
  | OpMoveAssign this other => move_assign this other
  | OpMutate this m => mutate this m
  | OpDestroy this => dtor this
  end.

(** ** Observations and state predicates *)

Definition capacity_of {T} (w : world T) (this : Z) : option Z :=
  m_Capacity <$> objs w !! this.

Definition size_of {T} (w : world T) (this : Z) : option Z :=
  m_Size <$> objs w !! this.

(** the capacities seen before each [push_back] of [xs] and after the last *)
Fixpoint capacities `{ElemTraits T} (this : Z) (xs : list T) (w : world T) : list (option Z) :=
  capacity_of w this ::
  match xs with
  | [] => []
  | x :: xs' =>
      match push_back this x w with
      | Ok _ w' => capacities this xs' w'
      | _ => []
      end
  end.

(** The block at [p] has room for exactly [cap] elements of [T], with the
    alignment of [T], and its first slots hold the live elements [xs]; or
    there is no block, [p] is null and [cap] is 0. *)
Definition storage_at `{ElemTraits T} (w : world T) (p cap : Z) (xs : list T) : Prop :=
  match blocks w !! p with
  | Some b =>
      p ≠ nullptr ∧
      blk_bytes b = cap * sizeof_T ∧
      cap * sizeof_T < size_t_modulus ∧
      blk_align b = alignof_T ∧
      Z.of_nat (length (blk_cells b)) = cap ∧
      take (length xs) (blk_cells b) = Some <$> xs
  | None => p = nullptr ∧ cap = 0 ∧ xs = []
  end.

(** The vector at address [this] has the members [v] and holds exactly the
    live elements [xs], in index order (invariant I1 of the data model
    together with the sizing of the block). *)
Definition holds `{ElemTraits T} (w : world T) (this : Z) (v : FastVector) (xs : list T) : Prop :=
  objs w !! this = Some v ∧
  m_Size v = Z.of_nat (length xs) ∧
  m_Size v ≤ m_Capacity v ∧
  storage_at w (m_Data v) (m_Capacity v) xs.

(** the slot [p[i]] holds no live object *)
Definition dead_at {T} (w : world T) (p i : Z) : Prop :=
  ∃ b, blocks w !! p = Some b ∧ blk_cells b !! Z.to_nat i = Some None.

(** *** The allocation trace *)

(** the size and alignment of the latest acquisition of [p] in a trace *)
Fixpoint acquired (tr : list event) (p : Z) : option (Z * Z) :=
  match tr with
  | [] => None
  | EvNew q bytes align :: tr' =>
      match acquired tr' p with
      | Some r => Some r
      | None => if decide (q = p) then Some (bytes, align) else None
      end
  | EvDelete q _ _ :: tr' =>
      match acquired tr' p with
      | Some r => Some r
      | None => None
      end
  end.

(** every release in the trace passes the size and alignment of the latest
    acquisition of the same pointer before it *)
Fixpoint releases_match (seen tr : list event) : bool :=
  match tr with
  | [] => true
  | EvNew p bytes align :: tr' => releases_match (seen ++ [EvNew p bytes align]) tr'
  | EvDelete p bytes align :: tr' =>
      bool_decide (acquired seen p = Some (bytes, align)) &&
      releases_match (seen ++ [EvDelete p bytes align]) tr'
  end.

(** *** The invariants of the data model, on the members of one vector *)

Definition size_within_capacity (v : FastVector) : Prop :=
  0 ≤ m_Size v ≤ m_Capacity v.

(** I2 as the data model words it *)
Definition storage_iff_capacity (v : FastVector) : Prop :=
  m_Data v ≠ nullptr ↔ 0 < m_Capacity v.

(** the direction of I2 that every operation keeps *)
Definition capacity_has_storage (v : FastVector) : Prop :=
  0 < m_Capacity v → m_Data v ≠ nullptr.

Definition all_vectors {T} (P : FastVector → Prop) (w : world T) : Prop :=
  ∀ this v, objs w !! this = Some v → P v.

(** copy construction from a source whose capacity is 0 *)
Definition copies_zero_capacity {T} (o : op T) (w : world T) : Prop :=
  match o with
  | OpCopy _ other => capacity_of w other = Some 0
  | _ => False
  end.

(** ** Reasoning about runs *)

(** the run completes normally and its result satisfies [Q] *)
Definition wp {T A} (m : M T A) (w : world T) (Q : A → world T → Prop) : Prop :=
  match m w with
  | Ok a w' => Q a w'
  | _ => False
  end.

(** if the run completes normally, its result satisfies [Q] *)
Definition wlp {T A} (m : M T A) (w : world T) (Q : A → world T → Prop) : Prop :=
  match m w with
  | Ok a w' => Q a w'
  | _ => True
  end.

(** size in bytes, alignment and number of slots of every block *)
Definition shape {T} (w : world T) : gmap Z (Z * Z * nat) :=
  (λ b, (blk_bytes b, blk_align b, length (blk_cells b))) <$> blocks w.

(** [w'] differs from [w] at most in the contents of the slots of the
    blocks selected by [P] *)
Definition cells_changed {T} (P : Z → Prop) (w w' : world T) : Prop :=
  objs w' = objs w ∧ avail w' = avail w ∧ trace w' = trace w ∧
  shape w' = shape w ∧
  ∀ r, ¬ P r → blocks w' !! r = blocks w !! r.

(** every block of [w] outside [P] is still there in [w'], with the same
    contents, and no block has appeared at the null pointer *)
Definition kept {T} (P : Z → Prop) (w w' : world T) : Prop :=
  (∀ r b, ¬ P r → blocks w !! r = Some b → blocks w' !! r = Some b) ∧
  (blocks w !! nullptr = None → blocks w' !! nullptr = None).

(** the block that [allocate n] hands out: bytes, alignment and slots *)
Definition allocated_shape `{ElemTraits T} (n : Z) : Z * Z * nat :=
  (wrap (n * sizeof_T), alignof_T, Z.to_nat (wrap (n * sizeof_T) / sizeof_T)).

(** the growth rule as the specification words it:
    [capacity == 0 ? 4 : capacity * 2] *)
Definition spec_new_capacity (capacity : Z) : Z :=
  if decide (capacity = 0) then 4 else capacity * 2.

(** the first [n] slots of the block at [p] hold live objects *)
Definition live_upto {T} (w : world T) (p : Z) (n : nat) : Prop :=
  ∀ j, (j < n)%nat →
    ∃ b x, blocks w !! p = Some b ∧ blk_cells b !! j = Some (Some x).

(** how [grow] and the copy constructor read the element [p[i]]: [fetch]
    yields the value and leaves [residue] of it in the slot *)
Definition fetches `{ElemTraits T} (residue : T → T) (fetch : Z → Z → M T T) : Prop :=
  ∀ p i v b w (Q : T → world T → Prop),
    blocks w !! p = Some b → 0 ≤ i →
    blk_cells b !! Z.to_nat i = Some (Some v) →
    (∀ w', cells_changed (λ r, r = p) w w' →
       blocks w' !! p = Some (Block (blk_bytes b) (blk_align b)
                                (<[Z.to_nat i := Some (residue v)]> (blk_cells b))) →
       Q v w') →
    wp (fetch p i) w Q.

(** ** Worlds used in examples *)

(** one default-constructed [FastVector<int>] at address 1 *)
Definition world_fresh : world Z :=
  world_after (default_ctor 1) (empty_world 1000).

(** the vector at address 1 after [push_back] of 10, 20 and 30 *)
Definition world_three : world Z :=
  world_after (push_all 1 [10; 20; 30]) world_fresh.

(** what one member call may do to the members [v] of its vector, as far as
    the invariants go *)
Definition keeps_invariants (v v' : FastVector) : Prop :=
  (size_within_capacity v → size_within_capacity v') ∧
  (size_within_capacity v → capacity_has_storage v → capacity_has_storage v') ∧
  (size_within_capacity v → storage_iff_capacity v → storage_iff_capacity v').

(** the vector of [world_three] and a default-constructed one at address 2 *)
Definition world_pair : world Z :=
  world_after (default_ctor 2) world_three.

(** address 2 holds [5; 6], address 1 holds [10; 20; 30] *)
Definition world_two_filled : world Z :=
  world_after (push_all 2 [5; 6]) world_pair.

(** address 2 holds [5; 6; 7; 8] and is filled to its capacity of 4,
    address 1 holds [10; 20; 30] *)
Definition world_two_full : world Z :=
  world_after (push_all 2 [5; 6; 7; 8]) world_pair.

(** [world_three] after [clear()] on the vector at address 1 *)
Definition world_cleared : world Z :=
  world_after (clear 1) world_three.

(** closes a goal about a concrete world by evaluation *)
Ltac evaluate :=
  vm_compute; repeat split;
  first [reflexivity | discriminate | (intros; discriminate) | done].

(** ** Exceptions *)

(** no run of [m] ends in an exception *)
Definition nothrow {T A} (m : M T A) : Prop :=
  ∀ w e w', m w ≠ Throw e w'.

(** a run of [m] that completes has not changed the world *)
Definition reads {T A} (m : M T A) : Prop :=
  ∀ w a w', m w = Ok a w' → w' = w.

(** a run of [m] that ends in an exception has not changed the world, and
    the exception is one of [E] *)
Definition fails_cleanly {T A} (E : exn → Prop) (m : M T A) : Prop :=
  ∀ w e w', m w = Throw e w' → w' = w ∧ E e.

(** the operations a program can call: [reserve] has no instantiation
    that a compiler accepts *)
Definition instantiable {T} (o : op T) : Prop :=
  match o with
  | OpMutate _ (MReserve _) => False
  | _ => True
  end.

(** the exception an operation can end in, if any *)
Definition may_throw {T} (o : op T) (e : exn) : Prop :=
  match o with
  | OpCopy _ _ => e = bad_alloc
  | OpMutate _ (MPush _) => e = bad_alloc
  | OpMutate _ MPop => e = out_of_range
  | _ => False
  end.

(** a vector at address 1 in a store that can hand out 8 more bytes *)
Definition world_tight : world Z :=
  world_after (default_ctor 1) (empty_world 8).

(** ** The store across a member call *)

(** what [deallocate ptr n] appends to the trace *)
Definition release_events `{ElemTraits T} (ptr n : Z) : list event :=
  if decide (ptr = nullptr) then []
  else [EvDelete ptr (wrap (n * sizeof_T)) alignof_T].

(** the store holds the same block, or none, at every pointer outside [P] *)
Definition same_except {T} (P : Z → Prop) (w w' : world T) : Prop :=
  ∀ r, ¬ P r → blocks w' !! r = blocks w !! r.

(** every block of the store has the size and alignment of the latest
    acquisition of its pointer in the trace *)
Definition trace_agrees {T} (w : world T) : Prop :=
  ∀ p b, blocks w !! p = Some b →
    acquired (trace w) p = Some (blk_bytes b, blk_align b).

(** [pop_back()] called [n] times *)
Fixpoint pop_n `{ElemTraits T} (this : Z) (n : nat) : M T unit :=
  match n with
  | O => mret tt
  | S n' => pop_back this ;; pop_n this n'
  end.

(** the mutations whose code has no call of [grow] or [allocate] *)
Definition without_growth {T} (m : mutation T) : Prop :=
  match m with
  | MPop | MClear | MAssign _ _ => True
  | MPush _ | MReserve _ => False
  end.

(** ** The benchmark program, src/src/Main.cpp

    The program fills a [FastVector<int>] and a [std::vector<int>] with
    [0 .. N-1], adds 5 to every element of each, and prints the two sizes
    and four durations.  The two containers do not interact; this is the
    part that runs on the [FastVector]: its construction, the two loops,
    the call of [size()] whose result is printed, and its destruction at
    the end of [main]. *)

(** [int] addition; the sum is taken modulo 2^32 into the range of [int]
    (a sum outside that range is undefined in C++) *)
Definition int_add (a b : Z) : Z :=
  (a + b + 2147483648) mod 4294967296 - 2147483648.

(** [p[i] = f(p[i])] on a live object, as [p[i] += 5] is for [f = (+ 5)] *)
Definition modify_at {T} (p i : Z) (f : T → T) : M T unit :=
  with_cell p i (λ b n c,
    match c with
    | Some v => store_cell p b n (Some (f v))
    | None => undefined dead_object
    end).

(** a compound assignment [v[index] op= ...] through [operator[]] *)
Definition subscript_modify `{ElemTraits T} (this index : Z) (f : T → T) : M T unit :=
  v ← self this;
  if decide (index < m_Size v) then modify_at (m_Data v) index f
  else undefined out_of_bounds.

Definition main_N : Z := 10000000.

(** [main], with [N] as a parameter and the vector [fv] at address [fv];
    the result is the value printed for [fv.size()] *)
Definition main_with (N fv : Z) : M Z Z :=
  default_ctor fv ;;
  for_upto N (λ i, push_back fv i) ;;
  for_upto N (λ i, subscript_modify fv i (λ x, int_add x 5)) ;;
  n ← size fv;
  dtor fv ;;
  mret n.

Definition main (fv : Z) : M Z Z := main_with main_N fv.

(** * Properties *)

Lemma wrap_small z : 0 ≤ z < size_t_modulus → wrap z = z.
Proof. intros. unfold wrap. by apply Z.mod_small. Qed.

Lemma wrap_bounds z : 0 ≤ wrap z < size_t_modulus.
Proof. unfold wrap. apply Z.mod_pos_bound. reflexivity. Qed.

Lemma wrap_le z : 0 ≤ z → wrap z ≤ z.
Proof. intros. unfold wrap. apply Z.mod_le; [done | reflexivity]. Qed.

Section Rules.

Context {T : Type}.

Implicit Types w : world T.

Lemma wp_run {A} (m : M T A) w Q a w' : m w = Ok a w' → Q a w' → wp m w Q.
Proof. unfold wp. by intros ->. Qed.

Lemma wp_inv {A} (m : M T A) w Q : wp m w Q → ∃ a w', m w = Ok a w' ∧ Q a w'.
Proof. unfold wp. destruct (m w); naive_solver. Qed.

Lemma wp_mono {A} (m : M T A) w (Q Q' : A → world T → Prop) :
  wp m w Q → (∀ a w', Q a w' → Q' a w') → wp m w Q'.
Proof. unfold wp. destruct (m w); naive_solver. Qed.

Lemma wp_ret {A} (a : A) w (Q : A → world T → Prop) : Q a w → wp (mret a) w Q.
Proof. done. Qed.

Lemma wp_bind {A B} (m : M T A) (f : A → M T B) w Q :
  wp m w (λ a w', wp (f a) w' Q) → wp (m ≫= f) w Q.
Proof. unfold wp, mbind, M_bind. by destruct (m w). Qed.

Lemma wlp_run {A} (m : M T A) w Q a w' : wlp m w Q → m w = Ok a w' → Q a w'.
Proof. unfold wlp. intros Hw Hm. by rewrite Hm in Hw. Qed.

Lemma wlp_intro {A} (m : M T A) w (Q : A → world T → Prop) :
  (∀ a w', m w = Ok a w' → Q a w') → wlp m w Q.
Proof. unfold wlp. destruct (m w); naive_solver. Qed.

Lemma wlp_mono {A} (m : M T A) w (Q Q' : A → world T → Prop) :
  wlp m w Q → (∀ a w', Q a w' → Q' a w') → wlp m w Q'.
Proof. unfold wlp. destruct (m w); naive_solver. Qed.

Lemma wlp_ret {A} (a : A) w (Q : A → world T → Prop) : Q a w → wlp (mret a) w Q.
Proof. done. Qed.

Lemma wlp_bind {A B} (m : M T A) (f : A → M T B) w Q :
  wlp m w (λ a w', wlp (f a) w' Q) → wlp (m ≫= f) w Q.
Proof. unfold wlp, mbind, M_bind. by destruct (m w). Qed.

Lemma wp_wlp {A} (m : M T A) w (Q Q' : A → world T → Prop) :
  wp m w Q → wlp m w Q' → wp m w (λ a w', Q a w' ∧ Q' a w').
Proof. unfold wp, wlp. destruct (m w); naive_solver. Qed.

(** a loop keeps what each of its rounds keeps *)
Lemma wlp_for_from (I : world T → Prop) n i (body : Z → M T unit) w :
  I w →
  (∀ j w1, i ≤ j < i + Z.of_nat n → I w1 → wlp (body j) w1 (λ _, I)) →
  wlp (for_from n i body) w (λ _, I).
Proof.
  revert i w. induction n as [|n IH]; intros i w Hw Hbody; [done|].
  cbn [for_from]. apply wlp_bind.
  eapply wlp_mono; [apply Hbody; [lia | done]|].
  intros [] w1 Hw1. apply IH; [done|].
  intros j w2 Hj. apply Hbody. lia.
Qed.

(** a loop whose [k]-th round takes [I k] to [I (k + 1)] completes *)
Lemma wp_for_from (I : nat → world T → Prop) n i (body : Z → M T unit) w :
  I O w →
  (∀ k w1, (k < n)%nat → I k w1 → wp (body (i + Z.of_nat k)) w1 (λ _, I (S k))) →
  wp (for_from n i body) w (λ _, I n).
Proof.
  revert i w I. induction n as [|n IH]; intros i w I Hw Hbody; [done|].
  cbn [for_from]. apply wp_bind.
  eapply wp_mono.
  { specialize (Hbody O w). rewrite Z.add_0_r in Hbody. apply Hbody; [lia | done]. }
  intros [] w1 Hw1. cbn beta.
  apply (IH (i + 1) w1 (λ k, I (S k))); [done|].
  intros k w2 Hk Hw2.
  replace (i + 1 + Z.of_nat k) with (i + Z.of_nat (S k)) by lia.
  apply Hbody; [lia | done].
Qed.

Lemma cells_changed_refl P w : cells_changed P w w.
Proof. by unfold cells_changed. Qed.

Lemma cells_changed_trans P w1 w2 w3 :
  cells_changed P w1 w2 → cells_changed P w2 w3 → cells_changed P w1 w3.
Proof.
  unfold cells_changed. intros (?&?&?&?&H12) (?&?&?&?&H23).
  repeat split; try congruence. intros r Hr. rewrite H23, H12; done.
Qed.

Lemma cells_changed_weaken (P P' : Z → Prop) w w' :
  (∀ r, P r → P' r) → cells_changed P w w' → cells_changed P' w w'.
Proof.
  unfold cells_changed. intros HP (?&?&?&?&Hb). repeat split; try done.
  intros r Hr. apply Hb. intros ?. apply Hr. by apply HP.
Qed.

End Rules.

(** ** The primitives *)

Section Primitives.

Context {T : Type} `{ElemTraits T}.

Implicit Types w : world T.
Implicit Types Q : unit → world T → Prop.

Lemma wp_self this v w (Q : FastVector → world T → Prop) :
  objs w !! this = Some v → Q v w → wp (self this) w Q.
Proof. unfold wp, self. by intros ->. Qed.

Lemma wlp_self this w (Q : FastVector → world T → Prop) :
  (∀ v, objs w !! this = Some v → Q v w) → wlp (self this) w Q.
Proof. unfold wlp, self. destruct (objs w !! this); naive_solver. Qed.

Lemma wp_set_self this v v0 w Q :
  objs w !! this = Some v0 →
  Q tt (World (<[this := v]> (objs w)) (blocks w) (avail w) (trace w)) →
  wp (set_self this v) w Q.
Proof. unfold wp, set_self. by intros ->. Qed.

Lemma wlp_set_self this v w Q :
  (∀ v0, objs w !! this = Some v0 →
     Q tt (World (<[this := v]> (objs w)) (blocks w) (avail w) (trace w))) →
  wlp (set_self this v) w Q.
Proof. unfold wlp, set_self. destruct (objs w !! this); naive_solver. Qed.

Lemma wp_begin_lifetime this v w Q :
  objs w !! this = None →
  Q tt (World (<[this := v]> (objs w)) (blocks w) (avail w) (trace w)) →
  wp (begin_lifetime this v) w Q.
Proof. unfold wp, begin_lifetime. by intros ->. Qed.

Lemma wlp_begin_lifetime this v w Q :
  (objs w !! this = None →
     Q tt (World (<[this := v]> (objs w)) (blocks w) (avail w) (trace w))) →
  wlp (begin_lifetime this v) w Q.
Proof. unfold wlp, begin_lifetime. destruct (objs w !! this); naive_solver. Qed.

Lemma fresh_block w :
  let p := fresh ({[nullptr]} ∪ dom (blocks w)) in
  p ≠ nullptr ∧ blocks w !! p = None.
Proof.
  intros p. pose proof (is_fresh ({[nullptr]} ∪ dom (blocks w))) as Hp.
  fold p in Hp. split.
  - intros E. apply Hp. rewrite E. set_solver.
  - apply not_elem_of_dom. set_solver.
Qed.

Lemma wlp_allocate n w (Q : Z → world T → Prop) :
  (∀ p, p ≠ nullptr → blocks w !! p = None →
     wrap (n * sizeof_T) ≤ avail w →
     Q p (World (objs w)
            (<[p := Block (wrap (n * sizeof_T)) alignof_T
                      (replicate (Z.to_nat (wrap (n * sizeof_T) / sizeof_T)) None)]> (blocks w))
            (avail w - wrap (n * sizeof_T))
            (trace w ++ [EvNew p (wrap (n * sizeof_T)) alignof_T]))) →
  wlp (allocate n) w Q.
Proof.
  intros HQ. unfold wlp, allocate, operator_new.
  destruct (Z.leb_spec (wrap (n * sizeof_T)) (avail w)); [|done].
  destruct (fresh_block w). by apply HQ.
Qed.

Lemma wp_allocate n w (Q : Z → world T → Prop) :
  0 ≤ n → n * sizeof_T < size_t_modulus → n * sizeof_T ≤ avail w →
  (∀ p, p ≠ nullptr → blocks w !! p = None →
     Q p (World (objs w)
            (<[p := Block (n * sizeof_T) alignof_T (replicate (Z.to_nat n) None)]> (blocks w))
            (avail w - n * sizeof_T)
            (trace w ++ [EvNew p (n * sizeof_T) alignof_T]))) →
  wp (allocate n) w Q.
Proof.
  intros Hn Hsmall Havail HQ. pose proof sizeof_T_pos as Hs.
  unfold wp, allocate, operator_new.
  rewrite wrap_small by nia.
  destruct (Z.leb_spec (n * sizeof_T) (avail w)); [|lia].
  rewrite Z.div_mul by lia.
  destruct (fresh_block w). by apply HQ.
Qed.

Lemma wlp_deallocate p n w Q :
  (p = nullptr → Q tt w) →
  (∀ b, p ≠ nullptr → blocks w !! p = Some b →
     Q tt (World (objs w) (delete p (blocks w)) (avail w + blk_bytes b)
             (trace w ++ [EvDelete p (wrap (n * sizeof_T)) alignof_T]))) →
  wlp (deallocate p n) w Q.
Proof.
  intros Hnull Hblock. unfold wlp, deallocate, operator_delete.
  destruct (decide (p = nullptr)); [by apply Hnull|].
  destruct (blocks w !! p) eqn:E; [by apply Hblock | done].
Qed.

Lemma wp_deallocate p n w Q :
  (p = nullptr → Q tt w) →
  (∀ b, p ≠ nullptr → blocks w !! p = Some b →
     Q tt (World (objs w) (delete p (blocks w)) (avail w + blk_bytes b)
             (trace w ++ [EvDelete p (wrap (n * sizeof_T)) alignof_T]))) →
  p = nullptr ∨ is_Some (blocks w !! p) →
  wp (deallocate p n) w Q.
Proof.
  intros Hnull Hblock Hp. unfold wp, deallocate, operator_delete.
  destruct (decide (p = nullptr)); [by apply Hnull|].
  destruct Hp as [?|[b Hb]]; [done|]. rewrite Hb. by apply Hblock.
Qed.

(** the world after a store into slot [n] of the block [b] at [p] *)
Lemma store_cell_changed p b n c w :
  blocks w !! p = Some b →
  cells_changed (λ r, r = p) w
    (World (objs w)
       (<[p := Block (blk_bytes b) (blk_align b) (<[n := c]> (blk_cells b))]> (blocks w))
       (avail w) (trace w)).
Proof.
  intros Hb. unfold cells_changed, shape; cbn. repeat split.
  - rewrite fmap_insert; cbn. rewrite length_insert.
    apply insert_id. by rewrite lookup_fmap, Hb.
  - intros r Hr. by rewrite lookup_insert_ne by congruence.
Qed.

Lemma wlp_with_cell {A} p i (k : block T → nat → option T → M T A) w (Q : A → world T → Prop) :
  (∀ b c, blocks w !! p = Some b → 0 ≤ i →
     blk_cells b !! Z.to_nat i = Some c → wlp (k b (Z.to_nat i) c) w Q) →
  wlp (with_cell p i k) w Q.
Proof.
  intros HQ. unfold wlp, with_cell.
  destruct (blocks w !! p) as [b|] eqn:Hb; [|done].
  destruct (decide (0 ≤ i)); [|done].
  destruct (blk_cells b !! Z.to_nat i) as [c|] eqn:Hc; [|done].
  by apply HQ.
Qed.

Lemma wp_with_cell {A} p i b c (k : block T → nat → option T → M T A) w (Q : A → world T → Prop) :
  blocks w !! p = Some b → 0 ≤ i →
  blk_cells b !! Z.to_nat i = Some c →
  wp (k b (Z.to_nat i) c) w Q →
  wp (with_cell p i k) w Q.
Proof.
  intros Hb Hi Hc. unfold wp at 2, with_cell. rewrite Hb.
  destruct (decide (0 ≤ i)); [|done]. by rewrite Hc.
Qed.

Lemma wp_construct_at p i v b c w Q :
  blocks w !! p = Some b → 0 ≤ i →
  blk_cells b !! Z.to_nat i = Some c →
  Q tt (World (objs w)
          (<[p := Block (blk_bytes b) (blk_align b) (<[Z.to_nat i := Some v]> (blk_cells b))]> (blocks w))
          (avail w) (trace w)) →
  wp (construct_at p i v) w Q.
Proof. intros. by eapply wp_with_cell. Qed.

Lemma wp_load p i v b w (Q : T → world T → Prop) :
  blocks w !! p = Some b → 0 ≤ i →
  blk_cells b !! Z.to_nat i = Some (Some v) →
  Q v w →
  wp (load p i) w Q.
Proof. intros. by eapply wp_with_cell. Qed.

Lemma wp_move_out p i v b w (Q : T → world T → Prop) :
  blocks w !! p = Some b → 0 ≤ i →
  blk_cells b !! Z.to_nat i = Some (Some v) →
  Q v (World (objs w)
         (<[p := Block (blk_bytes b) (blk_align b)
                   (<[Z.to_nat i := Some (moved_from v)]> (blk_cells b))]> (blocks w))
         (avail w) (trace w)) →
  wp (move_out p i) w Q.
Proof. intros. by eapply wp_with_cell. Qed.

Lemma wp_assign_at p i v v0 b w Q :
  blocks w !! p = Some b → 0 ≤ i →
  blk_cells b !! Z.to_nat i = Some (Some v0) →
  Q tt (World (objs w)
          (<[p := Block (blk_bytes b) (blk_align b) (<[Z.to_nat i := Some v]> (blk_cells b))]> (blocks w))
          (avail w) (trace w)) →
  wp (assign_at p i v) w Q.
Proof. intros. by eapply wp_with_cell. Qed.

Lemma wp_destroy_at p i v0 b w Q :
  blocks w !! p = Some b → 0 ≤ i →
  blk_cells b !! Z.to_nat i = Some (Some v0) →
  Q tt (World (objs w)
          (<[p := Block (blk_bytes b) (blk_align b) (<[Z.to_nat i := None]> (blk_cells b))]> (blocks w))
          (avail w) (trace w)) →
  wp (destroy_at p i) w Q.
Proof. intros. by eapply wp_with_cell. Qed.

(** what a completed access to slot [p[i]] tells, whatever the access *)
Lemma wlp_construct_at p i v w Q :
  (∀ b w', blocks w !! p = Some b → 0 ≤ i →
     (Z.to_nat i < length (blk_cells b))%nat →
     cells_changed (λ r, r = p) w w' → Q tt w') →
  wlp (construct_at p i v) w Q.
Proof.
  intros HQ. apply wlp_with_cell. intros b c Hb Hi Hc.
  unfold wlp, store_cell. eapply HQ; eauto using store_cell_changed.
  by eapply lookup_lt_Some.
Qed.

Lemma wlp_load p i w (Q : T → world T → Prop) :
  (∀ v, Q v w) → wlp (load p i) w Q.
Proof.
  intros HQ. apply wlp_with_cell. intros b [v|] Hb Hi Hc; [|done]. apply HQ.
Qed.

Lemma wlp_move_out p i w (Q : T → world T → Prop) :
  (∀ v w', cells_changed (λ r, r = p) w w' → Q v w') →
  wlp (move_out p i) w Q.
Proof.
  intros HQ. apply wlp_with_cell. intros b [v|] Hb Hi Hc; [|done].
  unfold wlp; cbn. apply HQ. by apply store_cell_changed.
Qed.

Lemma wlp_assign_at p i v w Q :
  (∀ w', cells_changed (λ r, r = p) w w' → Q tt w') →
  wlp (assign_at p i v) w Q.
Proof.
  intros HQ. apply wlp_with_cell. intros b [v0|] Hb Hi Hc; [|done].
  unfold wlp; cbn. apply HQ. by apply store_cell_changed.
Qed.

Lemma wlp_destroy_at p i w Q :
  (∀ w', cells_changed (λ r, r = p) w w' → Q tt w') →
  wlp (destroy_at p i) w Q.
Proof.
  intros HQ. apply wlp_with_cell. intros b [v0|] Hb Hi Hc; [|done].
  unfold wlp; cbn. apply HQ. by apply store_cell_changed.
Qed.

End Primitives.

(** ** What a completed member call has done, with no assumption on the
    state it started from *)

Section Frames.

Context {T : Type} `{ElemTraits T}.

Implicit Types w : world T.
Implicit Types Q : unit → world T → Prop.

Lemma kept_refl P w : kept P w w.
Proof. by unfold kept. Qed.

Lemma kept_trans P w1 w2 w3 : kept P w1 w2 → kept P w2 w3 → kept P w1 w3.
Proof. unfold kept. intros [H12 N12] [H23 N23]. split; eauto. Qed.

Lemma kept_weaken (P P' : Z → Prop) w w' :
  (∀ r, P r → P' r) → kept P w w' → kept P' w w'.
Proof.
  unfold kept. intros HP [Hk Hn]. split; [|done].
  intros r b Hr. apply Hk. intros ?. apply Hr. by apply HP.
Qed.

Lemma kept_same_blocks P w w1 w2 :
  blocks w2 = blocks w1 → kept P w w1 → kept P w w2.
Proof. unfold kept. by intros ->. Qed.

Lemma kept_shrink (P : Z → Prop) q w w' :
  blocks w !! q = None → kept (λ r, P r ∨ r = q) w w' → kept P w w'.
Proof.
  unfold kept. intros Hq [Hk Hn]. split; [|done].
  intros r b Hr Hb. apply Hk; [|done]. intros [?| ->]; [done | congruence].
Qed.

Lemma shape_lookup w r :
  shape w !! r = (λ b, (blk_bytes b, blk_align b, length (blk_cells b))) <$> blocks w !! r.
Proof. unfold shape. by rewrite lookup_fmap. Qed.

Lemma shape_None w r : shape w !! r = None ↔ blocks w !! r = None.
Proof. rewrite shape_lookup. by rewrite fmap_None. Qed.

Lemma shape_deleted w w' p :
  blocks w' = delete p (blocks w) → shape w' = delete p (shape w).
Proof. unfold shape. intros ->. apply fmap_delete. Qed.

Lemma shape_inserted w w' p b :
  blocks w' = <[p := b]> (blocks w) →
  shape w' = <[p := (blk_bytes b, blk_align b, length (blk_cells b))]> (shape w).
Proof. unfold shape. intros ->. by rewrite fmap_insert. Qed.

Lemma cells_changed_kept P w w' : cells_changed P w w' → kept P w w'.
Proof.
  intros (_&_&_&Hs&Hb). split.
  - intros r b Hr Hrb. by rewrite Hb.
  - intros Hn. apply shape_None. rewrite Hs. by apply shape_None.
Qed.

Lemma cells_changed_is_Some P w w' r :
  cells_changed P w w' → is_Some (blocks w !! r) → is_Some (blocks w' !! r).
Proof.
  intros (_&_&_&Hs&_) Hr.
  destruct (blocks w' !! r) eqn:E; [done|].
  apply shape_None in E. rewrite Hs in E. apply shape_None in E.
  rewrite E in Hr. by destruct Hr.
Qed.

Lemma wlp_nuke this w Q :
  (∀ v w', objs w !! this = Some v →
     cells_changed (λ r, r = m_Data v) w w' → Q tt w') →
  wlp (nuke this) w Q.
Proof.
  intros HQ. unfold nuke. apply wlp_bind, wlp_self. intros v Hv.
  unfold for_upto. eapply wlp_mono.
  - apply (wlp_for_from (cells_changed (λ r, r = m_Data v) w)).
    + apply cells_changed_refl.
    + intros j w1 _ Hw1. apply wlp_destroy_at. intros w2 Hw2.
      by eapply cells_changed_trans.
  - intros [] w'. by apply HQ.
Qed.

(** the two transfer loops of [grow] *)
Lemma wlp_transfer (fetch : Z → Z → M T T) p q n w Q :
  (∀ i w1 (Q1 : T → world T → Prop),
     (∀ v w2, cells_changed (λ r, r = p) w1 w2 → Q1 v w2) → wlp (fetch p i) w1 Q1) →
  (∀ w', cells_changed (λ r, r = p ∨ r = q) w w' → Q tt w') →
  wlp (for_upto n (λ i, x ← fetch p i; construct_at q i x)) w Q.
Proof.
  intros Hfetch HQ. unfold for_upto. eapply wlp_mono.
  - apply (wlp_for_from (cells_changed (λ r, r = p ∨ r = q) w)).
    + apply cells_changed_refl.
    + intros j w1 _ Hw1. apply wlp_bind, Hfetch. intros v w2 Hw2.
      apply wlp_construct_at. intros b w3 _ _ _ Hw3.
      eapply cells_changed_trans; [done|].
      apply (cells_changed_trans _ w1 w2 w3).
      * eapply cells_changed_weaken; [|exact Hw2]. intros; by left.
      * eapply cells_changed_weaken; [|exact Hw3]. intros; by right.
  - intros [] w'. by apply HQ.
Qed.

Lemma wlp_grow this w Q :
  (∀ v q w',
     objs w !! this = Some v →
     let newCapacity := new_capacity (m_Capacity v) in
     q ≠ nullptr → blocks w !! q = None →
     objs w' = <[this := Vec q (m_Size v) newCapacity]> (objs w) →
     (∀ x, shape w' !! q = Some x → x = allocated_shape newCapacity) →
     kept (λ r, r = m_Data v) w w' →
     Q tt w') →
  wlp (grow this) w Q.
Proof.
  intros HQ. unfold grow. apply wlp_bind, wlp_self. intros v Hv.
  cbn zeta. set (newCapacity := new_capacity (m_Capacity v)).
  apply wlp_bind, wlp_allocate. intros q Hq0 Hq _.
  set (w1 := World _ _ _ _).
  assert (Hk1 : kept (λ r, r = m_Data v ∨ r = q) w w1).
  { split; cbn.
    - intros r b Hr Hb. rewrite lookup_insert_ne; [done|]. naive_solver.
    - intros Hn. by rewrite lookup_insert_ne. }
  assert (Hs1 : shape w1 !! q = Some (allocated_shape newCapacity)).
  { erewrite shape_inserted by done. rewrite lookup_insert_eq. cbn.
    by rewrite length_replicate. }
  apply wlp_bind.
  assert (Hloop : ∀ fetch,
    (∀ i w1 (Q1 : T → world T → Prop),
       (∀ x w2, cells_changed (λ r, r = m_Data v) w1 w2 → Q1 x w2) →
       wlp (fetch (m_Data v) i) w1 Q1) →
    wlp (for_upto (m_Size v) (λ i, x ← fetch (m_Data v) i; construct_at q i x)) w1
      (λ _ w2, wlp (nuke this ;; deallocate (m_Data v) (m_Capacity v) ;;
                    v0 ← self this; set_self this (Vec q (m_Size v0) newCapacity)) w2 Q)).
  { intros fetch Hfetch. apply wlp_transfer; [done|]. intros w2 Hw2.
    apply wlp_bind, wlp_nuke. intros v2 w3 Hv2 Hw3.
    assert (v2 = v) as ->.
    { destruct Hw2 as (Ho&_). rewrite Ho in Hv2. cbn in Hv2. congruence. }
    assert (Hc3 : cells_changed (λ r, r = m_Data v ∨ r = q) w1 w3).
    { eapply cells_changed_trans; [done|].
      eapply cells_changed_weaken; [|exact Hw3]. intros; by left. }
    assert (Ho3 : objs w3 = objs w) by (destruct Hc3 as (->&_); done).
    assert (Hs3 : shape w3 = shape w1) by (by destruct Hc3 as (_&_&_&?&_)).
    assert (Hk3 : kept (λ r, r = m_Data v ∨ r = q) w w3).
    { eapply kept_trans; [done|]. by apply cells_changed_kept. }
    apply wlp_bind, wlp_deallocate.
    - intros Hnull. apply wlp_bind, wlp_self. intros v3 Hv3.
      rewrite Ho3 in Hv3. assert (v3 = v) as -> by congruence.
      apply wlp_set_self. intros ? _. apply (HQ v q); try done.
      + cbn. by rewrite Ho3.
      + intros x Hx. change (shape w3 !! q = Some x) in Hx.
        rewrite Hs3, Hs1 in Hx. by injection Hx as <-.
      + eapply kept_shrink; [done|]. destruct Hk3 as [Hk Hn]. by split.
    - intros b Hp Hb. apply wlp_bind, wlp_self. cbn. intros v3 Hv3.
      rewrite Ho3 in Hv3. assert (v3 = v) as -> by congruence.
      apply wlp_set_self. intros ? _. apply (HQ v q); try done.
      + cbn. by rewrite Ho3.
      + intros x. rewrite (shape_deleted w3 _ (m_Data v)) by done.
        rewrite lookup_delete. case_decide; [done|].
        rewrite Hs3, Hs1. by intros [= <-].
      + eapply kept_shrink; [done|]. destruct Hk3 as [Hk Hn]. split; cbn.
        * intros r b' Hr Hb'. rewrite lookup_delete_ne by naive_solver. by apply Hk.
        * intros Hn0. rewrite lookup_delete_ne by done. by apply Hn. }
  destruct is_nothrow_move_constructible.
  - apply (Hloop move_out). intros. by apply wlp_move_out.
  - apply (Hloop load). intros i w2 Q1 HQ1. apply wlp_load. intros x.
    apply HQ1, cells_changed_refl.
Qed.

Lemma allocated_slots_le n : 0 ≤ n → Z.of_nat (snd (allocated_shape n)) ≤ n.
Proof.
  intros Hn. pose proof sizeof_T_pos as Hs. unfold allocated_shape; cbn.
  pose proof (wrap_bounds (n * sizeof_T)) as [Hw0 _].
  pose proof (wrap_le (n * sizeof_T)) as Hwle.
  rewrite Z2Nat.id by (apply Z.div_pos; lia).
  apply Z.div_le_upper_bound; [lia|]. nia.
Qed.

Lemma new_capacity_nonneg cap : 0 ≤ new_capacity cap.
Proof.
  unfold new_capacity, initialCapacity. destruct (0 <? cap); [|lia].
  apply wrap_bounds.
Qed.

Lemma wlp_push_back this x w Q :
  (∀ v v' w',
     objs w !! this = Some v →
     objs w' = <[this := v']> (objs w) →
     kept (λ r, r = m_Data v) w w' →
     m_Size v' = wrap (m_Size v + 1) →
     (m_Size v ≠ m_Capacity v ∧ m_Data v' = m_Data v ∧ m_Capacity v' = m_Capacity v) ∨
     (m_Size v = m_Capacity v ∧ m_Data v' ≠ nullptr ∧
      m_Capacity v' = new_capacity (m_Capacity v) ∧
      0 ≤ m_Size v ∧ m_Size v + 1 ≤ m_Capacity v') →
     Q tt w') →
  wlp (push_back this x) w Q.
Proof.
  intros HQ. unfold push_back. apply wlp_bind, wlp_self. intros v Hv.
  apply wlp_bind. destruct (decide (m_Size v = m_Capacity v)) as [Hfull|Hroom].
  - apply wlp_grow. intros v0 q w1 Hv0 nc Hq0 Hq Ho1 Hs1 Hk1.
    assert (v0 = v) as -> by congruence.
    apply wlp_bind, wlp_self. intros v1 Hv1.
    rewrite Ho1, lookup_insert_eq in Hv1. injection Hv1 as <-. cbn.
    apply wlp_bind, wlp_construct_at. intros b w2 Hb Hi Hlt Hw2.
    apply wlp_set_self. intros ? _.
    assert (Hslots : m_Size v + 1 ≤ nc).
    { specialize (Hs1 (blk_bytes b, blk_align b, length (blk_cells b))).
      rewrite shape_lookup, Hb in Hs1. specialize (Hs1 eq_refl).
      pose proof (allocated_slots_le nc (new_capacity_nonneg _)) as Hle.
      rewrite <- Hs1 in Hle. cbn in Hle. lia. }
    apply (HQ v (Vec q (wrap (m_Size v + 1)) nc)); try done.
    + cbn. destruct Hw2 as (->&_). by rewrite Ho1, insert_insert_eq.
    + eapply kept_shrink; [exact Hq|].
      apply (kept_same_blocks _ _ w2); [done|].
      eapply kept_trans.
      * eapply kept_weaken; [|exact Hk1]. intros; by left.
      * apply cells_changed_kept.
        eapply cells_changed_weaken; [|exact Hw2]. intros; by right.
    + right. by cbn.
  - apply wlp_ret. apply wlp_bind, wlp_self. intros v1 Hv1.
    assert (v1 = v) as -> by congruence.
    apply wlp_bind, wlp_construct_at. intros b w2 Hb Hi Hlt Hw2.
    apply wlp_set_self. intros ? _.
    apply (HQ v (Vec (m_Data v) (wrap (m_Size v + 1)) (m_Capacity v))); try done.
    + cbn. by destruct Hw2 as (->&_).
    + apply (kept_same_blocks _ _ w2); [done|]. by apply cells_changed_kept.
    + by left.
Qed.

Lemma wlp_pop_back this w Q :
  (∀ v w',
     objs w !! this = Some v →
     m_Size v ≠ 0 →
     objs w' = <[this := Vec (m_Data v) (wrap (m_Size v - 1)) (m_Capacity v)]> (objs w) →
     kept (λ r, r = m_Data v) w w' →
     Q tt w') →
  wlp (pop_back this) w Q.
Proof.
  intros HQ. unfold pop_back. apply wlp_bind, wlp_self. intros v Hv.
  destruct (decide (m_Size v = 0)); [done|].
  apply wlp_bind, wlp_set_self. intros ? _.
  apply wlp_destroy_at. intros w' Hw'. apply (HQ v); try done.
  - by destruct Hw' as (->&_).
  - destruct (cells_changed_kept _ _ _ Hw') as [Hk Hn]. by split.
Qed.

Lemma wlp_clear this w Q :
  (∀ v w', objs w !! this = Some v →
     cells_changed (λ r, r = m_Data v) w w' → Q tt w') →
  wlp (clear this) w Q.
Proof. apply wlp_nuke. Qed.

Lemma wlp_subscript_assign this i x w Q :
  (∀ v w', objs w !! this = Some v →
     cells_changed (λ r, r = m_Data v) w w' → Q tt w') →
  wlp (subscript_assign this i x) w Q.
Proof.
  intros HQ. unfold subscript_assign. apply wlp_bind, wlp_self. intros v Hv.
  destruct (decide (i < m_Size v)); [|done].
  apply wlp_assign_at. intros w'. by apply HQ.
Qed.

(** the loop of [reserve] completes only when it has no round to run *)
Lemma wlp_reserve_loop counter q n w Q :
  (Z.to_nat n = O → Q tt w) →
  wlp (for_upto n (λ i, x ← subscript_of_size_t (T:=T) counter i; construct_at q i x)) w Q.
Proof.
  intros HQ. unfold for_upto. destruct (Z.to_nat n); [by apply HQ | done].
Qed.

Lemma wlp_reserve this p_Capacity w Q :
  (∀ v, objs w !! this = Some v → p_Capacity ≤ m_Capacity v → Q tt w) →
  (∀ v q w',
     objs w !! this = Some v →
     m_Capacity v < p_Capacity →
     Z.to_nat (m_Size v) = O →
     q ≠ nullptr →
     objs w' = <[this := Vec q (m_Size v) p_Capacity]> (objs w) →
     kept (λ r, r = m_Data v) w w' →
     Q tt w') →
  wlp (reserve this p_Capacity) w Q.
Proof.
  intros Hnop HQ. unfold reserve. apply wlp_bind, wlp_self. intros v Hv.
  destruct (decide (p_Capacity ≤ m_Capacity v)); [by eapply Hnop|].
  apply wlp_bind, wlp_allocate. intros q Hq0 Hq _.
  set (w1 := World _ _ _ _).
  assert (Hk1 : kept (λ r, r = m_Data v ∨ r = q) w w1).
  { split; cbn.
    - intros r b Hr Hb. rewrite lookup_insert_ne; [done|]. naive_solver.
    - intros Hn. by rewrite lookup_insert_ne. }
  apply wlp_bind, wlp_reserve_loop. intros Hsize.
  apply wlp_bind, wlp_nuke. intros v2 w3 Hv2 Hw3.
  assert (v2 = v) as -> by (cbn in Hv2; congruence).
  assert (Ho3 : objs w3 = objs w) by (destruct Hw3 as (->&_); done).
  assert (Hk3 : kept (λ r, r = m_Data v ∨ r = q) w w3).
  { eapply kept_trans; [done|]. apply cells_changed_kept.
    eapply cells_changed_weaken; [|exact Hw3]. intros; by left. }
  apply wlp_bind.
  assert (Hend : ∀ w4, objs w4 = objs w →
                 kept (λ r, r = m_Data v ∨ r = q) w w4 →
                 wlp (v0 ← self this; set_self this (Vec q (m_Size v0) p_Capacity)) w4 Q).
  { intros w4 Ho4 Hk4. apply wlp_bind, wlp_self. intros v4 Hv4.
    rewrite Ho4 in Hv4. assert (v4 = v) as -> by congruence.
    apply wlp_set_self. intros ? _. apply (HQ v q); try done; [lia| |].
    - cbn. by rewrite Ho4.
    - eapply kept_shrink; [exact Hq|]. destruct Hk4 as [Hk Hn]. by split. }
  destruct (decide (m_Data v ≠ nullptr)).
  - apply wlp_deallocate; [done|]. intros b _ Hb. apply Hend; [done|].
    destruct Hk3 as [Hk Hn]. split; cbn.
    + intros r b' Hr Hb'. rewrite lookup_delete_ne by naive_solver. by apply Hk.
    + intros Hn0. rewrite lookup_delete_ne by done. by apply Hn.
  - apply wlp_ret. by apply Hend.
Qed.

Lemma keeps_invariants_refl v : keeps_invariants v v.
Proof. by unfold keeps_invariants. Qed.

Lemma wlp_mutate this m w Q :
  (∀ v v' w',
     objs w !! this = Some v →
     objs w' = <[this := v']> (objs w) →
     kept (λ r, r = m_Data v) w w' →
     keeps_invariants v v' →
     Q tt w') →
  wlp (mutate this m) w Q.
Proof.
  intros HQ. destruct m as [x| | |n|i x]; cbn [mutate].
  - apply wlp_push_back. intros v v' w' Hv Ho Hk Hsz Hcase.
    apply (HQ v v'); try done.
    unfold keeps_invariants, size_within_capacity, capacity_has_storage,
      storage_iff_capacity.
    pose proof (wrap_bounds (m_Size v + 1)) as [Hw0 _].
    destruct Hcase as [(Hne & Hd & Hc)|(Hfull & Hd & Hc & Hs0 & Hle)].
    + rewrite Hsz, Hd, Hc. split_and!; try done.
      intros [? ?]. pose proof (wrap_le (m_Size v + 1)). lia.
    + pose proof (wrap_le (m_Size v + 1)).
      rewrite Hsz. split_and!; intros; try done; lia.
  - apply wlp_pop_back. intros v w' Hv Hnz Ho Hk.
    apply (HQ v (Vec (m_Data v) (wrap (m_Size v - 1)) (m_Capacity v)) w'); try done.
    unfold keeps_invariants, size_within_capacity, capacity_has_storage,
      storage_iff_capacity; cbn.
    pose proof (wrap_bounds (m_Size v - 1)) as [Hw0 _].
    split_and!; try done.
    intros [? ?]. pose proof (wrap_le (m_Size v - 1)). lia.
  - apply wlp_clear. intros v w' Hv Hc. apply (HQ v v w').
    + done.
    + destruct Hc as (->&_). by rewrite insert_id.
    + by apply cells_changed_kept.
    + apply keeps_invariants_refl.
  - apply wlp_reserve.
    + intros v Hv _. apply (HQ v v w).
      * done.
      * by rewrite insert_id.
      * apply kept_refl.
      * apply keeps_invariants_refl.
    + intros v q w' Hv Hlt Hsz Hq Ho Hk.
      apply (HQ v (Vec q (m_Size v) n) w'); try done.
      unfold keeps_invariants, size_within_capacity, capacity_has_storage,
        storage_iff_capacity; cbn.
      split_and!; intros; try done; lia.
  - apply wlp_subscript_assign. intros v w' Hv Hc. apply (HQ v v w').
    + done.
    + destruct Hc as (->&_). by rewrite insert_id.
    + by apply cells_changed_kept.
    + apply keeps_invariants_refl.
Qed.

Lemma wlp_default_ctor this w Q :
  (∀ w', objs w !! this = None →
     objs w' = <[this := Vec nullptr 0 0]> (objs w) →
     blocks w' = blocks w → Q tt w') →
  wlp (default_ctor this) w Q.
Proof. intros HQ. apply wlp_begin_lifetime. intros Hn. by apply HQ. Qed.

Lemma wlp_copy_ctor this other w Q :
  (∀ o q w',
     objs w !! other = Some o → objs w !! this = None →
     q ≠ nullptr → blocks w !! q = None →
     objs w' = <[this := Vec q (m_Size o) (m_Capacity o)]> (objs w) →
     kept (λ r, r = m_Data o) w w' →
     Q tt w') →
  wlp (copy_ctor this other) w Q.
Proof.
  intros HQ. unfold copy_ctor. apply wlp_bind, wlp_self. intros o Ho.
  apply wlp_bind, wlp_allocate. intros q Hq0 Hq _.
  apply wlp_bind, wlp_begin_lifetime. cbn. intros Hnew.
  set (w2 := World _ _ _ _).
  apply wlp_transfer.
  { intros i w1 Q1 HQ1. apply wlp_load. intros x. apply HQ1, cells_changed_refl. }
  intros w3 Hc3. apply (HQ o q); try done.
  - by destruct Hc3 as (->&_).
  - eapply kept_shrink; [exact Hq|].
    eapply kept_trans; [|by apply cells_changed_kept].
    split; cbn.
    + intros r b Hr Hb. rewrite lookup_insert_ne; [done|]. naive_solver.
    + intros Hn. by rewrite lookup_insert_ne.
Qed.

Lemma wlp_move_ctor this other w Q :
  (∀ o w',
     objs w !! other = Some o → objs w !! this = None →
     objs w' = <[other := Vec nullptr 0 0]> (<[this := o]> (objs w)) →
     blocks w' = blocks w → Q tt w') →
  wlp (move_ctor this other) w Q.
Proof.
  intros HQ. unfold move_ctor. apply wlp_bind, wlp_self. intros o Ho.
  apply wlp_bind, wlp_begin_lifetime. cbn. intros Hnew.
  apply wlp_set_self. cbn. intros ? _. apply (HQ o); try done. cbn. by destruct o.
Qed.

Lemma wlp_move_assign this other w Q :
  (this = other → Q tt w) →
  (∀ v o w',
     this ≠ other →
     objs w !! this = Some v → objs w !! other = Some o →
     objs w' = <[other := Vec nullptr 0 0]> (<[this := o]> (objs w)) →
     kept (λ r, r = m_Data v) w w' →
     Q tt w') →
  wlp (move_assign this other) w Q.
Proof.
  intros Hself HQ. unfold move_assign.
  destruct (decide (this ≠ other)) as [Hne|Heq].
  2: { apply Hself. by destruct (decide (this = other)). }
  apply wlp_bind, wlp_nuke. intros v w1 Hv Hc1.
  assert (Ho1 : objs w1 = objs w) by (by destruct Hc1 as (->&_)).
  apply wlp_bind, wlp_self. intros v1 Hv1. rewrite Ho1 in Hv1.
  assert (v1 = v) as -> by congruence.
  assert (Hend : ∀ w2, objs w2 = objs w → kept (λ r, r = m_Data v) w w2 →
    wlp (o ← self other;
         set_self this (Vec (m_Data o) (m_Size o) (m_Capacity o)) ;;
         set_self other (Vec nullptr 0 0)) w2 Q).
  { intros w2 Ho2 Hk2. apply wlp_bind, wlp_self. intros o Ho. rewrite Ho2 in Ho.
    apply wlp_bind, wlp_set_self. intros ? _.
    apply wlp_set_self. cbn. intros ? _. apply (HQ v o); try done.
    cbn. rewrite Ho2. by destruct o. }
  apply wlp_bind. destruct (decide (m_Data v ≠ nullptr)).
  - apply wlp_deallocate; [done|]. intros b _ Hb. apply Hend; [done|].
    destruct (cells_changed_kept _ _ _ Hc1) as [Hk Hn]. split; cbn.
    + intros r br Hr Hbr. rewrite lookup_delete_ne by congruence. by apply Hk.
    + intros Hn0. rewrite lookup_delete_ne by done. by apply Hn.
  - apply wlp_ret. apply Hend; [done|]. by apply cells_changed_kept.
Qed.

Lemma wlp_dtor this w Q :
  (∀ v w',
     objs w !! this = Some v →
     objs w' = delete this (objs w) →
     kept (λ r, r = m_Data v) w w' →
     Q tt w') →
  wlp (dtor this) w Q.
Proof.
  intros HQ. unfold dtor. apply wlp_bind, wlp_nuke. intros v w1 Hv Hc1.
  assert (Ho1 : objs w1 = objs w) by (by destruct Hc1 as (->&_)).
  apply wlp_bind, wlp_self. intros v1 Hv1. rewrite Ho1 in Hv1.
  assert (v1 = v) as -> by congruence.
  apply wlp_bind. destruct (decide (m_Data v ≠ nullptr)).
  - apply wlp_deallocate; [done|]. intros b _ Hb.
    unfold wlp, end_lifetime. apply (HQ v); try done; cbn.
    + by rewrite Ho1.
    + destruct (cells_changed_kept _ _ _ Hc1) as [Hk Hn]. split; cbn.
      * intros r br Hr Hbr. rewrite lookup_delete_ne by congruence. by apply Hk.
      * intros Hn0. rewrite lookup_delete_ne by done. by apply Hn.
  - apply wlp_ret. unfold wlp, end_lifetime. apply (HQ v); try done; cbn.
    + by rewrite Ho1.
    + destruct (cells_changed_kept _ _ _ Hc1) as [Hk Hn]. by split.
Qed.

End Frames.

(** ** Member calls on a vector that holds live elements *)

Section Forward.

Context {T : Type} `{ElemTraits T}.

Implicit Types w : world T.
Implicit Types xs : list T.
Implicit Types cs : list (option T).

Lemma take_live cs xs :
  take (length xs) cs = Some <$> xs ↔
  ∀ i x, xs !! i = Some x → cs !! i = Some (Some x).
Proof.
  split.
  - intros Ht i x Hx.
    pose proof (lookup_lt_Some _ _ _ Hx) as Hi.
    rewrite <- (lookup_take_lt cs (length xs) i) by done.
    by rewrite Ht, list_lookup_fmap, Hx.
  - intros Hl. apply list_eq. intros i. rewrite list_lookup_fmap.
    destruct (xs !! i) as [x|] eqn:Hx.
    + rewrite lookup_take_lt by (by eapply lookup_lt_Some). by apply Hl.
    + apply lookup_take_ge. by apply lookup_ge_None.
Qed.

Lemma cells_changed_block P w w' r b :
  cells_changed P w w' → blocks w !! r = Some b →
  ∃ b', blocks w' !! r = Some b' ∧ blk_bytes b' = blk_bytes b ∧
        blk_align b' = blk_align b ∧ length (blk_cells b') = length (blk_cells b).
Proof.
  intros (_&_&_&Hs&_) Hb.
  assert (Hr : shape w' !! r = shape w !! r) by (by rewrite Hs).
  rewrite !shape_lookup, Hb in Hr.
  destruct (blocks w' !! r) as [b'|]; [|done].
  exists b'. cbn in Hr. by injection Hr as -> -> ->.
Qed.

Lemma wp_nuke this v w :
  objs w !! this = Some v →
  live_upto w (m_Data v) (Z.to_nat (m_Size v)) →
  wp (nuke this) w (λ _ w',
    cells_changed (λ r, r = m_Data v) w w' ∧
    ∀ j, 0 ≤ j < m_Size v → dead_at w' (m_Data v) j).
Proof.
  intros Hv Hlive. unfold nuke. apply wp_bind. eapply wp_self; [done|].
  unfold for_upto. set (p := m_Data v). set (n := Z.to_nat (m_Size v)).
  eapply wp_mono.
  - apply (wp_for_from (λ k w1,
      cells_changed (λ r, r = p) w w1 ∧
      (∀ j, (k ≤ j < n)%nat →
         ∃ b x, blocks w1 !! p = Some b ∧ blk_cells b !! j = Some (Some x)) ∧
      (∀ j, (j < k)%nat → dead_at w1 p (Z.of_nat j)))).
    + split; [apply cells_changed_refl|]. split; [|intros; lia].
      intros j Hj. apply Hlive. lia.
    + intros k w1 Hk (Hc & Hl & Hd). rewrite Z.add_0_l.
      destruct (Hl k) as (b & x & Hb & Hx); [lia|].
      eapply wp_destroy_at; [done | lia | by rewrite Nat2Z.id |].
      rewrite Nat2Z.id. set (w2 := World _ _ _ _).
      assert (Hc2 : cells_changed (λ r, r = p) w1 w2) by (by apply store_cell_changed).
      split; [by eapply cells_changed_trans|]. split.
      * intros j Hj. destruct (Hl j) as (b1 & y & Hb1 & Hy); [lia|].
        assert (b1 = b) as -> by congruence.
        eexists _, y. split; [apply lookup_insert_eq|]. cbn.
        rewrite list_lookup_insert_ne by lia. done.
      * intros j Hj. unfold dead_at. rewrite Nat2Z.id.
        eexists. split; [apply lookup_insert_eq|]. cbn.
        destruct (decide (j = k)) as [->|Hne].
        -- apply list_lookup_insert_eq. by eapply lookup_lt_Some.
        -- rewrite list_lookup_insert_ne by done.
           destruct (Hd j) as (b1 & Hb1 & Hdead); [lia|].
           rewrite Nat2Z.id in Hdead. congruence.
  - intros [] w' (Hc & _ & Hd). split; [done|].
    intros j Hj. replace j with (Z.of_nat (Z.to_nat j)) by lia.
    apply Hd. lia.
Qed.

Lemma load_fetches : fetches (λ v, v) load.
Proof.
  intros p i v b w Q Hb Hi Hc HQ. eapply wp_load; [done..|].
  apply (HQ w); [apply cells_changed_refl|].
  rewrite list_insert_id by done. by destruct b.
Qed.

Lemma move_out_fetches : fetches moved_from move_out.
Proof.
  intros p i v b w Q Hb Hi Hc HQ. eapply wp_move_out; [done..|].
  apply HQ; [by apply store_cell_changed|].
  cbn. apply lookup_insert_eq.
Qed.

Lemma wp_transfer residue fetch p q xs w bq :
  fetches residue fetch → p ≠ q →
  (∀ i x, xs !! i = Some x →
     ∃ b, blocks w !! p = Some b ∧ blk_cells b !! i = Some (Some x)) →
  blocks w !! q = Some bq →
  (length xs ≤ length (blk_cells bq))%nat →
  wp (for_upto (Z.of_nat (length xs)) (λ i, x ← fetch p i; construct_at q i x)) w
    (λ _ w',
       cells_changed (λ r, r = p ∨ r = q) w w' ∧
       (∀ i x, xs !! i = Some x →
          ∃ b, blocks w' !! p = Some b ∧ blk_cells b !! i = Some (Some (residue x))) ∧
       ∃ bq', blocks w' !! q = Some bq' ∧
              ∀ i x, xs !! i = Some x → blk_cells bq' !! i = Some (Some x)).
Proof.
  intros Hfetch Hpq Hsrc Hq Hlen. unfold for_upto. rewrite Nat2Z.id.
  set (n := length xs).
  eapply wp_mono.
  - apply (wp_for_from (λ k w1,
      cells_changed (λ r, r = p ∨ r = q) w w1 ∧
      (∀ i x, (i < k)%nat → xs !! i = Some x →
         ∃ b, blocks w1 !! p = Some b ∧ blk_cells b !! i = Some (Some (residue x))) ∧
      (∀ i x, (k ≤ i)%nat → xs !! i = Some x →
         ∃ b, blocks w1 !! p = Some b ∧ blk_cells b !! i = Some (Some x)) ∧
      (∃ bq', blocks w1 !! q = Some bq' ∧
         ∀ i x, (i < k)%nat → xs !! i = Some x → blk_cells bq' !! i = Some (Some x)))).
    + split; [apply cells_changed_refl|]. split; [|split].
      * intros; lia.
      * intros i x _. apply Hsrc.
      * exists bq. split; [done|]. intros; lia.
    + intros k w1 Hk (Hc & Hl & Hs & bq1 & Hq1 & Hdone). rewrite Z.add_0_l.
      destruct (lookup_lt_is_Some_2 xs k Hk) as [x Hx].
      destruct (Hs k x (le_n _) Hx) as (b & Hb & Hbx).
      apply wp_bind. eapply Hfetch; [done | lia | by rewrite Nat2Z.id |].
      rewrite Nat2Z.id. intros w2 Hc2 Hb2.
      assert (Hq2 : blocks w2 !! q = Some bq1).
      { destruct Hc2 as (_&_&_&_&Hfr). rewrite Hfr by done. done. }
      assert (Hlen1 : length (blk_cells bq1) = length (blk_cells bq)).
      { destruct (cells_changed_block _ _ _ _ _ Hc Hq) as (b' & Hb' & _ & _ & Hl').
        congruence. }
      destruct (lookup_lt_is_Some_2 (blk_cells bq1) k) as [c Hcq]; [lia|].
      eapply wp_construct_at; [done | lia | by rewrite Nat2Z.id |].
      rewrite Nat2Z.id. set (w3 := World _ _ _ _).
      assert (Hc3 : cells_changed (λ r, r = q) w2 w3) by (by apply store_cell_changed).
      assert (Hb3 : blocks w3 !! p = blocks w2 !! p).
      { cbn. by rewrite lookup_insert_ne. }
      split; [|split; [|split]].
      * eapply cells_changed_trans; [exact Hc|].
        apply (cells_changed_trans _ w1 w2 w3).
        -- eapply cells_changed_weaken; [|exact Hc2]. intros; by left.
        -- eapply cells_changed_weaken; [|exact Hc3]. intros; by right.
      * intros j z Hj Hz. rewrite Hb3, Hb2. eexists. split; [done|]. cbn.
        destruct (decide (j = k)) as [->|Hne].
        -- assert (z = x) as -> by congruence.
           apply list_lookup_insert_eq. by eapply lookup_lt_Some.
        -- destruct (Hl j z) as (b1 & Hb1 & Hz1); [lia | done |].
           assert (b1 = b) as -> by congruence.
           by rewrite list_lookup_insert_ne.
      * intros i z Hi Hz. rewrite Hb3, Hb2. eexists. split; [done|]. cbn.
        rewrite list_lookup_insert_ne by lia.
        destruct (Hs i z) as (b1 & Hb1 & Hz1); [lia | done |].
        congruence.
      * eexists. split; [apply lookup_insert_eq|]. cbn. intros i z Hi Hz.
        destruct (decide (i = k)) as [->|Hne].
        -- rewrite list_lookup_insert_eq by lia. congruence.
        -- rewrite list_lookup_insert_ne by done. apply Hdone; [lia | done].
  - intros [] w' (Hc & Hl & _ & bq' & Hq' & Hdone). split; [done|]. split.
    { intros i x Hx. apply Hl; [|done]. by eapply lookup_lt_Some. }
    exists bq'. split; [done|]. intros i x Hx. apply Hdone; [|done].
    by eapply lookup_lt_Some.
Qed.

Lemma storage_at_live w p cap xs :
  storage_at w p cap xs →
  ∀ i x, xs !! i = Some x →
    ∃ b, blocks w !! p = Some b ∧ blk_cells b !! i = Some (Some x).
Proof.
  unfold storage_at. intros Hst i x Hx.
  destruct (blocks w !! p) as [b|].
  - destruct Hst as (_&_&_&_&_&Ht). exists b. split; [done|].
    by eapply take_live.
  - destruct Hst as (_&_&->). done.
Qed.

Lemma storage_at_live_upto w p cap xs :
  storage_at w p cap xs → live_upto w p (length xs).
Proof.
  intros Hst j Hj. destruct (lookup_lt_is_Some_2 xs j Hj) as [x Hx].
  destruct (storage_at_live _ _ _ _ Hst j x Hx) as (b & ? & ?). by exists b, x.
Qed.

Lemma storage_at_cases w p cap xs :
  storage_at w p cap xs →
  (blocks w !! p = None ∧ p = nullptr ∧ cap = 0 ∧ xs = []) ∨
  (∃ b, blocks w !! p = Some b ∧ p ≠ nullptr ∧
        blk_bytes b = cap * sizeof_T ∧ cap * sizeof_T < size_t_modulus ∧
        blk_align b = alignof_T ∧ Z.of_nat (length (blk_cells b)) = cap ∧
        take (length xs) (blk_cells b) = Some <$> xs).
Proof.
  unfold storage_at. destruct (blocks w !! p) as [b|]; [right | left]; eauto.
Qed.

Lemma new_capacity_spec cap :
  0 ≤ cap → spec_new_capacity cap * sizeof_T < size_t_modulus →
  new_capacity cap = spec_new_capacity cap.
Proof.
  intros Hcap Hsmall. pose proof sizeof_T_pos.
  unfold new_capacity, spec_new_capacity, initialCapacity in *.
  destruct (decide (cap = 0)) as [->|Hne]; [done|].
  destruct (Z.ltb_spec 0 cap); [|lia].
  apply wrap_small. nia.
Qed.

Lemma wp_grow this v xs w :
  holds w this v xs →
  spec_new_capacity (m_Capacity v) * sizeof_T ≤ avail w →
  spec_new_capacity (m_Capacity v) * sizeof_T < size_t_modulus →
  wp (grow this) w (λ _ w', ∃ q,
    let v' := Vec q (m_Size v) (spec_new_capacity (m_Capacity v)) in
    holds w' this v' xs ∧ q ≠ nullptr ∧ blocks w !! q = None ∧
    objs w' = <[this := v']> (objs w) ∧
    avail w' = avail w - (spec_new_capacity (m_Capacity v) - m_Capacity v) * sizeof_T).
Proof.
  intros (Hv & Hsize & Hle & Hst) Havail Hsmall. pose proof sizeof_T_pos as Hs.
  assert (Hcap : 0 ≤ m_Capacity v) by lia.
  unfold grow. apply wp_bind. eapply wp_self; [done|]. cbn zeta.
  rewrite new_capacity_spec by done.
  set (nc := spec_new_capacity (m_Capacity v)) in *.
  assert (Hnc : m_Capacity v ≤ nc ∧ 0 < nc).
  { unfold nc, spec_new_capacity. case_decide; lia. }
  set (p := m_Data v) in *. set (n := length xs) in *.
  apply wp_bind. apply wp_allocate; [lia | done | done |].
  intros q Hq0 Hq. set (w1 := World _ _ _ _).
  assert (Hpq : p ≠ q).
  { intros ->. destruct (storage_at_cases _ _ _ _ Hst) as [(_&?&_)|(b&?&_)]; congruence. }
  assert (Hp1 : blocks w1 !! p = blocks w !! p) by (cbn; by rewrite lookup_insert_ne).
  apply wp_bind.
  assert (Hloop : ∀ residue fetch, fetches residue fetch →
    wp (for_upto (m_Size v) (λ i, x ← fetch p i; construct_at q i x)) w1
      (λ _ w2, cells_changed (λ r, r = p ∨ r = q) w1 w2 ∧ live_upto w2 p n ∧
         ∃ bq', blocks w2 !! q = Some bq' ∧
                ∀ i x, xs !! i = Some x → blk_cells bq' !! i = Some (Some x))).
  { intros residue fetch Hfetch. rewrite Hsize. eapply wp_mono.
    - eapply (wp_transfer residue fetch p q xs w1); try done.
      + intros i x Hx. rewrite Hp1. by eapply storage_at_live.
      + cbn. apply lookup_insert_eq.
      + cbn. rewrite length_replicate. lia.
    - intros [] w2 (Hc2 & Hl2 & Hq2). split; [done|]. split; [|done].
      intros j Hj. destruct (lookup_lt_is_Some_2 xs j Hj) as [x Hx].
      destruct (Hl2 j x Hx) as (b & ? & ?). by eexists b, _. }
  eapply wp_mono.
  { destruct is_nothrow_move_constructible;
      [apply (Hloop moved_from move_out), move_out_fetches
      | apply (Hloop (λ v, v) load), load_fetches]. }
  clear Hloop. intros [] w2 (Hc2 & Hl2 & bq' & Hq2 & Hxs).
  assert (Ho2 : objs w2 = objs w) by (by destruct Hc2 as (->&_)).
  apply wp_bind. eapply wp_mono.
  { apply (wp_nuke this v w2); [by rewrite Ho2|].
    rewrite Hsize, Nat2Z.id. done. }
  intros [] w3 (Hc3 & _).
  assert (Ho3 : objs w3 = objs w) by (destruct Hc3 as (->&_); done).
  assert (Hq3 : blocks w3 !! q = Some bq').
  { destruct Hc3 as (_&_&_&_&Hfr). by rewrite Hfr. }
  assert (Hav3 : avail w3 = avail w - nc * sizeof_T).
  { destruct Hc3 as (_&->&_). destruct Hc2 as (_&->&_). done. }
  assert (Hbq : blk_bytes bq' = nc * sizeof_T ∧ blk_align bq' = alignof_T ∧
                Z.of_nat (length (blk_cells bq')) = nc).
  { destruct (cells_changed_block _ w1 w2 q _ Hc2 (lookup_insert_eq _ _ _))
      as (b' & Hb' & Hby & Hal & Hlen).
    assert (b' = bq') as -> by congruence. cbn in *.
    rewrite length_replicate in Hlen. repeat split; [done | done | lia]. }
  assert (Hend : ∀ w4, objs w4 = objs w → blocks w4 !! q = Some bq' →
            avail w4 = avail w - (nc - m_Capacity v) * sizeof_T →
            wp (v0 ← self this; set_self this (Vec q (m_Size v0) nc)) w4 (λ _ w', ∃ q,
              let v' := Vec q (m_Size v) nc in
              holds w' this v' xs ∧ q ≠ nullptr ∧ blocks w !! q = None ∧
              objs w' = <[this := v']> (objs w) ∧
              avail w' = avail w - (nc - m_Capacity v) * sizeof_T)).
  { intros w4 Ho4 Hq4 Hav4. apply wp_bind. eapply wp_self; [by rewrite Ho4|].
    eapply wp_set_self; [by rewrite Ho4|]. exists q. cbn.
    split; [|by rewrite Ho4]. unfold holds; cbn. rewrite lookup_insert_eq.
    split; [done|]. split; [done|]. split; [lia|].
    unfold storage_at; cbn. rewrite Hq4.
    destruct Hbq as (?&?&?). repeat split; try done. by apply take_live. }
  apply wp_bind.
  destruct (storage_at_cases _ _ _ _ Hst) as [(Hnone&Hnull&Hcap0&_)|(b&Hb&Hp0&Hby&_)].
  - apply wp_deallocate; [|done|by left]. intros _. apply Hend; [done..|].
    rewrite Hav3, Hcap0. lia.
  - destruct (cells_changed_block _ w1 w2 p b Hc2) as (b2 & Hb2 & Hby2 & _);
      [by rewrite Hp1|].
    destruct (cells_changed_block _ w2 w3 p b2 Hc3 Hb2) as (b3 & Hb3 & Hby3 & _).
    apply wp_deallocate; [done| |by right; eexists].
    intros b3' _ Hb3'. assert (b3' = b3) as -> by congruence.
    apply Hend; cbn; [done | by rewrite lookup_delete_ne |].
    rewrite Hav3, Hby3, Hby2, Hby. lia.
Qed.

Lemma holds_capacity_small w this v xs :
  holds w this v xs → 0 ≤ m_Size v ≤ m_Capacity v ∧ m_Capacity v < size_t_modulus.
Proof.
  intros (_ & Hsize & Hle & Hst). pose proof sizeof_T_pos.
  split; [lia|].
  destruct (storage_at_cases _ _ _ _ Hst) as [(_&_&->&_)|(b&_&_&_&?&_)]; [done | nia].
Qed.

Lemma size_holds w this v xs :
  holds w this v xs → size this w = Ok (Z.of_nat (length xs)) w.
Proof.
  intros (Hv & Hsize & _). unfold size, mbind, M_bind, self. rewrite Hv. cbn.
  by rewrite Hsize.
Qed.

Lemma subscript_holds w this v xs i x :
  holds w this v xs → xs !! i = Some x →
  subscript this (Z.of_nat i) w = Ok x w.
Proof.
  intros (Hv & Hsize & _ & Hst) Hx.
  destruct (storage_at_live _ _ _ _ Hst i x Hx) as (b & Hb & Hc).
  pose proof (lookup_lt_Some _ _ _ Hx).
  unfold subscript, mbind, M_bind, self. rewrite Hv.
  case_decide; [|lia]. unfold load, with_cell. rewrite Hb.
  case_decide; [|lia]. by rewrite Nat2Z.id, Hc.
Qed.

Lemma wp_push_back this v xs x w :
  holds w this v xs →
  (m_Size v = m_Capacity v →
     spec_new_capacity (m_Capacity v) * sizeof_T ≤ avail w ∧
     spec_new_capacity (m_Capacity v) * sizeof_T < size_t_modulus) →
  wp (push_back this x) w (λ _ w', ∃ v',
    holds w' this v' (xs ++ [x]) ∧
    objs w' = <[this := v']> (objs w) ∧
    m_Size v' = m_Size v + 1 ∧
    m_Capacity v' = (if decide (m_Size v = m_Capacity v)
                     then spec_new_capacity (m_Capacity v) else m_Capacity v) ∧
    (m_Size v ≠ m_Capacity v → m_Data v' = m_Data v) ∧
    avail w' = avail w - (m_Capacity v' - m_Capacity v) * sizeof_T).
Proof.
  intros Hh Hmem. pose proof sizeof_T_pos as Hs.
  assert (Hroom : ∀ w1 v1 (o : gmap Z FastVector),
    holds w1 this v1 xs → m_Size v1 < m_Capacity v1 →
    objs w1 = <[this := v1]> o →
    wp (v0 ← self this;
        construct_at (m_Data v0) (m_Size v0) x ;;
        set_self this (Vec (m_Data v0) (wrap (m_Size v0 + 1)) (m_Capacity v0))) w1
      (λ _ w', ∃ v', holds w' this v' (xs ++ [x]) ∧
         objs w' = <[this := v']> o ∧
         m_Size v' = m_Size v1 + 1 ∧ m_Capacity v' = m_Capacity v1 ∧
         m_Data v' = m_Data v1 ∧ avail w' = avail w1)).
  { intros w1 v1 o Hh1 Hlt Ho1.
    pose proof (holds_capacity_small _ _ _ _ Hh1) as [_ Hsmall].
    destruct Hh1 as (Hv1 & Hsize1 & _ & Hst1).
    destruct (storage_at_cases _ _ _ _ Hst1)
      as [(_&_&?&_)|(b&Hb&Hp0&Hby&Hbs&Hal&Hlen&Htake)]; [lia|].
    apply wp_bind. eapply wp_self; [done|].
    destruct (lookup_lt_is_Some_2 (blk_cells b) (length xs)) as [c Hc]; [lia|].
    apply wp_bind. eapply wp_construct_at; [done | lia | |].
    { rewrite Hsize1, Nat2Z.id. done. }
    eapply wp_set_self; [done|]. cbn.
    rewrite wrap_small by lia.
    exists (Vec (m_Data v1) (m_Size v1 + 1) (m_Capacity v1)).
    split; [|split; [|done]].
    - unfold holds; cbn. rewrite lookup_insert_eq.
      split; [done|]. split; [rewrite length_app; cbn; lia|]. split; [lia|].
      unfold storage_at; cbn. rewrite lookup_insert_eq. cbn.
      rewrite length_insert. repeat split; try done.
      apply take_live. intros i y Hy. rewrite Hsize1, Nat2Z.id.
      apply lookup_app_Some in Hy as [Hy|[Hge Hy]].
      + rewrite list_lookup_insert_ne.
        * by eapply take_live.
        * apply lookup_lt_Some in Hy. lia.
      + destruct (i - length xs)%nat as [|k] eqn:Hk; [|done].
        cbn in Hy. injection Hy as <-.
        assert (i = length xs) as -> by lia.
        apply list_lookup_insert_eq. lia.
    - by rewrite Ho1, insert_insert_eq. }
  unfold push_back. apply wp_bind. eapply wp_self; [apply Hh|].
  apply wp_bind. destruct (decide (m_Size v = m_Capacity v)) as [Hfull|Hne].
  - destruct (Hmem Hfull) as [Havail Hsmall].
    eapply wp_mono; [by apply (wp_grow this v xs w)|].
    intros [] w1 (q & Hh1 & Hq0 & Hq & Ho1 & Hav1). cbn zeta in *.
    eapply wp_mono; [eapply Hroom; [exact Hh1 | | exact Ho1]|].
    + cbn. pose proof (holds_capacity_small _ _ _ _ Hh) as [? _].
      unfold spec_new_capacity. case_decide; lia.
    + intros [] w' (v' & Hh' & Ho' & Hs' & Hc' & Hd' & Hav'). exists v'.
      rewrite Hc', Hav', Hav1. cbn in *. by split_and!.
  - apply wp_ret.
    eapply wp_mono; [eapply (Hroom w v (objs w)); [exact Hh | |]|].
    + destruct Hh as (_&_&?&_). lia.
    + destruct Hh as (Hv&_). by rewrite insert_id.
    + intros [] w' (v' & Hh' & Ho' & Hs' & Hc' & Hd' & Hav'). exists v'.
      rewrite Hc', Hav'. split_and!; try done. lia.
Qed.

Lemma wp_push_all this ys : ∀ w v xs,
  holds w this v xs →
  (3 * (m_Size v + Z.of_nat (length ys)) + 4) * sizeof_T ≤ avail w + m_Capacity v * sizeof_T →
  (3 * (m_Size v + Z.of_nat (length ys)) + 4) * sizeof_T < size_t_modulus →
  wp (push_all this ys) w (λ _ w', ∃ v',
    holds w' this v' (xs ++ ys) ∧
    avail w' + m_Capacity v' * sizeof_T = avail w + m_Capacity v * sizeof_T).
Proof.
  pose proof sizeof_T_pos as Hs.
  induction ys as [|y ys IH]; intros w v xs Hh Hmem Hsmall.
  - apply wp_ret. exists v. by rewrite app_nil_r.
  - cbn [push_all]. cbn [length] in Hmem, Hsmall.
    pose proof (holds_capacity_small _ _ _ _ Hh) as [[Hs0 Hle] _].
    apply wp_bind. eapply wp_mono.
    { apply (wp_push_back this v xs y w Hh). intros Hfull.
      unfold spec_new_capacity. case_decide; nia. }
    intros [] w1 (v1 & Hh1 & _ & Hs1 & Hc1 & _ & Hav1).
    eapply wp_mono.
    { apply (IH w1 v1 (xs ++ [y]) Hh1).
      - rewrite Hs1, Hav1. nia.
      - rewrite Hs1. nia. }
    intros [] w' (v' & Hh' & Hav'). exists v'.
    rewrite <- app_assoc in Hh'. split; [done|]. rewrite Hav', Hav1. lia.
Qed.

Lemma wp_pop_back this v xs x w :
  holds w this v (xs ++ [x]) →
  wp (pop_back this) w (λ _ w',
    let v' := Vec (m_Data v) (m_Size v - 1) (m_Capacity v) in
    holds w' this v' xs ∧
    objs w' = <[this := v']> (objs w) ∧
    dead_at w' (m_Data v) (m_Size v - 1) ∧
    avail w' = avail w ∧ trace w' = trace w).
Proof.
  intros Hh. pose proof (holds_capacity_small _ _ _ _ Hh) as [_ Hsmall].
  destruct Hh as (Hv & Hsize & Hle & Hst).
  rewrite length_app in Hsize. cbn in Hsize.
  destruct (storage_at_cases _ _ _ _ Hst)
    as [(_&_&_&Hnil)|(b&Hb&Hp0&Hby&Hbs&Hal&Hlen&Htake)].
  { by destruct xs. }
  assert (Hx : blk_cells b !! length xs = Some (Some x)).
  { eapply take_live; [exact Htake|]. by rewrite lookup_app_r, Nat.sub_diag. }
  unfold pop_back. apply wp_bind. eapply wp_self; [done|].
  destruct (decide (m_Size v = 0)); [lia|].
  rewrite wrap_small by lia.
  apply wp_bind. eapply wp_set_self; [done|].
  replace (m_Size v - 1) with (Z.of_nat (length xs)) by lia.
  eapply wp_destroy_at; [done | lia | by rewrite Nat2Z.id |].
  rewrite Nat2Z.id. cbn. repeat split; try done.
  - apply lookup_insert_eq.
  - cbn. lia.
  - unfold storage_at; cbn. rewrite lookup_insert_eq. cbn.
    rewrite length_insert. repeat split; try done.
    rewrite take_insert_ge by done.
    rewrite length_app in Htake. cbn in Htake.
    apply (f_equal (take (length xs))) in Htake.
    rewrite take_take, Nat.min_l in Htake by lia.
    rewrite Htake, fmap_app, take_app_le by (by rewrite length_fmap).
    rewrite take_ge; [done|]. by rewrite length_fmap.
  - unfold dead_at; cbn. rewrite Nat2Z.id. eexists.
    split; [apply lookup_insert_eq|]. cbn.
    apply list_lookup_insert_eq. by eapply lookup_lt_Some.
Qed.

Lemma storage_at_same w w' p cap xs :
  blocks w' !! p = blocks w !! p → storage_at w p cap xs → storage_at w' p cap xs.
Proof. unfold storage_at. by intros ->. Qed.

Lemma storage_at_kept P w w' p cap xs :
  kept P w w' → (¬ P p ∨ blocks w !! p = None) →
  storage_at w p cap xs → storage_at w' p cap xs.
Proof.
  intros [Hk Hn] Hp Hst. apply (storage_at_same w); [|done].
  destruct (blocks w !! p) as [b|] eqn:Hb.
  - destruct Hp as [Hp|?]; [|done]. by apply Hk.
  - unfold storage_at in Hst. rewrite Hb in Hst. destruct Hst as (-> & _).
    by apply Hn.
Qed.

Lemma move_ctor_run this other v w :
  objs w !! other = Some v → objs w !! this = None →
  move_ctor this other w =
    Ok tt (World (<[other := Vec nullptr 0 0]> (<[this := v]> (objs w)))
                 (blocks w) (avail w) (trace w)).
Proof.
  intros Ho Ht. assert (this ≠ other) by congruence.
  unfold move_ctor, mbind, M_bind, self, begin_lifetime, set_self.
  rewrite Ho, Ht. cbn. rewrite lookup_insert_ne, Ho by done. by destruct v.
Qed.

Lemma wp_move_assign this other v2 ys v1 w :
  this ≠ other → holds w this v2 ys → objs w !! other = Some v1 →
  wp (move_assign this other) w (λ _ w',
    objs w' = <[other := Vec nullptr 0 0]> (<[this := v1]> (objs w)) ∧
    kept (λ r, r = m_Data v2) w w').
Proof.
  intros Hne Hh Ho. destruct Hh as (Hv & Hsize & Hle & Hst).
  unfold move_assign. destruct (decide (this ≠ other)); [|done].
  apply wp_bind. eapply wp_mono.
  { apply (wp_nuke this v2 w Hv). rewrite Hsize, Nat2Z.id.
    by eapply storage_at_live_upto. }
  intros [] w1 (Hc1 & _).
  assert (Ho1 : objs w1 = objs w) by (by destruct Hc1 as (->&_)).
  apply wp_bind. eapply wp_self; [by rewrite Ho1|].
  assert (Hend : ∀ w2, objs w2 = objs w → kept (λ r, r = m_Data v2) w w2 →
    wp (o ← self other;
        set_self this (Vec (m_Data o) (m_Size o) (m_Capacity o)) ;;
        set_self other (Vec nullptr 0 0)) w2
      (λ _ w', objs w' = <[other := Vec nullptr 0 0]> (<[this := v1]> (objs w)) ∧
               kept (λ r, r = m_Data v2) w w')).
  { intros w2 Ho2 Hk2. apply wp_bind. eapply wp_self; [by rewrite Ho2|].
    apply wp_bind. eapply wp_set_self; [by rewrite Ho2|].
    eapply wp_set_self; [cbn; by rewrite lookup_insert_ne, Ho2|].
    cbn. rewrite Ho2. split; [by destruct v1|]. by destruct Hk2. }
  apply wp_bind. destruct (decide (m_Data v2 ≠ nullptr)) as [Hp|Hp].
  - destruct (storage_at_cases _ _ _ _ Hst) as [(_&?&_)|(b&Hb&_)]; [done|].
    destruct (cells_changed_block _ _ _ _ _ Hc1 Hb) as (b1 & Hb1 & _).
    apply wp_deallocate; [done| |by right; eexists].
    intros b' _ Hb'. apply Hend; [done|].
    destruct (cells_changed_kept _ _ _ Hc1) as [Hk Hn]. split; cbn.
    + intros r br Hr Hbr. rewrite lookup_delete_ne by congruence. by apply Hk.
    + intros Hn0. rewrite lookup_delete_ne by done. by apply Hn.
  - apply wp_ret. apply Hend; [done|]. by apply cells_changed_kept.
Qed.

(** the release that [operator=] makes: [deallocate(m_Data, m_Size)] *)
Lemma wp_move_assign_trace this other v2 ys v1 w :
  this ≠ other → holds w this v2 ys → objs w !! other = Some v1 →
  wp (move_assign this other) w (λ _ w',
    trace w' = trace w ++ release_events (m_Data v2) (m_Size v2)).
Proof.
  intros Hne Hh Ho. destruct Hh as (Hv & Hsize & Hle & Hst).
  unfold move_assign. destruct (decide (this ≠ other)); [|done].
  apply wp_bind. eapply wp_mono.
  { apply (wp_nuke this v2 w Hv). rewrite Hsize, Nat2Z.id.
    by eapply storage_at_live_upto. }
  intros [] w1 (Hc1 & _). pose proof Hc1 as (Ho1 & _ & Ht1 & _).
  apply wp_bind. eapply wp_self; [by rewrite Ho1|].
  assert (Hend : ∀ w2, objs w2 = objs w →
    wp (o ← self other;
        set_self this (Vec (m_Data o) (m_Size o) (m_Capacity o)) ;;
        set_self other (Vec nullptr 0 0)) w2
      (λ _ w', trace w' = trace w2)).
  { intros w2 Ho2. apply wp_bind. eapply wp_self; [by rewrite Ho2|].
    apply wp_bind. eapply wp_set_self; [by rewrite Ho2|].
    eapply wp_set_self; [cbn; by rewrite lookup_insert_ne, Ho2|]. done. }
  apply wp_bind. unfold release_events.
  destruct (decide (m_Data v2 ≠ nullptr)) as [Hp|Hp].
  - destruct (storage_at_cases _ _ _ _ Hst) as [(_&?&_)|(b&Hb&_)]; [done|].
    destruct (cells_changed_block _ _ _ _ _ Hc1 Hb) as (b1 & Hb1 & _).
    apply wp_deallocate; [done| |by right; eexists].
    intros b' _ Hb'. eapply wp_mono; [by apply Hend|].
    intros [] w' ->. cbn. rewrite decide_False by done. by rewrite Ht1.
  - assert (Hnull : m_Data v2 = nullptr) by (by destruct (decide (m_Data v2 = nullptr))).
    apply wp_ret. eapply wp_mono; [by apply Hend|].
    intros [] w' ->. rewrite decide_True by done. by rewrite app_nil_r.
Qed.

Lemma wp_copy_ctor this other v xs w :
  holds w other v xs → objs w !! this = None →
  m_Capacity v * sizeof_T ≤ avail w →
  wp (copy_ctor this other) w (λ _ w', ∃ q,
    holds w' this (Vec q (m_Size v) (m_Capacity v)) xs ∧
    holds w' other v xs ∧
    q ≠ nullptr ∧ q ≠ m_Data v ∧
    objs w' = <[this := Vec q (m_Size v) (m_Capacity v)]> (objs w)).
Proof.
  intros Hh Hnew Hmem. pose proof sizeof_T_pos as Hs.
  pose proof (holds_capacity_small _ _ _ _ Hh) as [[Hs0 Hle] Hsmall].
  destruct Hh as (Hv & Hsize & _ & Hst).
  assert (Hne : this ≠ other) by congruence.
  set (p := m_Data v) in *. set (cap := m_Capacity v) in *.
  assert (Hbytes : cap * sizeof_T < size_t_modulus).
  { destruct (storage_at_cases _ _ _ _ Hst) as [(_&_&->&_)|(b&_&_&_&?&_)]; [done|done]. }
  unfold copy_ctor. apply wp_bind. eapply wp_self; [done|].
  apply wp_bind. apply wp_allocate; [lia | done | done |].
  intros q Hq0 Hq. fold p cap.
  assert (Hpq : p ≠ q).
  { intros ->. destruct (storage_at_cases _ _ _ _ Hst) as [(_&?&_)|(b&?&_)]; congruence. }
  apply wp_bind. eapply wp_begin_lifetime; [done|]. set (w2 := World _ _ _ _).
  assert (Hp2 : blocks w2 !! p = blocks w !! p) by (cbn; by rewrite lookup_insert_ne).
  rewrite Hsize. eapply wp_mono.
  { eapply (wp_transfer (λ x, x) load p q xs w2); try done.
    - apply load_fetches.
    - intros i x Hx. rewrite Hp2. by eapply storage_at_live.
    - cbn. apply lookup_insert_eq.
    - cbn. rewrite length_replicate. lia. }
  intros [] w3 (Hc3 & Hsrc & bq & Hq3 & Hxs).
  assert (Ho3 : objs w3 = objs w2) by (by destruct Hc3 as (->&_)).
  destruct (cells_changed_block _ w2 w3 q _ Hc3 (lookup_insert_eq _ _ _))
    as (b' & Hb' & Hby & Hal & Hlen).
  assert (b' = bq) as -> by congruence. cbn in Hby, Hal, Hlen.
  rewrite length_replicate in Hlen. rewrite <- Hsize.
  exists q. split_and!; try done.
  - unfold holds. rewrite Ho3. cbn. rewrite lookup_insert_eq.
    split_and!; try done.
    unfold storage_at. rewrite Hq3. split_and!; try done; [lia|].
    by apply take_live.
  - unfold holds. rewrite Ho3. cbn. rewrite lookup_insert_ne by done.
    split_and!; try done. fold p cap.
    destruct (storage_at_cases _ _ _ _ Hst) as [(Hnone&?&?&?)|(b&Hb&?&?&?&?&?&?)].
    + unfold storage_at.
      assert (blocks w3 !! p = None) as ->; [|done].
      destruct (blocks w3 !! p) as [b3|] eqn:Hb3; [|done].
      destruct Hc3 as (_&_&_&Hshape&_).
      assert (Hsh : shape w3 !! p = shape w2 !! p) by (by rewrite Hshape).
      rewrite !shape_lookup, Hb3, Hp2, Hnone in Hsh. done.
    + destruct (cells_changed_block _ w2 w3 p b Hc3) as (b3 & Hb3 & ? & ? & ?);
        [by rewrite Hp2|].
      unfold storage_at. rewrite Hb3. split_and!; try congruence.
      apply take_live. intros i x Hx.
      destruct (Hsrc i x Hx) as (b3' & ? & ?). congruence.
Qed.

End Forward.

(** * The claims *)

Section Claims.

Context {T : Type} `{ElemTraits T}.

Implicit Types w : world T.
Implicit Types xs : list T.

Lemma push_all_app this xs ys w :
  push_all this (xs ++ ys) w = (push_all this xs ;; push_all this ys) w.
Proof.
  revert w. induction xs as [|x xs IH]; intros w; [done|].
  cbn [push_all app]. unfold mbind, M_bind in *.
  destruct (push_back this x w); [|done..]. apply IH.
Qed.

(** C2. Pushing the values [xs] onto an empty vector completes (given the
    memory for it), after which [size()] is the number of values and
    [operator[]] returns the [i]-th value pushed at every index [i]; and each
    single [push_back] of the run raises [size()] by exactly one and leaves
    the pushed value at index [size() - 1]. *)
Theorem push_back_appends_in_order this w xs :
  holds w this (Vec nullptr 0 0) [] →
  (3 * Z.of_nat (length xs) + 4) * sizeof_T ≤ avail w →
  (3 * Z.of_nat (length xs) + 4) * sizeof_T < size_t_modulus →
  ∃ w',
    push_all this xs w = Ok tt w' ∧
    size this w' = Ok (Z.of_nat (length xs)) w' ∧
    (∀ i x, xs !! i = Some x → subscript this (Z.of_nat i) w' = Ok x w') ∧
    (∀ pre x post, xs = pre ++ x :: post →
       ∃ w1 w2 n,
         push_all this pre w = Ok tt w1 ∧
         push_back this x w1 = Ok tt w2 ∧
         push_all this post w2 = Ok tt w' ∧
         size this w1 = Ok n w1 ∧
         size this w2 = Ok (n + 1) w2 ∧
         subscript this (n + 1 - 1) w2 = Ok x w2).
Proof.
  intros Hh Hmem Hsmall. pose proof sizeof_T_pos as Hs.
  destruct (wp_inv _ _ _ (wp_push_all this xs w _ [] Hh ltac:(cbn; lia) ltac:(cbn; lia)))
    as ([] & w' & Hrun & v' & Hh' & _).
  cbn [app] in Hh'. exists w'. split; [done|]. split; [by eapply size_holds|].
  split; [intros i x; by eapply subscript_holds|].
  intros pre x post ->.
  rewrite length_app in Hmem, Hsmall. cbn [length] in Hmem, Hsmall.
  destruct (wp_inv _ _ _ (wp_push_all this pre w _ [] Hh ltac:(cbn; nia) ltac:(cbn; nia)))
    as ([] & w1 & Hrun1 & v1 & Hh1 & Hav1).
  cbn [app] in Hh1. cbn in Hav1.
  pose proof (holds_capacity_small _ _ _ _ Hh1) as [[Hs0 Hle] _].
  assert (Hsz1 : m_Size v1 = Z.of_nat (length pre)) by apply Hh1.
  destruct (wp_inv _ _ _ (wp_push_back this v1 pre x w1 Hh1
    ltac:(intros ?; unfold spec_new_capacity; case_decide; nia)))
    as ([] & w2 & Hrun2 & v2 & Hh2 & _ & Hs2 & _).
  exists w1, w2, (Z.of_nat (length pre)).
  split; [done|]. split; [done|].
  split.
  { rewrite push_all_app in Hrun. unfold mbind, M_bind in Hrun.
    rewrite Hrun1 in Hrun. cbn [push_all] in Hrun. unfold mbind, M_bind in Hrun.
    by rewrite Hrun2 in Hrun. }
  split; [by eapply size_holds|].
  split.
  { rewrite (size_holds _ _ _ _ Hh2), length_app. cbn. do 2 f_equal. lia. }
  replace (Z.of_nat (length pre) + 1 - 1) with (Z.of_nat (length pre)) by lia.
  eapply subscript_holds; [exact Hh2|].
  by rewrite lookup_app_r, Nat.sub_diag.
Qed.

(** C10. Move-assigning a vector to itself does nothing: the run completes
    in the world it started from. *)
Theorem move_assign_self_is_noop this w :
  move_assign this this w = Ok tt w.
Proof. unfold move_assign. by destruct (decide (this ≠ this)). Qed.

(** C5. [pop_back] throws exactly when [m_Size] is 0, the exception is the
    one for the empty container and the world is left as it was; on a vector
    whose last element is live it completes, destroys that element and
    lowers [size()] by one, keeping the elements before it, the capacity
    and the storage block. *)
Theorem pop_back_checks_empty this w v :
  objs w !! this = Some v →
  ((∃ e w', pop_back this w = Throw e w') ↔ m_Size v = 0) ∧
  (m_Size v = 0 → pop_back this w = Throw out_of_range w) ∧
  (∀ xs x, holds w this v (xs ++ [x]) →
     ∃ w',
       pop_back this w = Ok tt w' ∧
       holds w' this (Vec (m_Data v) (m_Size v - 1) (m_Capacity v)) xs ∧
       dead_at w' (m_Data v) (m_Size v - 1) ∧
       size this w' = Ok (m_Size v - 1) w').
Proof.
  intros Hv.
  assert (Hthrow : m_Size v = 0 → pop_back this w = Throw out_of_range w).
  { intros Hz. unfold pop_back, mbind, M_bind, self. rewrite Hv.
    by destruct (decide (m_Size v = 0)). }
  split; [|split; [done|]].
  - split; [|intros Hz; eauto].
    intros (e & w' & Hrun). unfold pop_back, mbind, M_bind, self in Hrun.
    rewrite Hv in Hrun. destruct (decide (m_Size v = 0)); [done|].
    unfold set_self in Hrun. rewrite Hv in Hrun.
    unfold destroy_at, with_cell, store_cell, undefined in Hrun.
    repeat case_match; done.
  - intros xs x Hh.
    destruct (wp_inv _ _ _ (wp_pop_back this v xs x w Hh))
      as ([] & w' & Hrun & Hh' & _ & Hdead & _).
    exists w'. split; [done|]. split; [done|]. split; [done|].
    rewrite (size_holds _ _ _ _ Hh'). do 2 f_equal.
    destruct Hh as (_ & Hsize & _). rewrite length_app in Hsize. cbn in Hsize. lia.
Qed.

(** C4. [grow] computes the new capacity 4 from capacity 0 and twice the
    capacity otherwise (when the doubled block is representable and the
    store can provide it), keeps [m_Size] and the elements; so the five
    [push_back] calls on an empty vector see the capacities 0, 4, 4, 4, 4
    and leave capacity 8. *)
Theorem grow_doubles_capacity this :
  (∀ w v xs,
     holds w this v xs →
     spec_new_capacity (m_Capacity v) * sizeof_T ≤ avail w →
     spec_new_capacity (m_Capacity v) * sizeof_T < size_t_modulus →
     new_capacity (m_Capacity v) = spec_new_capacity (m_Capacity v) ∧
     ∃ w' q,
       grow this w = Ok tt w' ∧
       holds w' this (Vec q (m_Size v) (new_capacity (m_Capacity v))) xs) ∧
  (∀ w x1 x2 x3 x4 x5,
     holds w this (Vec nullptr 0 0) [] →
     12 * sizeof_T ≤ avail w →
     8 * sizeof_T < size_t_modulus →
     capacities this [x1; x2; x3; x4; x5] w =
       [Some 0; Some 4; Some 4; Some 4; Some 4; Some 8]).
Proof.
  pose proof sizeof_T_pos as Hs. split.
  - intros w v xs Hh Hmem Hsmall.
    pose proof (holds_capacity_small _ _ _ _ Hh) as [? _].
    rewrite new_capacity_spec by (done || lia). split; [done|].
    destruct (wp_inv _ _ _ (wp_grow this v xs w Hh Hmem Hsmall))
      as ([] & w' & Hrun & q & Hh' & _).
    by exists w', q.
  - intros w x1 x2 x3 x4 x5 Hh0 Hmem Hsmall.
    assert (Hstep : ∀ w0 v0 ys x,
      holds w0 this v0 ys →
      (m_Size v0 = m_Capacity v0 →
         spec_new_capacity (m_Capacity v0) * sizeof_T ≤ avail w0 ∧
         spec_new_capacity (m_Capacity v0) * sizeof_T < size_t_modulus) →
      ∃ w1 v1, push_back this x w0 = Ok tt w1 ∧ holds w1 this v1 (ys ++ [x]) ∧
        capacity_of w0 this = Some (m_Capacity v0) ∧
        m_Size v1 = m_Size v0 + 1 ∧
        m_Capacity v1 = (if decide (m_Size v0 = m_Capacity v0)
                         then spec_new_capacity (m_Capacity v0) else m_Capacity v0) ∧
        avail w1 = avail w0 - (m_Capacity v1 - m_Capacity v0) * sizeof_T).
    { intros w0 v0 ys x Hh Hm.
      destruct (wp_inv _ _ _ (wp_push_back this v0 ys x w0 Hh Hm))
        as ([] & w1 & Hrun & v1 & Hh1 & _ & ? & ? & _ & ?).
      exists w1, v1. split_and!; try done.
      unfold capacity_of. destruct Hh as (-> & _). done. }
    assert (Hfour : spec_new_capacity 0 = 4) by done.
    destruct (Hstep w _ [] x1 Hh0) as (w1 & v1 & R1 & Hh1 & C0 & S1 & C1 & A1).
    { cbn. intros _. rewrite Hfour. lia. }
    cbn in S1, C1, A1. rewrite decide_True, Hfour in C1 by done.
    destruct (Hstep w1 _ _ x2 Hh1) as (w2 & v2 & R2 & Hh2 & C1' & S2 & C2 & A2); [lia|].
    rewrite decide_False in C2 by lia.
    destruct (Hstep w2 _ _ x3 Hh2) as (w3 & v3 & R3 & Hh3 & C2' & S3 & C3 & A3); [lia|].
    rewrite decide_False in C3 by lia.
    destruct (Hstep w3 _ _ x4 Hh3) as (w4 & v4 & R4 & Hh4 & C3' & S4 & C4 & A4); [lia|].
    rewrite decide_False in C4 by lia.
    destruct (Hstep w4 _ _ x5 Hh4) as (w5 & v5 & R5 & Hh5 & C4' & S5 & C5 & A5).
    { intros _. unfold spec_new_capacity. rewrite decide_False by lia. lia. }
    rewrite decide_True in C5 by lia. unfold spec_new_capacity in C5.
    rewrite decide_False in C5 by lia.
    assert (C5' : capacity_of w5 this = Some (m_Capacity v5)).
    { unfold capacity_of. destruct Hh5 as (-> & _). done. }
    cbn [capacities]. rewrite R1, R2, R3, R4, R5.
    rewrite C0, C1', C2', C3', C4', C5'. cbn.
    repeat f_equal; lia.
Qed.

Lemma all_vectors_insert (P : FastVector → Prop) w w' this v :
  all_vectors P w → P v → objs w' = <[this := v]> (objs w) → all_vectors P w'.
Proof.
  intros Hall Hv Ho a va. rewrite Ho, lookup_insert.
  case_decide; [by intros [= <-] | apply Hall].
Qed.

Lemma all_vectors_insert2 (P : FastVector → Prop) w w' a va b vb :
  all_vectors P w → P va → P vb →
  objs w' = <[b := vb]> (<[a := va]> (objs w)) → all_vectors P w'.
Proof.
  intros Hall Hva Hvb Ho c vc. rewrite Ho, !lookup_insert.
  repeat case_decide; try (by intros [= <-]). apply Hall.
Qed.

Lemma all_vectors_delete (P : FastVector → Prop) w w' this :
  all_vectors P w → objs w' = delete this (objs w) → all_vectors P w'.
Proof.
  intros Hall Ho a va. rewrite Ho, lookup_delete.
  case_decide; [done | apply Hall].
Qed.

(** the invariants hold when no vector has been constructed yet *)
Lemma invariants_initially (mem : Z) :
  all_vectors size_within_capacity (empty_world (T:=T) mem) ∧
  all_vectors capacity_has_storage (empty_world (T:=T) mem) ∧
  all_vectors storage_iff_capacity (empty_world (T:=T) mem).
Proof. by split_and!; intros this v Hv. Qed.

Lemma mutate_frame a b m w w' va vb ys :
  a ≠ b → objs w !! a = Some va → holds w b vb ys →
  m_Data va ≠ m_Data vb ∨ blocks w !! m_Data vb = None →
  mutate a m w = Ok tt w' →
  holds w' b vb ys.
Proof.
  intros Hab Hva (Hvb & Hsz & Hle & Hst) Hsep Hrun.
  enough (wlp (mutate a m) w (λ _ w', holds w' b vb ys)) as Hwlp
    by exact (wlp_run _ _ _ _ _ Hwlp Hrun).
  apply wlp_mutate. intros v v' w1 Hv Ho Hk _.
  assert (v = va) as -> by congruence.
  unfold holds. rewrite Ho, lookup_insert_ne by done. split_and!; try done.
  eapply storage_at_kept; [exact Hk | | done].
  destruct Hsep; [left; congruence | by right].
Qed.

(** C6. Move construction and move assignment from the vector at [other],
    which holds [xs], leave the destination with the members and the
    elements the source had (same block, same size and capacity) and the
    source with the members that default construction writes: null storage,
    size 0, capacity 0.  For move assignment the destination is one without
    storage or one filled to its capacity: [operator=] releases the old
    block by [m_Size], which is then the size the block was acquired with,
    as the trace shows. *)
Theorem move_transfers_state this other w v1 xs :
  holds w other v1 xs → this ≠ other →
  (objs w !! this = None →
     ∃ w',
       move_ctor this other w = Ok tt w' ∧
       holds w' this v1 xs ∧
       objs w' !! other = Some (Vec nullptr 0 0) ∧
       size other w' = Ok 0 w' ∧
       blocks w' = blocks w) ∧
  (∀ v2 ys,
     holds w this v2 ys → m_Data v2 = nullptr ∨ m_Data v2 ≠ m_Data v1 →
     m_Data v2 = nullptr ∨ m_Size v2 = m_Capacity v2 →
     ∃ w',
       move_assign this other w = Ok tt w' ∧
       holds w' this v1 xs ∧
       objs w' !! other = Some (Vec nullptr 0 0) ∧
       size other w' = Ok 0 w' ∧
       blocks w' !! m_Data v1 = blocks w !! m_Data v1 ∧
       trace w' = trace w ++
         match blocks w !! m_Data v2 with
         | Some b => [EvDelete (m_Data v2) (blk_bytes b) (blk_align b)]
         | None => []
         end) ∧
  (∀ a w0,
     objs w0 !! a = None →
     ∃ w1, default_ctor a w0 = Ok tt w1 ∧ objs w1 !! a = Some (Vec nullptr 0 0)).
Proof.
  intros Hh Hne. pose proof Hh as (Hv1 & Hsz1 & Hle1 & Hst1). split_and!.
  - intros Hnew. eexists. split; [by apply move_ctor_run|]. cbn.
    split_and!; try done.
    + unfold holds; cbn.
      rewrite lookup_insert_ne, lookup_insert_eq by done. by split_and!.
    + by rewrite lookup_insert_eq.
    + unfold size, mbind, M_bind, self; cbn. by rewrite lookup_insert_eq.
  - intros v2 ys Hh2 Hsep Hfull.
    destruct (wp_inv _ _ _ (wp_move_assign this other v2 ys v1 w Hne Hh2 Hv1))
      as ([] & w' & Hrun & Ho & Hk).
    destruct (wp_inv _ _ _ (wp_move_assign_trace this other v2 ys v1 w Hne Hh2 Hv1))
      as ([] & w'' & Hrun' & Ht).
    assert (w'' = w') as -> by congruence.
    assert (Hb : blocks w' !! m_Data v1 = blocks w !! m_Data v1).
    { destruct Hk as [Hk Hn].
      destruct (storage_at_cases _ _ _ _ Hst1) as [(Hnone&Hnull&_)|(b&Hb&Hp1&_)].
      - rewrite Hnone. rewrite Hnull in *. by apply Hn.
      - rewrite Hb. apply Hk; [|done]. destruct Hsep; congruence. }
    exists w'. split_and!; try done.
    + unfold holds. rewrite Ho, lookup_insert_ne, lookup_insert_eq by done.
      split_and!; try done. by apply (storage_at_same w).
    + by rewrite Ho, lookup_insert_eq.
    + unfold size, mbind, M_bind, self. by rewrite Ho, lookup_insert_eq.
    + rewrite Ht. f_equal. unfold release_events.
      pose proof sizeof_T_pos as Hs. destruct Hh2 as (_ & _ & _ & Hst2).
      destruct (storage_at_cases _ _ _ _ Hst2)
        as [(->&->&_)|(b&->&Hp&Hby&Hsm&Hal&Hlen&_)].
      * by rewrite decide_True.
      * rewrite decide_False by done. destruct Hfull as [? | ->]; [done|].
        rewrite Hby, Hal, wrap_small; [done|]. nia.
  - intros a w0 Hnew. eexists. unfold default_ctor, begin_lifetime.
    rewrite Hnew. split; [done|]. cbn. by rewrite lookup_insert_eq.
Qed.

(** C9. Copy construction from the vector at [other], which holds [xs],
    completes when the store can provide a block of the source's capacity;
    the copy has the source's size and capacity, a block of its own sized for
    that capacity, and the same elements in the same order; the source is as
    it was; and a later [push_back], [pop_back], [clear], [reserve] or
    element assignment on either one leaves the members and elements of the
    other as they are. *)
Theorem copy_is_independent this other w v xs :
  holds w other v xs → objs w !! this = None →
  m_Capacity v * sizeof_T ≤ avail w →
  ∃ w' q,
    copy_ctor this other w = Ok tt w' ∧
    q ≠ nullptr ∧ q ≠ m_Data v ∧
    shape w' !! q = Some (m_Capacity v * sizeof_T, alignof_T, Z.to_nat (m_Capacity v)) ∧
    holds w' this (Vec q (m_Size v) (m_Capacity v)) xs ∧
    holds w' other v xs ∧
    (∀ i x, xs !! i = Some x →
       subscript this (Z.of_nat i) w' = Ok x w' ∧
       subscript other (Z.of_nat i) w' = Ok x w') ∧
    (∀ m w'', mutate this m w' = Ok tt w'' → holds w'' other v xs) ∧
    (∀ m w'', mutate other m w' = Ok tt w'' →
       holds w'' this (Vec q (m_Size v) (m_Capacity v)) xs).
Proof.
  intros Hh Hnew Hmem.
  assert (Hne : this ≠ other) by (destruct Hh as (? & _); congruence).
  destruct (wp_inv _ _ _ (wp_copy_ctor this other v xs w Hh Hnew Hmem))
    as ([] & w' & Hrun & q & Hhq & Hhp & Hq0 & Hqp & Ho).
  exists w', q. split_and!; try done.
  - destruct Hhq as (_ & _ & _ & Hst). cbn in Hst.
    destruct (storage_at_cases _ _ _ _ Hst) as [(_&?&_)|(b&Hb&_&Hby&_&Hal&Hlen&_)];
      [done|].
    rewrite shape_lookup, Hb. cbn. rewrite Hby, Hal, <- Hlen, Nat2Z.id. done.
  - intros i x Hx. split; by eapply subscript_holds.
  - intros m w'' Hm. eapply (mutate_frame this other); try done.
    + apply Hhq.
    + by left.
  - intros m w'' Hm. eapply (mutate_frame other this); try done.
    + apply Hhp.
    + left. cbn. congruence.
Qed.

(** C8, as the code has it. Every public operation that completes keeps
    [0 <= size <= capacity] and keeps that a vector with capacity has
    storage; and it keeps the converse (storage only with capacity) too,
    unless it is a copy construction from a source whose capacity is 0. *)
Theorem operations_keep_invariants (o : op T) w w' :
  all_vectors size_within_capacity w →
  all_vectors capacity_has_storage w →
  run_op o w = Ok tt w' →
  all_vectors size_within_capacity w' ∧
  all_vectors capacity_has_storage w' ∧
  (all_vectors storage_iff_capacity w → ¬ copies_zero_capacity o w →
   all_vectors storage_iff_capacity w').
Proof.
  intros Hsize Hstor Hrun.
  set (Q := λ (_ : unit) (w' : world T),
    all_vectors size_within_capacity w' ∧
    all_vectors capacity_has_storage w' ∧
    (all_vectors storage_iff_capacity w → ¬ copies_zero_capacity o w →
     all_vectors storage_iff_capacity w')).
  assert (Hempty : size_within_capacity (Vec nullptr 0 0) ∧
                   capacity_has_storage (Vec nullptr 0 0) ∧
                   storage_iff_capacity (Vec nullptr 0 0)).
  { unfold size_within_capacity, capacity_has_storage, storage_iff_capacity; cbn.
    split_and!; lia. }
  destruct Hempty as (He1 & He2 & He3).
  enough (wlp (run_op o) w Q) as Hwlp by exact (wlp_run _ _ _ _ _ Hwlp Hrun).
  destruct o as [this|this other|this other|this other|this m|this]; cbn [run_op].
  - apply wlp_default_ctor. intros w1 _ Ho _. unfold Q.
    split_and!; [| |intros Hiff _]; by eapply all_vectors_insert.
  - apply wlp_copy_ctor. intros v q w1 Hv _ Hq0 _ Ho _. unfold Q.
    pose proof (Hsize _ _ Hv) as Hs.
    split_and!; [| |intros Hiff Hcopy]; (eapply all_vectors_insert; [done| |done]).
    + done.
    + by intros _.
    + unfold storage_iff_capacity; cbn. split; [intros _|done].
      unfold copies_zero_capacity, capacity_of in Hcopy. rewrite Hv in Hcopy.
      cbn in Hcopy. unfold size_within_capacity in Hs.
      destruct (decide (m_Capacity v = 0)) as [E|]; [|lia].
      exfalso. apply Hcopy. by rewrite E.
  - apply wlp_move_ctor. intros v w1 Hv _ Ho _. unfold Q.
    split_and!; [| |intros Hiff _];
      (eapply all_vectors_insert2; [done | | done | done]).
    + by eapply Hsize.
    + by eapply Hstor.
    + by eapply Hiff.
  - apply wlp_move_assign; [intros _; unfold Q; by split_and!|].
    intros v v1 w1 _ _ Hv1 Ho _. unfold Q.
    split_and!; [| |intros Hiff _];
      (eapply all_vectors_insert2; [done | | done | done]).
    + by eapply Hsize.
    + by eapply Hstor.
    + by eapply Hiff.
  - apply wlp_mutate. intros v v1 w1 Hv Ho _ (K1 & K2 & K3). unfold Q.
    pose proof (Hsize _ _ Hv). pose proof (Hstor _ _ Hv).
    split_and!; [| |intros Hiff _]; (eapply all_vectors_insert; [done| |done]).
    + by apply K1.
    + by apply K2.
    + apply K3; [done|]. by eapply Hiff.
  - apply wlp_dtor. intros v w1 _ Ho _. unfold Q.
    split_and!; [| |intros Hiff _]; by eapply all_vectors_delete.
Qed.

(** [clear] writes no member: the vector has the [m_Size], [m_Capacity] and
    [m_Data] it had, and the store has released nothing. *)
Lemma clear_keeps_members this w w' :
  clear this w = Ok tt w' →
  objs w' = objs w ∧ shape w' = shape w ∧ avail w' = avail w ∧ trace w' = trace w.
Proof.
  intros Hrun.
  enough (wlp (clear this) w (λ _ w',
    objs w' = objs w ∧ shape w' = shape w ∧ avail w' = avail w ∧ trace w' = trace w))
    as Hwlp by exact (wlp_run _ _ _ _ _ Hwlp Hrun).
  apply wlp_clear. intros v w1 _ (?&?&?&?&_). done.
Qed.

Lemma reserve_within_capacity this n w v :
  objs w !! this = Some v → n ≤ m_Capacity v → reserve this n w = Ok tt w.
Proof.
  intros Hv Hn. unfold reserve, mbind, M_bind, self. rewrite Hv.
  by destruct (decide (n ≤ m_Capacity v)).
Qed.

(** Beyond the capacity, on a vector with elements, [reserve] gets as far as
    the first [m_Size[i]]. *)
Lemma reserve_beyond_capacity this n w v :
  objs w !! this = Some v → m_Capacity v < n → 0 < m_Size v →
  wrap (n * sizeof_T) ≤ avail w →
  reserve this n w = Fault ill_formed.
Proof.
  intros Hv Hn Hsz Hmem. unfold reserve, mbind, M_bind, self. rewrite Hv.
  destruct (decide (n ≤ m_Capacity v)); [lia|].
  unfold allocate, operator_new.
  destruct (Z.leb_spec (wrap (n * sizeof_T)) (avail w)); [|lia].
  unfold for_upto. destruct (Z.to_nat (m_Size v)) eqn:E; [lia|]. done.
Qed.

End Claims.

Lemma push_back_appends_in_order_witness :
  ∃ w',
    push_all 1 [10; 20; 30; 40; 50] world_fresh = Ok tt w' ∧
    size 1 w' = Ok 5 w' ∧
    subscript 1 4 w' = Ok 50 w'.
Proof.
  destruct (push_back_appends_in_order 1 world_fresh [10; 20; 30; 40; 50])
    as (w' & Hrun & Hsize & Hsub & _); [evaluate..|].
  exists w'. split; [done|]. split; [done|]. by apply (Hsub 4%nat).
Defined.

Lemma pop_back_checks_empty_witness :
  ∃ w',
    pop_back 1 world_three = Ok tt w' ∧
    holds w' 1 (Vec 1 2 4) [10; 20] ∧
    pop_back 1 world_fresh = Throw out_of_range world_fresh.
Proof.
  destruct (pop_back_checks_empty 1 world_three (Vec 1 3 4)) as (_ & _ & Hpop);
    [evaluate|].
  destruct (Hpop [10; 20] 30) as (w' & Hrun & Hh & _); [evaluate|].
  destruct (pop_back_checks_empty 1 world_fresh (Vec nullptr 0 0)) as (_ & Hthrow & _);
    [evaluate|].
  exists w'. split; [done|]. split; [done|]. by apply Hthrow.
Defined.

Lemma grow_doubles_capacity_witness :
  capacities 1 [10; 20; 30; 40; 50] world_fresh =
    [Some 0; Some 4; Some 4; Some 4; Some 4; Some 8] ∧
  ∃ w' q, grow 1 world_three = Ok tt w' ∧ holds w' 1 (Vec q 3 8) [10; 20; 30].
Proof.
  destruct (grow_doubles_capacity (T:=Z) 1) as [Hgrow Hcaps]. split.
  - apply Hcaps; evaluate.
  - destruct (Hgrow world_three (Vec 1 3 4) [10; 20; 30]) as (_ & w' & q & Hrun & Hh);
      [evaluate..|].
    exists w', q. split; [exact Hrun | exact Hh].
Defined.

(** ** Evaluations on [FastVector<int>] *)

Lemma all_vectors_list {T} (P : FastVector → Prop) (w : world T) l :
  objs w = list_to_map l → Forall (λ kv, P kv.2) l → all_vectors P w.
Proof.
  intros Ho HP this v Hv. rewrite Ho in Hv.
  apply elem_of_list_to_map_2 in Hv.
  rewrite Forall_forall in HP. exact (HP (this, v) Hv).
Qed.

(** C1, evaluated. After [push_back] of 10, 20 and 30, [clear()] completes,
    destroys the three elements and keeps capacity 4, the block and the
    trace; but [size()] still returns 3 and [empty()] false, and
    [operator[]] at index 0 reaches a destroyed object.  A following
    [push_back(40)] reuses the block at index 3, and the destructor destroys
    the dead elements a second time. *)
Theorem clear_leaves_m_Size :
  clear 1 world_three = Ok tt world_cleared ∧
  size 1 world_three = Ok 3 world_three ∧
  size 1 world_cleared = Ok 3 world_cleared ∧
  empty 1 world_cleared = Ok false world_cleared ∧
  (blk_cells <$> blocks world_cleared !! 1) = Some [None; None; None; None] ∧
  objs world_cleared !! 1 = Some (Vec 1 3 4) ∧
  shape world_cleared = shape world_three ∧
  trace world_cleared = trace world_three ∧
  subscript 1 0 world_cleared = Fault dead_object ∧
  size 1 (world_after (push_back 1 40) world_cleared) =
    Ok 4 (world_after (push_back 1 40) world_cleared) ∧
  (blk_cells <$> blocks (world_after (push_back 1 40) world_cleared) !! 1) =
    Some [None; None; None; Some 40] ∧
  dtor 1 world_cleared = Fault dead_object.
Proof. by vm_compute. Qed.

(** C3, evaluated. On the vector holding 10, 20, 30 with capacity 4,
    [reserve(4)] and [reserve(2)] change nothing, and [reserve(8)] stops at
    the expression [m_Size[i]], which is ill-formed; while [grow], the
    sibling path, moves the same elements out of [m_Data[i]]. *)
Theorem reserve_subscripts_size_counter :
  reserve 1 4 world_three = Ok tt world_three ∧
  reserve 1 2 world_three = Ok tt world_three ∧
  reserve 1 8 world_three = Fault ill_formed ∧
  (blk_cells <$> blocks (world_after (grow 1) world_three) !! 2) =
    Some [Some 10; Some 20; Some 30; None; None; None; None; None].
Proof. by vm_compute. Qed.

(** C7, evaluated. Move assignment into the vector at address 2, whose block
    was acquired for capacity 4 (16 bytes) and which holds 2 elements,
    releases that block as 8 bytes, the size of 2 elements; the destructor
    and [grow] release their blocks with the acquired size. *)
Theorem move_assign_releases_by_size :
  move_assign 2 1 world_two_filled = Ok tt (world_after (move_assign 2 1) world_two_filled) ∧
  objs world_two_filled !! 2 = Some (Vec 2 2 4) ∧
  trace (world_after (move_assign 2 1) world_two_filled) =
    [EvNew 1 16 4; EvNew 2 16 4; EvDelete 2 8 4] ∧
  releases_match [] (trace (world_after (move_assign 2 1) world_two_filled)) = false ∧
  trace (world_after (dtor 2) world_two_filled) =
    [EvNew 1 16 4; EvNew 2 16 4; EvDelete 2 16 4] ∧
  releases_match [] (trace (world_after (dtor 2) world_two_filled)) = true ∧
  trace (world_after (push_all 1 [40; 50]) world_three) =
    [EvNew 1 16 4; EvNew 2 32 4; EvDelete 1 16 4] ∧
  releases_match [] (trace (world_after (push_all 1 [40; 50]) world_three)) = true.
Proof. by vm_compute. Qed.

Lemma move_transfers_state_witness :
  ∃ w',
    move_assign 2 1 world_two_full = Ok tt w' ∧
    holds w' 2 (Vec 1 3 4) [10; 20; 30] ∧
    objs w' !! 1 = Some (Vec nullptr 0 0) ∧
    trace w' = trace world_two_full ++ [EvDelete 2 16 4] ∧
    releases_match [] (trace w') = true.
Proof.
  destruct (move_transfers_state 2 1 world_two_full (Vec 1 3 4) [10; 20; 30])
    as (_ & Hassign & _); [evaluate | discriminate |].
  destruct (Hassign (Vec 2 4 4) [5; 6; 7; 8]) as (w' & Hrun & Hh & Ho & _ & _ & Ht);
    [evaluate | right; discriminate | right; reflexivity |].
  exists w'. split; [exact Hrun|]. split; [exact Hh|]. split; [exact Ho|].
  split; [exact Ht|]. rewrite Ht. reflexivity.
Defined.

Lemma copy_is_independent_witness :
  ∃ w' q,
    copy_ctor 2 1 world_three = Ok tt w' ∧
    holds w' 2 (Vec q 3 4) [10; 20; 30] ∧
    holds w' 1 (Vec 1 3 4) [10; 20; 30].
Proof.
  destruct (copy_is_independent 2 1 world_three (Vec 1 3 4) [10; 20; 30])
    as (w' & q & Hrun & _ & _ & _ & Hcopy & Hsrc & _); [evaluate..|].
  exists w', q. split; [exact Hrun|]. split; [exact Hcopy | exact Hsrc].
Defined.

Lemma operations_keep_invariants_witness :
  all_vectors size_within_capacity (world_after (push_back 1 40) world_three) ∧
  all_vectors capacity_has_storage (world_after (push_back 1 40) world_three) ∧
  all_vectors storage_iff_capacity (world_after (push_back 1 40) world_three).
Proof.
  destruct (operations_keep_invariants (OpMutate 1 (MPush 40)) world_three
              (world_after (push_back 1 40) world_three)) as (Hs & Hc & Hiff).
  - apply (all_vectors_list _ _ [(1, Vec 1 3 4)]); [by vm_compute|].
    repeat constructor; evaluate.
  - apply (all_vectors_list _ _ [(1, Vec 1 3 4)]); [by vm_compute|].
    repeat constructor; evaluate.
  - by vm_compute.
  - split; [exact Hs|]. split; [exact Hc|]. apply Hiff.
    + apply (all_vectors_list _ _ [(1, Vec 1 3 4)]); [by vm_compute|].
      repeat constructor; evaluate.
    + intros [].
Defined.

(** C8 as the data model states it fails: copying the default-constructed
    vector of [world_fresh] completes and leaves the copy with capacity 0
    and non-null storage. *)
Lemma copy_of_empty_has_storage :
  ¬ (∀ (o : op Z) (w w' : world Z),
       all_vectors size_within_capacity w →
       all_vectors storage_iff_capacity w →
       run_op o w = Ok tt w' →
       all_vectors size_within_capacity w' ∧ all_vectors storage_iff_capacity w').
Proof.
  intros Hclaim.
  destruct (Hclaim (OpCopy 2 1) world_fresh (world_after (copy_ctor 2 1) world_fresh))
    as [_ Hiff].
  - apply (all_vectors_list _ _ [(1, Vec nullptr 0 0)]); [by vm_compute|].
    repeat constructor; evaluate.
  - apply (all_vectors_list _ _ [(1, Vec nullptr 0 0)]); [by vm_compute|].
    repeat constructor; evaluate.
  - by vm_compute.
  - assert (Hcopy : objs (world_after (copy_ctor 2 1) world_fresh) !! 2 = Some (Vec 1 0 0))
      by (by vm_compute).
    destruct (Hiff 2 (Vec 1 0 0) Hcopy) as [Hcap _].
    assert (0 < 0) as Hlt by (apply Hcap; discriminate).
    discriminate Hlt.
Qed.

(** * Further properties of the code *)

(** ** Exceptions leave the world as it was

    The element type is [int]: its copy, move and assignment cannot throw,
    so the exceptions of a member call are those the container raises
    itself, [std::bad_alloc] out of [allocate] and [std::out_of_range] out
    of [pop_back].  (For an element type whose copy constructor throws,
    [push_back] can fail after [grow] has replaced the block, and the copy
    constructor after [allocate]; the embedding has no such element.) *)

Section Exceptions.

Implicit Types w : world Z.

Lemma nothrow_ret {A} (a : A) : nothrow (mret a : M Z A).
Proof. by intros w e w'. Qed.

Lemma nothrow_undefined {A} f : nothrow (undefined f : M Z A).
Proof. by intros w e w'. Qed.

Lemma nothrow_bind {A B} (m : M Z A) (f : A → M Z B) :
  nothrow m → (∀ a, nothrow (f a)) → nothrow (m ≫= f).
Proof.
  intros Hm Hf w e w'. unfold mbind, M_bind.
  destruct (m w) as [a w1|e1 w1|x] eqn:E; [apply Hf | by apply Hm in E | done].
Qed.

Lemma nothrow_for_from n i (body : Z → M Z unit) :
  (∀ j, nothrow (body j)) → nothrow (for_from n i body).
Proof.
  intros Hbody. revert i. induction n as [|n IH]; intros i; cbn [for_from].
  - apply nothrow_ret.
  - apply nothrow_bind; [apply Hbody | intros _; apply IH].
Qed.

Lemma nothrow_self this : nothrow (self (T:=Z) this).
Proof. intros w e w'. unfold self. by destruct (objs w !! this). Qed.

Lemma reads_self this : reads (self (T:=Z) this).
Proof. intros w a w'. unfold self. destruct (objs w !! this); naive_solver. Qed.

Lemma nothrow_set_self this v : nothrow (set_self (T:=Z) this v).
Proof. intros w e w'. unfold set_self. by destruct (objs w !! this). Qed.

Lemma nothrow_begin_lifetime this v : nothrow (begin_lifetime (T:=Z) this v).
Proof. intros w e w'. unfold begin_lifetime. by destruct (objs w !! this). Qed.

Lemma nothrow_end_lifetime this : nothrow (end_lifetime (T:=Z) this).
Proof. by intros w e w'. Qed.

Lemma nothrow_deallocate p n : nothrow (deallocate (T:=Z) p n).
Proof.
  intros w e w'. unfold deallocate, operator_delete.
  destruct (decide (p = nullptr)); [done|]. by destruct (blocks w !! p).
Qed.

Lemma nothrow_with_cell {A} p i (k : block Z → nat → option Z → M Z A) :
  (∀ b n c, nothrow (k b n c)) → nothrow (with_cell p i k).
Proof.
  intros Hk w e w'. unfold with_cell.
  destruct (blocks w !! p) as [b|]; [|done].
  destruct (decide (0 ≤ i)); [|done].
  destruct (blk_cells b !! Z.to_nat i); [apply Hk | done].
Qed.

Lemma nothrow_store_cell p b n c : nothrow (store_cell (T:=Z) p b n c).
Proof. by intros w e w'. Qed.

Lemma nothrow_construct_at p i v : nothrow (construct_at (T:=Z) p i v).
Proof. apply nothrow_with_cell. intros. apply nothrow_store_cell. Qed.

Lemma nothrow_load p i : nothrow (load (T:=Z) p i).
Proof.
  apply nothrow_with_cell. intros b n [v|];
    [apply nothrow_ret | apply nothrow_undefined].
Qed.

Lemma nothrow_move_out p i : nothrow (move_out (T:=Z) p i).
Proof.
  apply nothrow_with_cell. intros b n [v|]; [|apply nothrow_undefined].
  apply nothrow_bind; [apply nothrow_store_cell | intros; apply nothrow_ret].
Qed.

Lemma nothrow_assign_at p i v : nothrow (assign_at (T:=Z) p i v).
Proof.
  apply nothrow_with_cell. intros b n [v0|];
    [apply nothrow_store_cell | apply nothrow_undefined].
Qed.

Lemma nothrow_destroy_at p i : nothrow (destroy_at (T:=Z) p i).
Proof.
  apply nothrow_with_cell. intros b n [v0|];
    [apply nothrow_store_cell | apply nothrow_undefined].
Qed.

Lemma nothrow_nuke this : nothrow (nuke (T:=Z) this).
Proof.
  unfold nuke. apply nothrow_bind; [apply nothrow_self|]. intros v.
  apply nothrow_for_from. intros j. apply nothrow_destroy_at.
Qed.

Lemma nothrow_release_if p n :
  nothrow (if decide (p ≠ nullptr) then deallocate (T:=Z) p n else mret tt).
Proof. case_decide; [apply nothrow_deallocate | apply nothrow_ret]. Qed.

Lemma nothrow_fails {A} (E : exn → Prop) (m : M Z A) :
  nothrow m → fails_cleanly E m.
Proof. intros Hm w e w' Hrun. by apply Hm in Hrun. Qed.

Lemma fails_cleanly_after_read {A B} E (m : M Z A) (f : A → M Z B) :
  reads m → nothrow m → (∀ a, fails_cleanly E (f a)) →
  fails_cleanly E (m ≫= f).
Proof.
  intros Hr Hn Hf w e w' Hrun. unfold mbind, M_bind in Hrun.
  destruct (m w) as [a w1|e1 w1|x] eqn:Em.
  - apply Hr in Em as ->. by eapply Hf.
  - by apply Hn in Em.
  - done.
Qed.

Lemma fails_cleanly_before {A B} E (m : M Z A) (f : A → M Z B) :
  fails_cleanly E m → (∀ a, nothrow (f a)) → fails_cleanly E (m ≫= f).
Proof.
  intros Hm Hf w e w' Hrun. unfold mbind, M_bind in Hrun.
  destruct (m w) as [a w1|e1 w1|x] eqn:Em.
  - by apply Hf in Hrun.
  - injection Hrun as <- <-. by eapply Hm.
  - done.
Qed.

Lemma fails_cleanly_allocate n : fails_cleanly (λ e, e = bad_alloc) (allocate (T:=Z) n).
Proof.
  intros w e w'. unfold allocate, operator_new.
  destruct (_ <=? _); [done|]. by intros [= <- <-].
Qed.

Lemma nothrow_transfer (fetch : Z → Z → M Z Z) p q n :
  (∀ i, nothrow (fetch p i)) →
  nothrow (for_upto n (λ i, x ← fetch p i; construct_at q i x)).
Proof.
  intros Hfetch. apply nothrow_for_from. intros j.
  apply nothrow_bind; [apply Hfetch | intros x; apply nothrow_construct_at].
Qed.

Lemma fails_cleanly_grow this : fails_cleanly (λ e, e = bad_alloc) (grow (T:=Z) this).
Proof.
  unfold grow. apply fails_cleanly_after_read; [apply reads_self | apply nothrow_self|].
  intros v. cbn zeta. apply fails_cleanly_before; [apply fails_cleanly_allocate|].
  intros q. apply nothrow_bind.
  { destruct is_nothrow_move_constructible; apply nothrow_transfer; intros i;
      [apply nothrow_move_out | apply nothrow_load]. }
  intros _. apply nothrow_bind; [apply nothrow_nuke|]. intros _.
  apply nothrow_bind; [apply nothrow_deallocate|]. intros _.
  apply nothrow_bind; [apply nothrow_self | intros; apply nothrow_set_self].
Qed.

Lemma fails_cleanly_push_back this x :
  fails_cleanly (λ e, e = bad_alloc) (push_back (T:=Z) this x).
Proof.
  unfold push_back. apply fails_cleanly_after_read; [apply reads_self | apply nothrow_self|].
  intros v. apply fails_cleanly_before.
  - case_decide; [apply fails_cleanly_grow | apply nothrow_fails, nothrow_ret].
  - intros _. apply nothrow_bind; [apply nothrow_self|]. intros v1.
    apply nothrow_bind; [apply nothrow_construct_at | intros; apply nothrow_set_self].
Qed.

Lemma fails_cleanly_pop_back this :
  fails_cleanly (λ e, e = out_of_range) (pop_back (T:=Z) this).
Proof.
  unfold pop_back. apply fails_cleanly_after_read; [apply reads_self | apply nothrow_self|].
  intros v. case_decide.
  - intros w e w'. unfold throw. by intros [= <- <-].
  - apply nothrow_fails, nothrow_bind; [apply nothrow_set_self|].
    intros _. apply nothrow_destroy_at.
Qed.

Lemma fails_cleanly_copy_ctor this other :
  fails_cleanly (λ e, e = bad_alloc) (copy_ctor (T:=Z) this other).
Proof.
  unfold copy_ctor. apply fails_cleanly_after_read; [apply reads_self | apply nothrow_self|].
  intros o. apply fails_cleanly_before; [apply fails_cleanly_allocate|].
  intros q. apply nothrow_bind; [apply nothrow_begin_lifetime|]. intros _.
  apply nothrow_transfer. intros i. apply nothrow_load.
Qed.

Lemma nothrow_move_ctor this other : nothrow (move_ctor (T:=Z) this other).
Proof.
  unfold move_ctor. apply nothrow_bind; [apply nothrow_self|]. intros o.
  apply nothrow_bind; [apply nothrow_begin_lifetime | intros; apply nothrow_set_self].
Qed.

Lemma nothrow_move_assign this other : nothrow (move_assign (T:=Z) this other).
Proof.
  unfold move_assign. case_decide; [|apply nothrow_ret].
  apply nothrow_bind; [apply nothrow_nuke|]. intros _.
  apply nothrow_bind; [apply nothrow_self|]. intros v.
  apply nothrow_bind; [apply nothrow_release_if|]. intros _.
  apply nothrow_bind; [apply nothrow_self|]. intros o.
  apply nothrow_bind; [apply nothrow_set_self | intros; apply nothrow_set_self].
Qed.

Lemma nothrow_dtor this : nothrow (dtor (T:=Z) this).
Proof.
  unfold dtor. apply nothrow_bind; [apply nothrow_nuke|]. intros _.
  apply nothrow_bind; [apply nothrow_self|]. intros v.
  apply nothrow_bind; [apply nothrow_release_if | intros; apply nothrow_end_lifetime].
Qed.

Lemma nothrow_subscript_assign this i x : nothrow (subscript_assign (T:=Z) this i x).
Proof.
  unfold subscript_assign. apply nothrow_bind; [apply nothrow_self|]. intros v.
  case_decide; [apply nothrow_assign_at | apply nothrow_undefined].
Qed.

(** X1. A public operation on a [FastVector<int>] that ends in an
    exception has changed nothing: the world is the one it started in.  The
    exception is [bad_alloc] for copy construction and [push_back], and
    [out_of_range] for [pop_back]; default and move construction, move
    assignment, [clear], element assignment and destruction never end in an
    exception. *)
Theorem exception_leaves_world_unchanged (o : op Z) w e w' :
  instantiable o → run_op o w = Throw e w' → w' = w ∧ may_throw o e.
Proof.
  destruct o as [this|this other|this other|this other|this m|this];
    cbn [run_op may_throw]; intros Hinst.
  - intros Hrun. by apply nothrow_begin_lifetime in Hrun.
  - apply fails_cleanly_copy_ctor.
  - intros Hrun. by apply nothrow_move_ctor in Hrun.
  - intros Hrun. by apply nothrow_move_assign in Hrun.
  - destruct m as [x| | |n|i x]; cbn [mutate].
    + apply fails_cleanly_push_back.
    + apply fails_cleanly_pop_back.
    + intros Hrun. by apply nothrow_nuke in Hrun.
    + destruct Hinst.
    + intros Hrun. by apply nothrow_subscript_assign in Hrun.
  - intros Hrun. by apply nothrow_dtor in Hrun.
Qed.

End Exceptions.

Lemma exception_leaves_world_unchanged_witness :
  push_back 1 10 world_tight = Throw bad_alloc world_tight ∧
  pop_back 1 world_tight = Throw out_of_range world_tight.
Proof.
  assert (Hpush : push_back 1 10 world_tight = Throw bad_alloc world_tight) by (by vm_compute).
  assert (Hpop : pop_back 1 world_tight = Throw out_of_range world_tight) by (by vm_compute).
  destruct (exception_leaves_world_unchanged (OpMutate 1 (MPush 10)) _ _ _ I Hpush) as [_ _].
  destruct (exception_leaves_world_unchanged (OpMutate 1 MPop) _ _ _ I Hpop) as [_ _].
  split; [exact Hpush | exact Hpop].
Defined.

(** ** The store across growth and [push_back] *)

Section Store.

Context {T : Type} `{ElemTraits T}.

Implicit Types w : world T.
Implicit Types Q : unit → world T → Prop.

Lemma cells_changed_same_except P w w' :
  cells_changed P w w' → same_except P w w'.
Proof. by intros (_&_&_&_&?). Qed.

Lemma cells_changed_None P w w' r :
  cells_changed P w w' → blocks w !! r = None → blocks w' !! r = None.
Proof.
  intros (_&_&_&Hs&_) Hr. apply shape_None. rewrite Hs. by apply shape_None.
Qed.

Lemma wlp_deallocate_store p n w Q :
  (∀ w', objs w' = objs w →
     blocks w' = (if decide (p = nullptr) then blocks w else delete p (blocks w)) →
     trace w' = trace w ++ release_events p n →
     Q tt w') →
  wlp (deallocate p n) w Q.
Proof.
  intros HQ. apply wlp_deallocate.
  - intros Hp. apply HQ; unfold release_events; rewrite ?decide_True by done;
      [done | done | by rewrite app_nil_r].
  - intros b Hp Hb. apply HQ; unfold release_events; rewrite ?decide_False by done; done.
Qed.

(** [grow], on any state it completes from: the new block is at a pointer
    the store did not hold, the old block is gone, every other block is as
    it was, and the trace has the acquisition followed by the release of
    the old block by [m_Capacity]. *)
Lemma wlp_grow_store this w Q :
  (∀ v q w',
     objs w !! this = Some v →
     q ≠ nullptr → blocks w !! q = None →
     objs w' = <[this := Vec q (m_Size v) (new_capacity (m_Capacity v))]> (objs w) →
     same_except (λ r, r = m_Data v ∨ r = q) w w' →
     (blocks w !! m_Data v = None ∨ m_Data v ≠ nullptr → blocks w' !! m_Data v = None) →
     (∀ x, shape w' !! q = Some x → x = allocated_shape (new_capacity (m_Capacity v))) →
     trace w' = trace w
                ++ [EvNew q (wrap (new_capacity (m_Capacity v) * sizeof_T)) alignof_T]
                ++ release_events (m_Data v) (m_Capacity v) →
     Q tt w') →
  wlp (grow this) w Q.
Proof.
  intros HQ. unfold grow. apply wlp_bind, wlp_self. intros v Hv.
  cbn zeta. set (nc := new_capacity (m_Capacity v)). set (p := m_Data v).
  apply wlp_bind, wlp_allocate. intros q Hq0 Hq _.
  set (w1 := World _ _ _ _).
  assert (Hs1 : shape w1 !! q = Some (allocated_shape nc)).
  { erewrite shape_inserted by done. rewrite lookup_insert_eq. cbn.
    by rewrite length_replicate. }
  apply wlp_bind.
  assert (Hloop : ∀ fetch,
    (∀ i w1 (Q1 : T → world T → Prop),
       (∀ x w2, cells_changed (λ r, r = p) w1 w2 → Q1 x w2) →
       wlp (fetch p i) w1 Q1) →
    wlp (for_upto (m_Size v) (λ i, x ← fetch p i; construct_at q i x)) w1
      (λ _ w2, wlp (nuke this ;; deallocate p (m_Capacity v) ;;
                    v0 ← self this; set_self this (Vec q (m_Size v0) nc)) w2 Q)).
  { intros fetch Hfetch. apply wlp_transfer; [done|]. intros w2 Hw2.
    apply wlp_bind, wlp_nuke. intros v2 w3 Hv2 Hw3.
    assert (v2 = v) as ->.
    { destruct Hw2 as (Ho&_). rewrite Ho in Hv2. cbn in Hv2. congruence. }
    fold p in Hw3.
    assert (Hc3 : cells_changed (λ r, r = p ∨ r = q) w1 w3).
    { eapply cells_changed_trans; [done|].
      eapply cells_changed_weaken; [|exact Hw3]. intros; by left. }
    pose proof Hc3 as (Ho3 & _ & Ht3 & Hsh3 & Hfr3).
    apply wlp_bind, wlp_deallocate_store. intros w4 Ho4 Hb4 Ht4.
    apply wlp_bind, wlp_self. intros v4 Hv4.
    rewrite Ho4, Ho3 in Hv4. cbn in Hv4. assert (v4 = v) as -> by congruence.
    apply wlp_set_self. intros ? _. apply (HQ v q); try done.
    - cbn. by rewrite Ho4, Ho3.
    - intros r Hr. cbn. rewrite Hb4.
      assert (r ≠ p ∧ r ≠ q) as [? ?] by (split; intros ->; apply Hr; auto).
      case_decide; rewrite ?lookup_delete_ne by done;
        rewrite Hfr3 by (intros [?|?]; done); cbn; by rewrite lookup_insert_ne.
    - intros Hp. cbn. rewrite Hb4. case_decide as Hnull.
      + destruct Hp as [Hnone|?]; [|done].
        eapply cells_changed_None; [exact Hc3|]. cbn.
        rewrite lookup_insert_ne; [done|]. fold p. congruence.
      + apply lookup_delete_eq.
    - intros x Hx. change (shape w4 !! q = Some x) in Hx.
      assert (Hsub : shape w4 !! q = Some x → shape w3 !! q = Some x).
      { unfold shape. rewrite Hb4. case_decide; [done|].
        rewrite fmap_delete, lookup_delete. by case_decide. }
      apply Hsub in Hx. rewrite Hsh3, Hs1 in Hx. by injection Hx as <-.
    - cbn. rewrite Ht4, Ht3. cbn. by rewrite <- app_assoc. }
  destruct is_nothrow_move_constructible.
  - apply (Hloop move_out). intros. by apply wlp_move_out.
  - apply (Hloop load). intros i w2 Q1 HQ1. apply wlp_load. intros x.
    apply HQ1, cells_changed_refl.
Qed.

Lemma wlp_push_back_store this x w Q :
  (∀ v v' w',
     objs w !! this = Some v →
     objs w' = <[this := v']> (objs w) →
     (m_Size v ≠ m_Capacity v ∧ m_Data v' = m_Data v ∧
      trace w' = trace w ∧ avail w' = avail w ∧ shape w' = shape w ∧
      same_except (λ r, r = m_Data v) w w') ∨
     (m_Size v = m_Capacity v ∧ m_Data v' ≠ nullptr ∧ m_Data v ≠ m_Data v' ∧
      blocks w !! m_Data v' = None ∧
      same_except (λ r, r = m_Data v ∨ r = m_Data v') w w' ∧
      (blocks w !! m_Data v = None ∨ m_Data v ≠ nullptr → blocks w' !! m_Data v = None) ∧
      shape w' !! m_Data v' = Some (allocated_shape (new_capacity (m_Capacity v))) ∧
      trace w' = trace w
                 ++ [EvNew (m_Data v') (wrap (new_capacity (m_Capacity v) * sizeof_T)) alignof_T]
                 ++ release_events (m_Data v) (m_Capacity v)) →
     Q tt w') →
  wlp (push_back this x) w Q.
Proof.
  intros HQ. unfold push_back. apply wlp_bind, wlp_self. intros v Hv.
  apply wlp_bind. destruct (decide (m_Size v = m_Capacity v)) as [Hfull|Hroom].
  - apply wlp_grow_store. intros v0 q w1 Hv0 Hq0 Hq Ho1 Hfr1 Hp1 Hs1 Ht1.
    assert (v0 = v) as -> by congruence.
    apply wlp_bind, wlp_self. intros v1 Hv1.
    rewrite Ho1, lookup_insert_eq in Hv1. injection Hv1 as <-. cbn.
    apply wlp_bind, wlp_construct_at. intros b w2 Hb Hi Hlt Hw2.
    apply wlp_set_self. intros ? _.
    assert (Hpq : m_Data v ≠ q).
    { intros E. rewrite <- E in Hb. rewrite Hp1 in Hb; [done|]. left. by rewrite E. }
    pose proof Hw2 as (Ho2 & _ & Ht2 & Hsh2 & Hfr2).
    apply (HQ v (Vec q (wrap (m_Size v + 1)) (new_capacity (m_Capacity v)))); [done| |].
    + cbn. by rewrite Ho2, Ho1, insert_insert_eq.
    + right. cbn. split_and!; try done.
      * intros r Hr. rewrite Hfr2 by (intros ->; apply Hr; by right). by apply Hfr1.
      * intros Hp. rewrite Hfr2 by done. by apply Hp1.
      * change (shape w2 !! q = Some (allocated_shape (new_capacity (m_Capacity v)))).
        rewrite Hsh2. rewrite shape_lookup, Hb. cbn. f_equal.
        apply Hs1. by rewrite shape_lookup, Hb.
      * by rewrite Ht2.
  - apply wlp_ret. apply wlp_bind, wlp_self. intros v1 Hv1.
    assert (v1 = v) as -> by congruence.
    apply wlp_bind, wlp_construct_at. intros b w2 Hb Hi Hlt Hw2.
    apply wlp_set_self. intros ? _.
    pose proof Hw2 as (Ho2 & Ha2 & Ht2 & Hsh2 & Hfr2).
    apply (HQ v (Vec (m_Data v) (wrap (m_Size v + 1)) (m_Capacity v))); [done| |].
    + cbn. by rewrite Ho2.
    + left. cbn. by split_and!.
Qed.

(** the blocks other than the vector's own are the same before and after a
    [push_back] that completes *)
Lemma push_back_other_blocks this x w w' v v' :
  objs w !! this = Some v → objs w' !! this = Some v' →
  blocks w !! m_Data v = None ∨ m_Data v ≠ nullptr →
  push_back this x w = Ok tt w' →
  delete (m_Data v') (blocks w') = delete (m_Data v) (blocks w).
Proof.
  intros Hv Hv' Hp Hrun.
  enough (wlp (push_back this x) w (λ _ w', ∀ v',
    objs w' !! this = Some v' →
    delete (m_Data v') (blocks w') = delete (m_Data v) (blocks w))) as Hwlp
    by exact (wlp_run _ _ _ _ _ Hwlp Hrun v' Hv').
  apply wlp_push_back_store. intros v0 v1 w1 Hv0 Ho1 Hcase v2 Hv2.
  assert (v0 = v) as -> by congruence.
  rewrite Ho1, lookup_insert_eq in Hv2. injection Hv2 as <-.
  apply map_eq. intros r. rewrite !lookup_delete.
  destruct Hcase as [(_ & Hd & _ & _ & _ & Hfr)|(_ & Hq0 & Hpq & Hq & Hfr & Hgone & _)].
  - rewrite Hd. case_decide; [done|]. by apply Hfr.
  - case_decide as E1; case_decide as E2.
    + congruence.
    + by rewrite <- E1, Hq.
    + rewrite <- E2. by apply Hgone.
    + apply Hfr. intros [?|?]; congruence.
Qed.

End Store.

(** ** Destruction, and the pairing of acquisitions and releases *)

Section Destruction.

Context {T : Type} `{ElemTraits T}.

Implicit Types w : world T.
Implicit Types xs : list T.

Lemma wp_dtor this v xs w :
  holds w this v xs →
  wp (dtor this) w (λ _ w',
    objs w' = delete this (objs w) ∧
    blocks w' = delete (m_Data v) (blocks w) ∧
    avail w' = avail w + m_Capacity v * sizeof_T ∧
    trace w' = trace w ++ release_events (m_Data v) (m_Capacity v)).
Proof.
  intros (Hv & Hsize & Hle & Hst). unfold dtor.
  apply wp_bind. eapply wp_mono.
  { apply (wp_nuke this v w Hv). rewrite Hsize, Nat2Z.id.
    by eapply storage_at_live_upto. }
  intros [] w1 (Hc1 & _). pose proof Hc1 as (Ho1 & Ha1 & Ht1 & _ & Hfr1).
  apply wp_bind. eapply wp_self; [by rewrite Ho1|].
  apply wp_bind. destruct (decide (m_Data v ≠ nullptr)) as [Hp|Hp].
  - destruct (storage_at_cases _ _ _ _ Hst) as [(_&?&_)|(b&Hb&_&Hby&_)]; [done|].
    destruct (cells_changed_block _ _ _ _ _ Hc1 Hb) as (b1 & Hb1 & Hby1 & _).
    apply wp_deallocate; [done| |by right; eexists].
    intros b' _ Hb'. assert (b' = b1) as -> by congruence.
    unfold wp, end_lifetime; cbn. split_and!.
    + by rewrite Ho1.
    + apply map_eq. intros r. rewrite !lookup_delete. case_decide; [done|].
      apply Hfr1. congruence.
    + rewrite Ha1, Hby1, Hby. done.
    + unfold release_events. rewrite decide_False by done. by rewrite Ht1.
  - assert (Hnull : m_Data v = nullptr) by (by destruct (decide (m_Data v = nullptr))).
    destruct (storage_at_cases _ _ _ _ Hst) as [(Hnone&_&Hcap&_)|(b&_&?&_)]; [|done].
    apply wp_ret. unfold wp, end_lifetime; cbn. split_and!.
    + by rewrite Ho1.
    + apply map_eq. intros r. rewrite lookup_delete. case_decide as E.
      * rewrite <- E. by eapply cells_changed_None.
      * apply Hfr1. congruence.
    + rewrite Ha1, Hcap. lia.
    + unfold release_events. rewrite decide_True by done. by rewrite Ht1, app_nil_r.
Qed.

(** X2. The destructor of a vector that holds live elements completes: the
    vector object is gone, its block is returned to the store (every other
    block is untouched and the bytes of the block are available again), and
    the one release in the trace passes the size and alignment of the block
    itself; a vector without storage releases nothing. *)
Theorem destructor_releases_storage this w v xs :
  holds w this v xs →
  ∃ w',
    dtor this w = Ok tt w' ∧
    objs w' = delete this (objs w) ∧
    blocks w' = delete (m_Data v) (blocks w) ∧
    avail w' = avail w + m_Capacity v * sizeof_T ∧
    trace w' = trace w ++
      match blocks w !! m_Data v with
      | Some b => [EvDelete (m_Data v) (blk_bytes b) (blk_align b)]
      | None => []
      end.
Proof.
  intros Hh. pose proof sizeof_T_pos as Hs.
  destruct (wp_inv _ _ _ (wp_dtor this v xs w Hh)) as ([] & w' & Hrun & Ho & Hb & Ha & Ht).
  exists w'. split_and!; try done.
  rewrite Ht. f_equal. unfold release_events.
  destruct Hh as (_ & _ & _ & Hst).
  destruct (storage_at_cases _ _ _ _ Hst) as [(->&->&_)|(b&->&Hp&Hby&Hsm&Hal&Hlen&_)].
  - by rewrite decide_True.
  - rewrite decide_False by done. rewrite Hby, Hal, wrap_small; [done|]. nia.
Qed.

Lemma acquired_snoc tr ev p :
  acquired (tr ++ [ev]) p =
    match ev with
    | EvNew q bytes align => if decide (q = p) then Some (bytes, align) else acquired tr p
    | EvDelete _ _ _ => acquired tr p
    end.
Proof.
  induction tr as [|e tr IH]; cbn.
  - destruct ev; [by case_decide | done].
  - destruct e; rewrite IH; destruct ev; try case_decide; try done;
      by destruct (acquired tr p).
Qed.

Lemma releases_match_snoc seen tr ev :
  releases_match seen (tr ++ [ev]) =
    releases_match seen tr &&
    match ev with
    | EvNew _ _ _ => true
    | EvDelete p bytes align => bool_decide (acquired (seen ++ tr) p = Some (bytes, align))
    end.
Proof.
  revert seen. induction tr as [|e tr IH]; intros seen; cbn.
  - rewrite app_nil_r. destruct ev; cbn; by rewrite ?andb_true_r.
  - destruct e; cbn; rewrite IH, <- app_assoc; cbn; by rewrite ?andb_assoc.
Qed.

Lemma trace_agrees_shape w w' :
  shape w' = shape w → trace w' = trace w → trace_agrees w → trace_agrees w'.
Proof.
  intros Hs Ht Hag p b' Hb'.
  assert (Hp : shape w !! p = Some (blk_bytes b', blk_align b', length (blk_cells b'))).
  { rewrite <- Hs, shape_lookup, Hb'. done. }
  rewrite shape_lookup in Hp. destruct (blocks w !! p) as [b|] eqn:Hb; [|done].
  cbn in Hp. injection Hp as <- <- _. rewrite Ht. by apply Hag.
Qed.

(** releasing the block of a vector by [m_Capacity] matches its acquisition *)
Lemma release_by_capacity_matches w p cap xs extra :
  storage_at w p cap xs → trace_agrees w →
  releases_match [] (trace w ++ extra) = true →
  acquired (trace w ++ extra) p = acquired (trace w) p →
  releases_match [] ((trace w ++ extra) ++ release_events p cap) = true.
Proof.
  intros Hst Hag Hm Hacq. pose proof sizeof_T_pos as Hs. unfold release_events.
  case_decide as Hnull; [by rewrite app_nil_r|].
  rewrite releases_match_snoc, Hm. cbn. apply bool_decide_eq_true.
  destruct (storage_at_cases _ _ _ _ Hst) as [(_&?&_)|(b&Hb&_&Hby&Hsm&Hal&Hlen&_)]; [done|].
  rewrite Hacq, (Hag _ _ Hb), Hby, Hal, wrap_small; [done|]. nia.
Qed.

Lemma push_back_keeps_releases this w v xs x w' :
  holds w this v xs → trace_agrees w → releases_match [] (trace w) = true →
  push_back this x w = Ok tt w' →
  trace_agrees w' ∧ releases_match [] (trace w') = true.
Proof.
  intros Hh Hag Hm. pose proof Hh as (Hv & _ & _ & Hst).
  - intros Hrun.
    enough (wlp (push_back this x) w (λ _ w',
      trace_agrees w' ∧ releases_match [] (trace w') = true)) as Hwlp
      by exact (wlp_run _ _ _ _ _ Hwlp Hrun).
    apply wlp_push_back_store. intros v0 v1 w1 Hv0 Ho1 Hcase.
    assert (v0 = v) as -> by congruence.
    destruct Hcase as [(_ & _ & Ht & _ & Hsh & _)
                      |(_ & Hq0 & Hpq & Hq & Hfr & Hgone & Hsq & Ht)].
    { split; [by eapply trace_agrees_shape | by rewrite Ht]. }
    set (q := m_Data v1) in *. set (p := m_Data v) in *.
    set (ev := EvNew q (wrap (new_capacity (m_Capacity v) * sizeof_T)) alignof_T) in *.
    assert (Hacq : ∀ r, acquired (trace w1) r =
                        if decide (q = r) then Some (wrap (new_capacity (m_Capacity v) * sizeof_T), alignof_T)
                        else acquired (trace w) r).
    { intros r. rewrite Ht, app_assoc. unfold release_events.
      case_decide; [rewrite app_nil_r|]; rewrite ?acquired_snoc; cbn;
        by rewrite ?acquired_snoc. }
    split.
    + intros r b' Hb'. rewrite Hacq. case_decide as E.
      * subst r. rewrite shape_lookup, Hb' in Hsq. cbn in Hsq.
        by injection Hsq as -> -> _.
      * destruct (decide (r = p)) as [->|Hrp].
        { rewrite Hgone in Hb'; [done|].
          destruct (storage_at_cases _ _ _ _ Hst) as [(?&_)|(?&?&?&_)]; auto. }
        rewrite Hfr in Hb' by (intros [?|?]; congruence). by apply Hag.
    + rewrite Ht, app_assoc.
      eapply release_by_capacity_matches; [exact Hst | done | |].
      * by rewrite releases_match_snoc, Hm.
      * rewrite acquired_snoc. cbn. by rewrite decide_False.
Qed.

Lemma dtor_keeps_releases this w v xs w' :
  holds w this v xs → trace_agrees w → releases_match [] (trace w) = true →
  dtor this w = Ok tt w' →
  trace_agrees w' ∧ releases_match [] (trace w') = true.
Proof.
  intros Hh Hag Hm. pose proof Hh as (Hv & _ & _ & Hst).
  - intros Hrun.
    destruct (wp_inv _ _ _ (wp_dtor this v xs w Hh))
      as ([] & w1 & Hrun1 & Ho & Hb & Ha & Ht).
    assert (w1 = w') as -> by congruence.
    split.
    + intros r b' Hb'. rewrite Hb, lookup_delete in Hb'. case_decide; [done|].
      rewrite Ht. unfold release_events.
      case_decide; [rewrite app_nil_r | rewrite acquired_snoc]; by apply Hag.
    + rewrite Ht. rewrite <- (app_nil_r (trace w)) at 1.
      eapply release_by_capacity_matches; [exact Hst | done | |];
        by rewrite app_nil_r.
Qed.

(** X3. On a vector that holds live elements, in a world whose trace pairs
    every release with its acquisition, a [push_back] that completes (with
    or without growth) and the destructor leave a trace that still does:
    [grow] and the destructor release by [m_Capacity]. *)
Theorem releases_stay_matched this w v xs :
  holds w this v xs → trace_agrees w → releases_match [] (trace w) = true →
  (∀ x w', push_back this x w = Ok tt w' →
     trace_agrees w' ∧ releases_match [] (trace w') = true) ∧
  (∀ w', dtor this w = Ok tt w' →
     trace_agrees w' ∧ releases_match [] (trace w') = true).
Proof.
  intros Hh Hag Hm. split.
  - intros x w'. by apply (push_back_keeps_releases this w v xs).
  - intros w'. by apply (dtor_keeps_releases this w v xs).
Qed.

Lemma push_all_keeps_store this ys : ∀ w v xs,
  holds w this v xs →
  (3 * (m_Size v + Z.of_nat (length ys)) + 4) * sizeof_T ≤ avail w + m_Capacity v * sizeof_T →
  (3 * (m_Size v + Z.of_nat (length ys)) + 4) * sizeof_T < size_t_modulus →
  wp (push_all this ys) w (λ _ w', ∃ v',
    holds w' this v' (xs ++ ys) ∧
    objs w' = <[this := v']> (objs w) ∧
    delete (m_Data v') (blocks w') = delete (m_Data v) (blocks w) ∧
    avail w' + m_Capacity v' * sizeof_T = avail w + m_Capacity v * sizeof_T ∧
    (trace_agrees w → releases_match [] (trace w) = true →
     trace_agrees w' ∧ releases_match [] (trace w') = true)).
Proof.
  pose proof sizeof_T_pos as Hs.
  induction ys as [|y ys IH]; intros w v xs Hh Hmem Hsmall.
  - apply wp_ret. exists v. rewrite app_nil_r. split_and!; try done.
    destruct Hh as (Hv & _). by rewrite insert_id.
  - cbn [push_all]. cbn [length] in Hmem, Hsmall.
    pose proof (holds_capacity_small _ _ _ _ Hh) as [[Hs0 Hle] _].
    destruct (wp_inv _ _ _ (wp_push_back this v xs y w Hh
      ltac:(intros ?; unfold spec_new_capacity; case_decide; nia)))
      as ([] & w1 & Hrun1 & v1 & Hh1 & Ho1 & Hs1 & Hc1 & _ & Hav1).
    apply wp_bind. eapply wp_run; [exact Hrun1|].
    eapply wp_mono.
    { apply (IH w1 v1 (xs ++ [y]) Hh1).
      - rewrite Hs1, Hav1. nia.
      - rewrite Hs1. nia. }
    intros [] w' (v' & Hh' & Ho' & Hb' & Hav' & Htr'). exists v'.
    rewrite <- app_assoc in Hh'. split_and!; try done.
    + by rewrite Ho', Ho1, insert_insert_eq.
    + rewrite Hb'. destruct Hh as (Hv & _ & _ & Hst). destruct Hh1 as (Hv1 & _).
      eapply push_back_other_blocks; try done.
      destruct (storage_at_cases _ _ _ _ Hst) as [(?&_)|(?&?&?&_)]; auto.
    + rewrite Hav', Hav1. lia.
    + intros Hag Hm.
      destruct (push_back_keeps_releases this w v xs y w1 Hh Hag Hm Hrun1).
      by apply Htr'.
Qed.

(** X4. The whole life of a vector returns the store to what it was:
    default construction, any number of [push_back] calls and destruction
    complete (given the memory for the growth), after which the objects,
    the blocks and the available bytes are those before construction, and
    a trace that paired every release with its acquisition still does. *)
Theorem lifetime_returns_store this w xs :
  objs w !! this = None → blocks w !! nullptr = None →
  (3 * Z.of_nat (length xs) + 4) * sizeof_T ≤ avail w →
  (3 * Z.of_nat (length xs) + 4) * sizeof_T < size_t_modulus →
  ∃ w',
    (default_ctor this ;; push_all this xs ;; dtor this) w = Ok tt w' ∧
    objs w' = objs w ∧ blocks w' = blocks w ∧ avail w' = avail w ∧
    (trace_agrees w → releases_match [] (trace w) = true →
     trace_agrees w' ∧ releases_match [] (trace w') = true).
Proof.
  intros Hnew Hnull Hmem Hsmall.
  set (w0 := World (<[this := Vec nullptr 0 0]> (objs w)) (blocks w) (avail w) (trace w)).
  assert (Hctor : default_ctor this w = Ok tt w0).
  { unfold default_ctor, begin_lifetime. by rewrite Hnew. }
  assert (Hh0 : holds w0 this (Vec nullptr 0 0) []).
  { unfold holds, storage_at; cbn. rewrite lookup_insert_eq, Hnull. by split_and!. }
  destruct (wp_inv _ _ _ (push_all_keeps_store this xs w0 _ [] Hh0
              ltac:(cbn; lia) ltac:(cbn; lia)))
    as ([] & w1 & Hrun1 & v1 & Hh1 & Ho1 & Hb1 & Hav1 & Htr1).
  destruct (wp_inv _ _ _ (wp_dtor this v1 _ w1 Hh1))
    as ([] & w2 & Hrun2 & Ho2 & Hb2 & Hav2 & Ht2).
  exists w2. split_and!.
  - unfold mbind, M_bind. by rewrite Hctor, Hrun1, Hrun2.
  - rewrite Ho2, Ho1. cbn. rewrite delete_insert_eq, delete_insert_eq.
    by apply delete_id.
  - rewrite Hb2, Hb1. cbn. by apply delete_id.
  - cbn in Hav1. lia.
  - intros Hag Hm. destruct (Htr1 Hag Hm) as [Hag1 Hm1].
    by apply (dtor_keeps_releases this w1 v1 _ _ Hh1 Hag1 Hm1).
Qed.

End Destruction.

(** ** Capacity, and what stays where it is *)

Section Capacity.

Context {T : Type} `{ElemTraits T}.

Implicit Types w : world T.
Implicit Types xs ys : list T.

(** X5. While the elements fit the capacity, [push_back] needs nothing from
    the store: the calls complete whatever memory is left, the storage
    pointer and the capacity stay, and nothing is acquired or released, so
    references into the block stay valid. *)
Theorem push_back_within_capacity this ys : ∀ w v xs,
  holds w this v xs →
  m_Size v + Z.of_nat (length ys) ≤ m_Capacity v →
  ∃ w',
    push_all this ys w = Ok tt w' ∧
    holds w' this (Vec (m_Data v) (m_Size v + Z.of_nat (length ys)) (m_Capacity v))
      (xs ++ ys) ∧
    trace w' = trace w ∧ avail w' = avail w ∧ shape w' = shape w.
Proof.
  induction ys as [|y ys IH]; intros w v xs Hh Hfit.
  - exists w. cbn. rewrite app_nil_r, Z.add_0_r. split_and!; try done. by destruct v.
  - cbn [length] in Hfit.
    pose proof (holds_capacity_small _ _ _ _ Hh) as [[Hs0 _] _].
    destruct (wp_inv _ _ _ (wp_push_back this v xs y w Hh ltac:(intros ?; lia)))
      as ([] & w1 & Hrun1 & v1 & Hh1 & _ & Hs1 & Hc1 & Hd1 & _).
    rewrite decide_False in Hc1 by lia. specialize (Hd1 ltac:(lia)).
    assert (Hstore : trace w1 = trace w ∧ avail w1 = avail w ∧ shape w1 = shape w).
    { enough (wlp (push_back this y) w (λ _ w1,
        trace w1 = trace w ∧ avail w1 = avail w ∧ shape w1 = shape w)) as Hwlp
        by exact (wlp_run _ _ _ _ _ Hwlp Hrun1).
      apply wlp_push_back_store. intros v0 v2 w2 Hv0 _ Hcase.
      assert (v0 = v) as -> by (destruct Hh as (? & _); congruence).
      destruct Hcase as [(_ & _ & ? & ? & ? & _)|(? & _)]; [done | lia]. }
    destruct Hstore as (Ht1 & Ha1 & Hsh1).
    destruct (IH w1 v1 (xs ++ [y]) Hh1 ltac:(lia)) as (w' & Hrun & Hh' & Ht & Ha & Hsh).
    exists w'. split_and!.
    + cbn [push_all]. unfold mbind, M_bind. by rewrite Hrun1.
    + rewrite <- app_assoc in Hh'. rewrite Hd1, Hs1, Hc1 in Hh'.
      cbn [length].
      replace (m_Size v + Z.of_nat (S (length ys)))
        with (m_Size v + 1 + Z.of_nat (length ys)) by lia. exact Hh'.
    + congruence.
    + congruence.
    + congruence.
Qed.

(** X6. [pop_back] undoes [push_back]: the two calls in a row complete and
    leave the elements and the size as they were; the capacity is the old
    one or, if the push had to grow, the new larger one, and without growth
    the members are exactly those before. *)
Theorem pop_back_undoes_push_back this w v xs x :
  holds w this v xs →
  (m_Size v = m_Capacity v →
     spec_new_capacity (m_Capacity v) * sizeof_T ≤ avail w ∧
     spec_new_capacity (m_Capacity v) * sizeof_T < size_t_modulus) →
  ∃ w' v',
    (push_back this x ;; pop_back this) w = Ok tt w' ∧
    holds w' this v' xs ∧
    m_Size v' = m_Size v ∧
    m_Capacity v ≤ m_Capacity v' ∧
    (m_Size v < m_Capacity v → v' = v).
Proof.
  intros Hh Hmem.
  pose proof (holds_capacity_small _ _ _ _ Hh) as [[Hs0 Hle] _].
  destruct (wp_inv _ _ _ (wp_push_back this v xs x w Hh Hmem))
    as ([] & w1 & Hrun1 & v1 & Hh1 & _ & Hs1 & Hc1 & Hd1 & _).
  destruct (wp_inv _ _ _ (wp_pop_back this v1 xs x w1 Hh1))
    as ([] & w2 & Hrun2 & Hh2 & _).
  cbn zeta in Hh2.
  exists w2, (Vec (m_Data v1) (m_Size v1 - 1) (m_Capacity v1)). split_and!; cbn.
  - unfold mbind, M_bind. by rewrite Hrun1.
  - done.
  - lia.
  - rewrite Hc1. case_decide; [|lia]. unfold spec_new_capacity. case_decide; lia.
  - intros Hlt. rewrite Hc1, decide_False, Hd1, Hs1 by lia.
    destruct v; cbn. f_equal. lia.
Qed.

(** X7. Popping [k] elements, [k] at most the size, completes and leaves
    the first [size - k] elements in place, with the storage and capacity
    it had and nothing acquired or released; one [pop_back] more than there
    are elements ends in [out_of_range] on the emptied vector. *)
Theorem pop_n_keeps_prefix this k : ∀ w v xs,
  holds w this v xs → (k ≤ length xs)%nat →
  (∃ w',
     pop_n this k w = Ok tt w' ∧
     holds w' this (Vec (m_Data v) (m_Size v - Z.of_nat k) (m_Capacity v))
       (take (length xs - k) xs) ∧
     trace w' = trace w ∧ avail w' = avail w) ∧
  (k = length xs →
   ∃ w', pop_n this (S k) w = Throw out_of_range w' ∧
         holds w' this (Vec (m_Data v) 0 (m_Capacity v)) []).
Proof.
  induction k as [|k IH]; intros w v xs Hh Hk.
  - split.
    + exists w. cbn. rewrite Nat.sub_0_r, take_ge, Z.sub_0_r by done.
      split_and!; try done. by destruct v.
    + intros Hnil. destruct xs; [|done]. exists w.
      destruct Hh as (Hv & Hsz & Hle & Hst). cbn in Hsz.
      assert (Hthrow : pop_back this w = Throw out_of_range w).
      { unfold pop_back, mbind, M_bind, self. rewrite Hv.
        by destruct (decide (m_Size v = 0)). }
      split.
      * cbn [pop_n]. unfold mbind, M_bind. by rewrite Hthrow.
      * unfold holds. split_and!; cbn; try done; [|lia]. by destruct v; cbn in *; subst.
  - destruct (exists_last (l:=xs)) as (init & x & ->).
    { intros ->. cbn in Hk. lia. }
    rewrite length_app in Hk. cbn in Hk.
    destruct (wp_inv _ _ _ (wp_pop_back this v init x w Hh))
      as ([] & w1 & Hrun1 & Hh1 & _ & _ & Ha1 & Ht1).
    cbn zeta in Hh1.
    destruct (IH w1 _ init Hh1 ltac:(lia)) as [(w' & Hrun & Hh' & Ht & Ha) Hlast].
    cbn in Hh', Hlast. split.
    + exists w'. split_and!.
      * cbn [pop_n]. unfold mbind, M_bind. by rewrite Hrun1.
      * rewrite length_app. cbn.
        replace (length init + 1 - S k)%nat with (length init - k)%nat by lia.
        rewrite take_app_le by lia.
        replace (m_Size v - Z.of_nat (S k)) with (m_Size v - 1 - Z.of_nat k) by lia.
        done.
      * congruence.
      * congruence.
    + intros Hall. rewrite length_app in Hall. cbn in Hall.
      destruct Hlast as (w'' & Hrun' & Hh''); [lia|].
      exists w''. split; [|done].
      cbn [pop_n] in *. unfold mbind, M_bind in *. by rewrite Hrun1.
Qed.

(** X8. The observers read the elements the vector holds: [size()] is
    their number, [empty()] tells whether there is none, and [operator[]]
    at an index below the size returns the element there and leaves the
    world as it is, while at any index from the size on it returns no
    element at all (the assertion fails). *)
Theorem observers_read_contents this w v xs :
  holds w this v xs →
  size this w = Ok (Z.of_nat (length xs)) w ∧
  empty this w = Ok (bool_decide (xs = [])) w ∧
  ∀ i, 0 ≤ i →
    subscript this i w =
      match xs !! Z.to_nat i with
      | Some x => Ok x w
      | None => Fault out_of_bounds
      end.
Proof.
  intros Hh. split; [by eapply size_holds|]. split.
  - destruct Hh as (Hv & Hsz & _). unfold empty, mbind, M_bind, self. rewrite Hv.
    cbn. do 2 f_equal. rewrite Hsz. apply bool_decide_ext.
    destruct xs; cbn; split; (done || lia).
  - intros i Hi. destruct (xs !! Z.to_nat i) as [x|] eqn:Hx.
    + rewrite <- (Z2Nat.id i) at 1 by done. by eapply subscript_holds.
    + apply lookup_ge_None in Hx. destruct Hh as (Hv & Hsz & _).
      unfold subscript, mbind, M_bind, self. rewrite Hv.
      case_decide; [lia | done].
Qed.

(** X9. Assignment through [operator[]] at an index below the size
    completes and replaces that element alone: the vector then holds the
    updated sequence with the members it had, [operator[]] reads the new
    value back, and nothing is acquired or released; from the size on the
    assignment has no effect at all (the assertion fails). *)
Theorem subscript_assign_updates this w v xs :
  holds w this v xs →
  (∀ i x, (i < length xs)%nat →
     ∃ w',
       subscript_assign this (Z.of_nat i) x w = Ok tt w' ∧
       holds w' this v (<[i := x]> xs) ∧
       subscript this (Z.of_nat i) w' = Ok x w' ∧
       trace w' = trace w ∧ avail w' = avail w) ∧
  (∀ j x, Z.of_nat (length xs) ≤ j →
     subscript_assign this j x w = Fault out_of_bounds).
Proof.
  intros Hh. pose proof Hh as (Hv & Hsz & Hle & Hst). split.
  - intros i x Hi.
    destruct (lookup_lt_is_Some_2 xs i Hi) as [old Hold].
    destruct (storage_at_cases _ _ _ _ Hst)
      as [(_&_&_&->)|(b&Hb&Hp&Hby&Hsm&Hal&Hlen&Htake)]; [done|].
    assert (Hcell : blk_cells b !! i = Some (Some old)) by (by eapply take_live).
    set (w' := World (objs w)
      (<[m_Data v := Block (blk_bytes b) (blk_align b) (<[i := Some x]> (blk_cells b))]> (blocks w))
      (avail w) (trace w)).
    assert (Hrun : subscript_assign this (Z.of_nat i) x w = Ok tt w').
    { unfold subscript_assign, mbind, M_bind, self. rewrite Hv.
      case_decide; [|lia]. unfold assign_at, with_cell. rewrite Hb.
      case_decide; [|lia]. by rewrite Nat2Z.id, Hcell. }
    assert (Hh' : holds w' this v (<[i := x]> xs)).
    { unfold holds, storage_at; cbn. rewrite lookup_insert_eq. cbn.
      rewrite !length_insert. split_and!; try done.
      rewrite take_insert_lt by done. rewrite Htake.
      by rewrite list_fmap_insert. }
    exists w'. split_and!; try done.
    eapply subscript_holds; [exact Hh'|]. by apply list_lookup_insert_eq.
  - intros j x Hj. unfold subscript_assign, mbind, M_bind, self. rewrite Hv.
    case_decide; [lia | done].
Qed.

End Capacity.

(** ** More on capacity, copies and moved-from vectors *)

Section Composition.

Context {T : Type} `{ElemTraits T}.

Implicit Types w : world T.
Implicit Types xs ys : list T.

Lemma push_all_capacity this ys : ∀ w v xs,
  holds w this v xs →
  (3 * (m_Size v + Z.of_nat (length ys)) + 4) * sizeof_T ≤ avail w + m_Capacity v * sizeof_T →
  (3 * (m_Size v + Z.of_nat (length ys)) + 4) * sizeof_T < size_t_modulus →
  (m_Capacity v = 0 ∨
   m_Capacity v ≤ Z.max 4 (2 * m_Size v - 2) ∧ ∃ k : nat, m_Capacity v = 4 * 2 ^ Z.of_nat k) →
  wp (push_all this ys) w (λ _ w', ∃ v',
    holds w' this v' (xs ++ ys) ∧
    (m_Capacity v' = 0 ∨
     m_Capacity v' ≤ Z.max 4 (2 * m_Size v' - 2) ∧
     ∃ k : nat, m_Capacity v' = 4 * 2 ^ Z.of_nat k)).
Proof.
  pose proof sizeof_T_pos as Hs.
  induction ys as [|y ys IH]; intros w v xs Hh Hmem Hsmall Hcap.
  - apply wp_ret. exists v. by rewrite app_nil_r.
  - cbn [push_all]. cbn [length] in Hmem, Hsmall.
    pose proof (holds_capacity_small _ _ _ _ Hh) as [[Hs0 Hle] _].
    apply wp_bind. eapply wp_mono.
    { apply (wp_push_back this v xs y w Hh). intros Hfull.
      unfold spec_new_capacity. case_decide; nia. }
    intros [] w1 (v1 & Hh1 & _ & Hs1 & Hc1 & _ & Hav1).
    eapply wp_mono.
    { apply (IH w1 v1 (xs ++ [y]) Hh1).
      - rewrite Hs1, Hav1. nia.
      - rewrite Hs1. nia.
      - right. rewrite Hc1, Hs1. unfold spec_new_capacity.
        destruct Hcap as [Hz|[Hbound [k Hk]]].
        + rewrite Hz in *. assert (m_Size v = 0) as -> by lia.
          rewrite !decide_True by done. split; [lia|]. by exists O.
        + assert (0 < 2 ^ Z.of_nat k) by (apply Z.pow_pos_nonneg; lia).
          case_decide as Hfull.
          * rewrite decide_False by lia. split; [lia|]. exists (S k).
            rewrite Hk, Nat2Z.inj_succ, Z.pow_succ_r by lia. lia.
          * split; [lia|]. by exists k. }
    intros [] w' (v' & Hh' & Hcap'). exists v'.
    rewrite <- app_assoc in Hh'. done.
Qed.

(** X10. After any number [N >= 1] of [push_back] calls on an empty vector
    the capacity is 4 times a power of two, at least [N] and at most
    [max 4 (2N - 2)]: doubling never reserves more than twice what is
    used, beyond the first block of 4. *)
Theorem capacity_is_bounded this w xs :
  holds w this (Vec nullptr 0 0) [] → xs ≠ [] →
  (3 * Z.of_nat (length xs) + 4) * sizeof_T ≤ avail w →
  (3 * Z.of_nat (length xs) + 4) * sizeof_T < size_t_modulus →
  ∃ w' c,
    push_all this xs w = Ok tt w' ∧
    capacity_of w' this = Some c ∧
    Z.of_nat (length xs) ≤ c ≤ Z.max 4 (2 * Z.of_nat (length xs) - 2) ∧
    ∃ k : nat, c = 4 * 2 ^ Z.of_nat k.
Proof.
  intros Hh Hne Hmem Hsmall.
  destruct (wp_inv _ _ _ (push_all_capacity this xs w _ [] Hh
              ltac:(cbn; lia) ltac:(cbn; lia) ltac:(by left)))
    as ([] & w' & Hrun & v' & Hh' & Hcap).
  cbn [app] in Hh'. pose proof Hh' as (Hv & Hsz & Hle & _).
  assert (0 < length xs)%nat by (destruct xs; [done | cbn; lia]).
  exists w', (m_Capacity v'). split_and!.
  - done.
  - unfold capacity_of. by rewrite Hv.
  - lia.
  - destruct Hcap as [?|[? _]]; lia.
  - destruct Hcap as [?|[_ ?]]; [lia | done].
Qed.

(** X11. [pop_back], [clear] and element assignment never reach the
    allocator, from whatever state they complete: nothing is acquired or
    released, every block keeps its size, and the vector keeps its storage
    pointer and its capacity. *)
Theorem no_growth_without_insertion this (m : mutation T) w w' :
  without_growth m → mutate this m w = Ok tt w' →
  trace w' = trace w ∧ avail w' = avail w ∧ shape w' = shape w ∧
  ∃ v v', objs w !! this = Some v ∧ objs w' !! this = Some v' ∧
          m_Data v' = m_Data v ∧ m_Capacity v' = m_Capacity v.
Proof.
  intros Hm Hrun.
  set (Q := λ (_ : unit) (w' : world T),
    trace w' = trace w ∧ avail w' = avail w ∧ shape w' = shape w ∧
    ∃ v v', objs w !! this = Some v ∧ objs w' !! this = Some v' ∧
            m_Data v' = m_Data v ∧ m_Capacity v' = m_Capacity v).
  enough (wlp (mutate this m) w Q) as Hwlp by exact (wlp_run _ _ _ _ _ Hwlp Hrun).
  destruct m as [x| | |n|i x]; try done; cbn [mutate].
  - unfold pop_back. apply wlp_bind, wlp_self. intros v Hv.
    destruct (decide (m_Size v = 0)); [done|].
    apply wlp_bind, wlp_set_self. intros ? _.
    apply wlp_destroy_at. intros w1 (Ho & Ha & Ht & Hsh & _). unfold Q.
    split_and!; try done.
    exists v, (Vec (m_Data v) (wrap (m_Size v - 1)) (m_Capacity v)).
    split_and!; try done. rewrite Ho. cbn. apply lookup_insert_eq.
  - apply wlp_clear. intros v w1 Hv (Ho & Ha & Ht & Hsh & _). unfold Q.
    split_and!; try done. exists v, v. by rewrite Ho.
  - apply wlp_subscript_assign. intros v w1 Hv (Ho & Ha & Ht & Hsh & _). unfold Q.
    split_and!; try done. exists v, v. by rewrite Ho.
Qed.

Lemma dtor_frame a b w w' va xs vb ys :
  a ≠ b → holds w a va xs → holds w b vb ys →
  m_Data va ≠ m_Data vb ∨ blocks w !! m_Data vb = None →
  dtor a w = Ok tt w' →
  holds w' b vb ys.
Proof.
  intros Hab Ha (Hvb & Hsz & Hle & Hst) Hsep Hrun.
  destruct (wp_inv _ _ _ (wp_dtor a va xs w Ha)) as ([] & w1 & Hrun1 & Ho & Hb & _).
  assert (w1 = w') as -> by congruence.
  unfold holds. rewrite Ho, lookup_delete_ne by done. split_and!; try done.
  apply (storage_at_same w); [|done]. rewrite Hb, lookup_delete.
  case_decide as E; [|done]. destruct Hsep as [?|Hnone]; [done|]. by rewrite Hnone.
Qed.

Lemma copy_ctor_store this other w w1 v :
  objs w !! other = Some v → copy_ctor this other w = Ok tt w1 →
  avail w1 = avail w - wrap (m_Capacity v * sizeof_T) ∧
  ∃ q, trace w1 = trace w ++ [EvNew q (wrap (m_Capacity v * sizeof_T)) alignof_T].
Proof.
  intros Hv Hrun.
  enough (wlp (copy_ctor this other) w (λ _ w1,
    avail w1 = avail w - wrap (m_Capacity v * sizeof_T) ∧
    ∃ q, trace w1 = trace w ++ [EvNew q (wrap (m_Capacity v * sizeof_T)) alignof_T]))
    as Hwlp by exact (wlp_run _ _ _ _ _ Hwlp Hrun).
  unfold copy_ctor. apply wlp_bind, wlp_self. intros o Ho.
  assert (o = v) as -> by congruence.
  apply wlp_bind, wlp_allocate. intros q Hq0 Hq _.
  apply wlp_bind, wlp_begin_lifetime. cbn. intros Hnew.
  apply wlp_transfer.
  { intros i w2 Q1 HQ1. apply wlp_load. intros x. apply HQ1, cells_changed_refl. }
  intros w3 (_ & Ha & Ht & _). rewrite Ha, Ht. cbn. split; [done|]. by exists q.
Qed.

(** X12. A copy and its source have separate lifetimes: after copy
    construction, destroying either of the two completes, releases only
    that vector's block and leaves the other one holding its elements;
    destroying the copy gives back exactly the bytes the copy took. *)
Theorem copy_outlives_source this other w v xs :
  holds w other v xs → objs w !! this = None →
  m_Capacity v * sizeof_T ≤ avail w →
  ∃ w1 q,
    copy_ctor this other w = Ok tt w1 ∧
    (∃ w2, dtor this w1 = Ok tt w2 ∧ holds w2 other v xs ∧
           objs w2 = objs w ∧ avail w2 = avail w) ∧
    (∃ w2, dtor other w1 = Ok tt w2 ∧
           holds w2 this (Vec q (m_Size v) (m_Capacity v)) xs ∧
           objs w2 !! other = None).
Proof.
  intros Hh Hnew Hmem.
  assert (Hne : this ≠ other) by (destruct Hh as (? & _); congruence).
  destruct (wp_inv _ _ _ (wp_copy_ctor this other v xs w Hh Hnew Hmem))
    as ([] & w1 & Hrun & q & Hhq & Hhp & Hq0 & Hqp & Ho).
  exists w1, q. split; [done|]. split.
  - destruct (wp_inv _ _ _ (wp_dtor this _ xs w1 Hhq)) as ([] & w2 & Hrun2 & Ho2 & Hb2 & Ha2 & _).
    exists w2. split_and!; try done.
    + eapply (dtor_frame this other); try done. left. cbn. congruence.
    + rewrite Ho2, Ho, delete_insert_eq. by apply delete_id.
    + destruct (copy_ctor_store this other w w1 v) as [Ha1 _]; [apply Hh | done |].
      pose proof (holds_capacity_small _ _ _ _ Hh) as [[? ?] _].
      pose proof sizeof_T_pos.
      assert (m_Capacity v * sizeof_T < size_t_modulus).
      { destruct Hh as (_ & _ & _ & Hst).
        destruct (storage_at_cases _ _ _ _ Hst) as [(_&_&->&_)|(b&_&_&_&?&_)]; done. }
      rewrite wrap_small in Ha1 by nia. cbn in Ha2. lia.
  - destruct (wp_inv _ _ _ (wp_dtor other v xs w1 Hhp)) as ([] & w2 & Hrun2 & Ho2 & _).
    exists w2. split_and!; try done.
    + eapply (dtor_frame other this); try done. by left.
    + rewrite Ho2. apply lookup_delete_eq.
Qed.

Lemma dtor_without_storage this w :
  objs w !! this = Some (Vec nullptr 0 0) →
  dtor this w = Ok tt (World (delete this (objs w)) (blocks w) (avail w) (trace w)).
Proof.
  intros Hv. unfold dtor, nuke, mbind, M_bind, self. rewrite Hv. cbn.
  change (for_upto 0 (λ i : Z, destroy_at nullptr i) w) with (Ok tt w).
  cbn match. rewrite Hv. cbn. by destruct (decide (nullptr ≠ nullptr)).
Qed.

(** X13. A moved-from vector is safe to destroy: after move construction
    the destructor of the source completes and touches nothing (no block is
    released, the trace and the available bytes are as before the move),
    and the destination still holds the elements, in the block the source
    had. *)
Theorem moved_from_destructor_releases_nothing this other w v xs :
  holds w other v xs → objs w !! this = None →
  ∃ w1 w2,
    move_ctor this other w = Ok tt w1 ∧
    dtor other w1 = Ok tt w2 ∧
    blocks w2 = blocks w ∧ trace w2 = trace w ∧ avail w2 = avail w ∧
    holds w2 this v xs ∧
    objs w2 !! other = None.
Proof.
  intros Hh Hnew. pose proof Hh as (Hv & Hsz & Hle & Hst).
  assert (Hne : this ≠ other) by congruence.
  eexists _, _. split; [by apply move_ctor_run|]. split.
  - apply dtor_without_storage. cbn. apply lookup_insert_eq.
  - cbn. split_and!; try done.
    + unfold holds; cbn.
      rewrite lookup_delete_ne, lookup_insert_ne, lookup_insert_eq by done.
      by split_and!.
    + apply lookup_delete_eq.
Qed.

End Composition.

(** ** The benchmark program *)

Section ElementwiseUpdate.

Context {T : Type} `{ElemTraits T}.

Implicit Types w : world T.
Implicit Types xs : list T.

Lemma subscript_modify_holds this w v xs i old (f : T → T) :
  holds w this v xs → xs !! i = Some old →
  ∃ w',
    subscript_modify this (Z.of_nat i) f w = Ok tt w' ∧
    holds w' this v (<[i := f old]> xs) ∧
    objs w' = objs w ∧ avail w' = avail w ∧ trace w' = trace w ∧
    delete (m_Data v) (blocks w') = delete (m_Data v) (blocks w).
Proof.
  intros (Hv & Hsz & Hle & Hst) Hold.
  pose proof (lookup_lt_Some _ _ _ Hold) as Hi.
  destruct (storage_at_cases _ _ _ _ Hst)
    as [(_&_&_&->)|(b&Hb&Hp&Hby&Hsm&Hal&Hlen&Htake)]; [done|].
  assert (Hcell : blk_cells b !! i = Some (Some old)) by (by eapply take_live).
  eexists. split.
  { unfold subscript_modify, mbind, M_bind, self. rewrite Hv.
    case_decide; [|lia]. unfold modify_at, with_cell. rewrite Hb.
    case_decide; [|lia]. rewrite Nat2Z.id, Hcell. reflexivity. }
  cbn. split_and!; try done.
  - unfold holds, storage_at; cbn. rewrite lookup_insert_eq. cbn.
    rewrite !length_insert. split_and!; try done.
    rewrite take_insert_lt by done. rewrite Htake.
    by rewrite list_fmap_insert.
  - by rewrite delete_insert_eq.
Qed.

Lemma insert_mapped_prefix (f : T → T) xs k x :
  xs !! k = Some x →
  <[k := f x]> ((f <$> take k xs) ++ drop k xs) = (f <$> take (S k) xs) ++ drop (S k) xs.
Proof.
  intros Hx. pose proof (lookup_lt_Some _ _ _ Hx) as Hk.
  rewrite (take_S_r _ _ _ Hx), fmap_app, <- app_assoc. cbn.
  rewrite (drop_S _ _ _ Hx).
  rewrite insert_app_r_alt by (rewrite length_fmap, length_take; lia).
  rewrite length_fmap, length_take, Nat.min_l, Nat.sub_diag by lia. done.
Qed.

Lemma wp_update_loop this (f : T → T) w v xs :
  holds w this v xs →
  wp (for_from (length xs) 0 (λ i, subscript_modify this i f)) w (λ _ w',
    holds w' this v (f <$> xs) ∧
    objs w' = objs w ∧ avail w' = avail w ∧ trace w' = trace w ∧
    delete (m_Data v) (blocks w') = delete (m_Data v) (blocks w)).
Proof.
  intros Hh.
  set (I := λ (k : nat) (w1 : world T),
    holds w1 this v ((f <$> take k xs) ++ drop k xs) ∧
    objs w1 = objs w ∧ avail w1 = avail w ∧ trace w1 = trace w ∧
    delete (m_Data v) (blocks w1) = delete (m_Data v) (blocks w)).
  apply (wp_mono _ _ (λ _, I (length xs))).
  { apply wp_for_from.
    - unfold I. cbn. by rewrite drop_0.
    - intros k w1 Hk (Hh1 & Ho1 & Ha1 & Ht1 & Hb1). rewrite Z.add_0_l.
      destruct (lookup_lt_is_Some_2 xs k Hk) as [x Hx].
      assert (Hkth : ((f <$> take k xs) ++ drop k xs) !! k = Some x).
      { rewrite lookup_app_r by (rewrite length_fmap, length_take; lia).
        rewrite length_fmap, length_take, Nat.min_l, Nat.sub_diag by lia.
        by rewrite lookup_drop, Nat.add_0_r. }
      destruct (subscript_modify_holds this w1 v _ k x f Hh1 Hkth)
        as (w2 & Hrun & Hh2 & Ho2 & Ha2 & Ht2 & Hb2).
      eapply wp_run; [exact Hrun|]. unfold I.
      rewrite <- (insert_mapped_prefix f xs k x Hx).
      split_and!; congruence. }
  intros [] w' (Hh' & Ho & Ha & Ht & Hb). split_and!; try done.
  by rewrite take_ge, drop_ge, app_nil_r in Hh'.
Qed.

(** X14. A loop that updates every element in place through [operator[]],
    as the benchmark's [fv[i] += 5] does, completes and maps the update
    over the elements: the vector then holds [f x] for every [x] it held,
    in the same order, in the same block, with nothing acquired or
    released. *)
Theorem elementwise_update_maps this (f : T → T) w v xs :
  holds w this v xs →
  ∃ w',
    for_upto (m_Size v) (λ i, subscript_modify this i f) w = Ok tt w' ∧
    holds w' this v (f <$> xs) ∧
    objs w' = objs w ∧ avail w' = avail w ∧ trace w' = trace w ∧
    delete (m_Data v) (blocks w') = delete (m_Data v) (blocks w).
Proof.
  intros Hh. pose proof Hh as (_ & Hsz & _).
  destruct (wp_inv _ _ _ (wp_update_loop this f w v xs Hh))
    as ([] & w' & Hrun & Hpost).
  exists w'. split; [|exact Hpost].
  unfold for_upto. by rewrite Hsz, Nat2Z.id.
Qed.

End ElementwiseUpdate.

Lemma for_from_push_back fv n : ∀ i w,
  for_from n i (λ j, push_back fv j) w = push_all fv (seqZ i (Z.of_nat n)) w.
Proof.
  induction n as [|n IH]; intros i w; [done|].
  rewrite seqZ_cons by lia. cbn [for_from push_all]. unfold mbind, M_bind.
  destruct (push_back fv i w); [|done..].
  rewrite IH. do 2 f_equal; lia.
Qed.

Lemma int_add_small a b :
  -2147483648 ≤ a + b < 2147483648 → int_add a b = a + b.
Proof. intros Hab. unfold int_add. rewrite Z.mod_small; lia. Qed.

(** X15. The benchmark's use of the vector: for every [N >= 0] whose
    elements plus 5 fit an [int], started where address [fv] is free and
    the store has the memory for the growth, the program's FastVector part
    completes, the value printed for [fv.size()] is [N], the vector holds
    [5, 6, ..., N + 4] before it is destroyed, and at the end the store
    has every byte and block it had at the start. *)
Theorem main_fills_and_updates N fv (w : world Z) :
  0 ≤ N → N + 5 ≤ 2147483648 →
  objs w !! fv = None → blocks w !! nullptr = None →
  (3 * N + 4) * 4 ≤ avail w →
  ∃ w1 v1 w',
    (default_ctor fv ;;
     for_upto N (λ i, push_back fv i) ;;
     for_upto N (λ i, subscript_modify fv i (λ x, int_add x 5))) w = Ok tt w1 ∧
    holds w1 fv v1 ((λ i, i + 5) <$> seqZ 0 N) ∧
    main_with N fv w = Ok N w' ∧
    objs w' = objs w ∧ blocks w' = blocks w ∧ avail w' = avail w.
Proof.
  intros HN Hint Hnew Hnull Hmem.
  set (w0 := World (<[fv := Vec nullptr 0 0]> (objs w)) (blocks w) (avail w) (trace w)).
  assert (Hctor : default_ctor fv w = Ok tt w0).
  { unfold default_ctor, begin_lifetime. by rewrite Hnew. }
  assert (Hh0 : holds w0 fv (Vec nullptr 0 0) []).
  { unfold holds, storage_at; cbn. rewrite lookup_insert_eq, Hnull. by split_and!. }
  assert (Hlen : Z.of_nat (length (seqZ 0 N)) = N) by (rewrite length_seqZ; lia).
  destruct (wp_inv _ _ _ (push_all_keeps_store fv (seqZ 0 N) w0 _ [] Hh0
              ltac:(cbn; change sizeof_T with 4; lia)
              ltac:(cbn; change sizeof_T with 4; unfold size_t_modulus; lia)))
    as ([] & w1 & Hrun1 & v1 & Hh1 & Ho1 & Hb1 & Hav1 & _).
  cbn [app] in Hh1. cbn in Hb1, Hav1, Ho1.
  assert (Hfill : for_upto N (λ i, push_back fv i) w0 = Ok tt w1).
  { unfold for_upto. rewrite for_from_push_back, Z2Nat.id by lia. exact Hrun1. }
  assert (Hsz1 : m_Size v1 = N) by (destruct Hh1 as (_ & -> & _); exact Hlen).
  destruct (wp_inv _ _ _ (wp_update_loop fv (λ x, int_add x 5) w1 v1 _ Hh1))
    as ([] & w2 & Hrun2 & Hh2 & Ho2 & Ha2 & Ht2 & Hb2).
  replace (length (seqZ 0 N)) with (Z.to_nat N) in Hrun2 by lia.
  fold (for_upto N (λ i, subscript_modify fv i (λ x, int_add x 5))) in Hrun2.
  assert (Hmap : (λ x, int_add x 5) <$> seqZ 0 N = (λ i, i + 5) <$> seqZ 0 N).
  { apply list_fmap_ext. intros i x Hx. apply lookup_seqZ in Hx as [-> Hi].
    apply int_add_small. lia. }
  rewrite Hmap in Hh2.
  destruct (wp_inv _ _ _ (wp_dtor fv v1 _ w2 Hh2))
    as ([] & w3 & Hrun3 & Ho3 & Hb3 & Hav3 & _).
  assert (Hprefix :
    (default_ctor fv ;;
     for_upto N (λ i, push_back fv i) ;;
     for_upto N (λ i, subscript_modify fv i (λ x, int_add x 5))) w = Ok tt w2).
  { unfold mbind, M_bind. by rewrite Hctor, Hfill, Hrun2. }
  exists w2, v1, w3. split; [exact Hprefix|]. split; [exact Hh2|]. split_and!.
  - unfold main_with, mbind, M_bind. rewrite Hctor, Hfill, Hrun2.
    rewrite (size_holds _ _ _ _ Hh2), Hrun3. cbn.
    by rewrite length_fmap, Hlen.
  - rewrite Ho3, Ho2, Ho1, delete_insert_eq, delete_insert_eq. by apply delete_id.
  - rewrite Hb3, Hb2, Hb1. by apply delete_id.
  - change sizeof_T with 4 in *. lia.
Qed.

(** ** After [clear] *)

Section AfterClear.

Context {T : Type} `{ElemTraits T}.

Implicit Types w : world T.
Implicit Types xs : list T.

Lemma destroy_dead p i w :
  dead_at w p i → 0 ≤ i → destroy_at (T:=T) p i w = Fault dead_object.
Proof.
  intros (b & Hb & Hc) Hi. unfold destroy_at, with_cell. rewrite Hb.
  case_decide; [|lia]. by rewrite Hc.
Qed.

Lemma nuke_dead this v w :
  objs w !! this = Some v → 0 < m_Size v → dead_at w (m_Data v) 0 →
  nuke this w = Fault dead_object.
Proof.
  intros Hv Hsz Hdead. unfold nuke, mbind, M_bind, self. rewrite Hv.
  unfold for_upto. destruct (Z.to_nat (m_Size v)) as [|n] eqn:E; [lia|].
  cbn [for_from]. unfold mbind, M_bind. by rewrite destroy_dead.
Qed.

(** X16. [clear()] on a vector that holds elements completes and destroys
    every one of them, releasing nothing; it writes no member, so [size()]
    is what it was.  When there was at least one element, the slots below
    the size are then dead objects that the vector still counts: a second
    [clear()], a [pop_back()], the destructor and [operator[]] at index 0
    all reach a destroyed object. *)
Theorem clear_leaves_dead_elements this w v xs :
  holds w this v xs →
  ∃ w',
    clear this w = Ok tt w' ∧
    objs w' = objs w ∧ trace w' = trace w ∧ avail w' = avail w ∧ shape w' = shape w ∧
    (∀ j, 0 ≤ j < m_Size v → dead_at w' (m_Data v) j) ∧
    size this w' = Ok (Z.of_nat (length xs)) w' ∧
    (xs ≠ [] →
       clear this w' = Fault dead_object ∧
       pop_back this w' = Fault dead_object ∧
       dtor this w' = Fault dead_object ∧
       subscript this 0 w' = Fault dead_object).
Proof.
  intros Hh. pose proof (holds_capacity_small _ _ _ _ Hh) as [[Hs0 Hle] Hsmall].
  pose proof Hh as (Hv & Hsz & _ & Hst).
  destruct (wp_inv _ _ _ (wp_nuke this v w Hv
              ltac:(rewrite Hsz, Nat2Z.id; by eapply storage_at_live_upto)))
    as ([] & w' & Hrun & (Ho & Ha & Ht & Hsh & _) & Hdead).
  assert (Hv' : objs w' !! this = Some v) by (by rewrite Ho).
  exists w'. split_and!; try done.
  - unfold size, mbind, M_bind, self. rewrite Hv'. cbn. by rewrite Hsz.
  - intros Hne. assert (0 < m_Size v) by (destruct xs; [done | cbn in Hsz; lia]).
    assert (Hnuke : nuke this w' = Fault dead_object).
    { apply (nuke_dead this v); [done | done | apply Hdead; lia]. }
    split_and!.
    + exact Hnuke.
    + unfold pop_back, mbind, M_bind, self, set_self. rewrite Hv'.
      destruct (decide (m_Size v = 0)); [lia|]. rewrite Hv'.
      rewrite wrap_small by lia. apply destroy_dead; [|lia].
      destruct (Hdead (m_Size v - 1) ltac:(lia)) as (b & Hb & Hc). by exists b.
    + unfold dtor, mbind, M_bind. by rewrite Hnuke.
    + unfold subscript, mbind, M_bind, self. rewrite Hv'.
      case_decide; [|lia]. destruct (Hdead 0 ltac:(lia)) as (b & Hb & Hc).
      unfold load, with_cell. rewrite Hb. case_decide; [|lia]. by rewrite Hc.
Qed.

End AfterClear.

(** ** The further properties on [FastVector<int>] *)

Lemma trace_agrees_list {T} (w : world T) l :
  blocks w = list_to_map l →
  Forall (λ pb, acquired (trace w) pb.1 = Some (blk_bytes pb.2, blk_align pb.2)) l →
  trace_agrees w.
Proof.
  intros Hb Hl p b Hp. rewrite Hb in Hp.
  apply elem_of_list_to_map_2 in Hp.
  rewrite Forall_forall in Hl. exact (Hl (p, b) Hp).
Qed.

Lemma world_three_trace_agrees : trace_agrees world_three.
Proof.
  apply (trace_agrees_list _ [(1, Block 16 4 [Some 10; Some 20; Some 30; None])]);
    [by vm_compute|].
  repeat constructor.
Qed.

Lemma destructor_releases_storage_witness :
  ∃ w',
    dtor 1 world_three = Ok tt w' ∧
    blocks w' = delete 1 (blocks world_three) ∧
    avail w' = avail world_three + 16.
Proof.
  destruct (destructor_releases_storage 1 world_three (Vec 1 3 4) [10; 20; 30])
    as (w' & Hrun & _ & Hb & Ha & _); [evaluate|].
  exists w'. split; [exact Hrun|]. split; [exact Hb | exact Ha].
Defined.

Lemma releases_stay_matched_witness :
  releases_match [] (trace (world_after (push_all 1 [40; 50]) world_three)) = true ∧
  releases_match [] (trace (world_after (dtor 1) world_three)) = true.
Proof.
  destruct (releases_stay_matched 1 world_three (Vec 1 3 4) [10; 20; 30])
    as [Hpush Hdtor];
    [evaluate | exact world_three_trace_agrees | by vm_compute |].
  split.
  - by vm_compute.
  - apply (Hdtor (world_after (dtor 1) world_three)). by vm_compute.
Defined.

Lemma lifetime_returns_store_witness :
  ∃ w',
    (default_ctor 2 ;; push_all 2 [1; 2; 3; 4; 5] ;; dtor 2) world_three = Ok tt w' ∧
    objs w' = objs world_three ∧ blocks w' = blocks world_three ∧
    avail w' = avail world_three.
Proof.
  destruct (lifetime_returns_store 2 world_three [1; 2; 3; 4; 5])
    as (w' & Hrun & Ho & Hb & Ha & _); [evaluate..|].
  exists w'. split; [exact Hrun|]. split; [exact Ho|]. split; [exact Hb | exact Ha].
Defined.

Lemma push_back_within_capacity_witness :
  ∃ w',
    push_all 1 [40] world_three = Ok tt w' ∧
    holds w' 1 (Vec 1 4 4) [10; 20; 30; 40] ∧
    trace w' = trace world_three.
Proof.
  destruct (push_back_within_capacity 1 [40] world_three (Vec 1 3 4) [10; 20; 30])
    as (w' & Hrun & Hh & Ht & _); [evaluate..|].
  exists w'. split; [exact Hrun|]. split; [exact Hh | exact Ht].
Defined.

Lemma pop_back_undoes_push_back_witness :
  ∃ w' v',
    (push_back 1 40 ;; pop_back 1) world_three = Ok tt w' ∧
    holds w' 1 v' [10; 20; 30] ∧ v' = Vec 1 3 4.
Proof.
  destruct (pop_back_undoes_push_back 1 world_three (Vec 1 3 4) [10; 20; 30] 40)
    as (w' & v' & Hrun & Hh & _ & _ & Hsame); [evaluate | intros; discriminate |].
  exists w', v'. split; [exact Hrun|]. split; [exact Hh|]. apply Hsame. reflexivity.
Defined.

Lemma pop_n_keeps_prefix_witness :
  (∃ w', pop_n 1 2 world_three = Ok tt w' ∧ holds w' 1 (Vec 1 1 4) [10]) ∧
  (∃ w', pop_n 1 4 world_three = Throw out_of_range w' ∧ holds w' 1 (Vec 1 0 4) []).
Proof.
  split.
  - destruct (pop_n_keeps_prefix 1 2 world_three (Vec 1 3 4) [10; 20; 30])
      as [(w' & Hrun & Hh & _) _]; [evaluate | cbn; lia |].
    exists w'. split; [exact Hrun | exact Hh].
  - destruct (pop_n_keeps_prefix 1 3 world_three (Vec 1 3 4) [10; 20; 30])
      as [_ Hlast]; [evaluate | cbn; lia |].
    destruct (Hlast eq_refl) as (w' & Hrun & Hh).
    exists w'. split; [exact Hrun | exact Hh].
Defined.

Lemma observers_read_contents_witness :
  size 1 world_three = Ok 3 world_three ∧
  empty 1 world_three = Ok false world_three ∧
  subscript 1 2 world_three = Ok 30 world_three ∧
  subscript 1 3 world_three = Fault out_of_bounds.
Proof.
  destruct (observers_read_contents 1 world_three (Vec 1 3 4) [10; 20; 30])
    as (Hsize & Hempty & Hsub); [evaluate|].
  split; [exact Hsize|]. split; [exact Hempty|].
  split; [exact (Hsub 2 ltac:(lia)) | exact (Hsub 3 ltac:(lia))].
Defined.

Lemma subscript_assign_updates_witness :
  (∃ w',
     subscript_assign 1 1 25 world_three = Ok tt w' ∧
     holds w' 1 (Vec 1 3 4) [10; 25; 30] ∧
     subscript 1 1 w' = Ok 25 w') ∧
  subscript_assign 1 3 25 world_three = Fault out_of_bounds.
Proof.
  destruct (subscript_assign_updates 1 world_three (Vec 1 3 4) [10; 20; 30])
    as [Hin Hout]; [evaluate|].
  split.
  - destruct (Hin 1%nat 25) as (w' & Hrun & Hh & Hread & _); [cbn; lia|].
    exists w'. split; [exact Hrun|]. split; [exact Hh | exact Hread].
  - apply Hout. cbn. lia.
Defined.

Lemma capacity_is_bounded_witness :
  ∃ w' c,
    push_all 1 [1; 2; 3; 4; 5; 6; 7; 8; 9] world_fresh = Ok tt w' ∧
    capacity_of w' 1 = Some c ∧ 9 ≤ c ≤ 16.
Proof.
  destruct (capacity_is_bounded 1 world_fresh [1; 2; 3; 4; 5; 6; 7; 8; 9])
    as (w' & c & Hrun & Hc & Hbound & _); [evaluate | discriminate | evaluate..|].
  exists w', c. split; [exact Hrun|]. split; [exact Hc | exact Hbound].
Defined.

Lemma no_growth_without_insertion_witness :
  trace (world_after (pop_back 1) world_three) = trace world_three ∧
  shape (world_after (pop_back 1) world_three) = shape world_three.
Proof.
  destruct (no_growth_without_insertion 1 MPop world_three
              (world_after (pop_back 1) world_three))
    as (Ht & _ & Hs & _); [exact I | by vm_compute |].
  split; [exact Ht | exact Hs].
Defined.

Lemma copy_outlives_source_witness :
  ∃ w1 q w2,
    copy_ctor 2 1 world_three = Ok tt w1 ∧
    dtor 1 w1 = Ok tt w2 ∧
    holds w2 2 (Vec q 3 4) [10; 20; 30].
Proof.
  destruct (copy_outlives_source 2 1 world_three (Vec 1 3 4) [10; 20; 30])
    as (w1 & q & Hcopy & _ & (w2 & Hdtor & Hh & _)); [evaluate..|].
  exists w1, q, w2. split; [exact Hcopy|]. split; [exact Hdtor | exact Hh].
Defined.

Lemma moved_from_destructor_releases_nothing_witness :
  ∃ w1 w2,
    move_ctor 2 1 world_three = Ok tt w1 ∧
    dtor 1 w1 = Ok tt w2 ∧
    trace w2 = trace world_three ∧
    holds w2 2 (Vec 1 3 4) [10; 20; 30].
Proof.
  destruct (moved_from_destructor_releases_nothing 2 1 world_three (Vec 1 3 4) [10; 20; 30])
    as (w1 & w2 & Hmove & Hdtor & _ & Ht & _ & Hh & _); [evaluate..|].
  exists w1, w2. split; [exact Hmove|]. split; [exact Hdtor|].
  split; [exact Ht | exact Hh].
Defined.

Lemma elementwise_update_maps_witness :
  ∃ w',
    for_upto 3 (λ i, subscript_modify 1 i (λ x, int_add x 5)) world_three = Ok tt w' ∧
    holds w' 1 (Vec 1 3 4) [15; 25; 35].
Proof.
  destruct (elementwise_update_maps 1 (λ x, int_add x 5) world_three (Vec 1 3 4)
              [10; 20; 30]) as (w' & Hrun & Hh & _); [evaluate|].
  exists w'. split; [exact Hrun | exact Hh].
Defined.

Lemma main_fills_and_updates_witness :
  ∃ w1 v1 w',
    holds w1 1 v1 [5; 6; 7; 8; 9; 10] ∧
    main_with 6 1 (empty_world 1000) = Ok 6 w' ∧
    blocks w' = ∅ ∧ avail w' = 1000.
Proof.
  destruct (main_fills_and_updates 6 1 (empty_world 1000))
    as (w1 & v1 & w' & _ & Hh & Hrun & _ & Hb & Ha); [evaluate..|].
  exists w1, v1, w'. split; [exact Hh|]. split; [exact Hrun|].
  split; [exact Hb | exact Ha].
Defined.

Lemma clear_leaves_dead_elements_witness :
  ∃ w',
    clear 1 world_three = Ok tt w' ∧
    size 1 w' = Ok 3 w' ∧
    dtor 1 w' = Fault dead_object.
Proof.
  destruct (clear_leaves_dead_elements 1 world_three (Vec 1 3 4) [10; 20; 30])
    as (w' & Hrun & _ & _ & _ & _ & _ & Hsize & Hafter); [evaluate|].
  destruct (Hafter ltac:(discriminate)) as (_ & _ & Hdtor & _).
  exists w'. split; [exact Hrun|]. split; [exact Hsize | exact Hdtor].
Defined.
